(** * scqubits [core/circuit.py]: hierarchical diagonalization engine

    A shallow embedding of the parts of [scqubits.core.circuit] that
    partition a circuit into subsystems, build the elementary operators,
    compute Hilbert-space dimensions and dispatch to the eigensolver,
    and of the bare/dressed state lookup of [scqubits.core.spec_lookup],
    together with the properties stated for them.

    Conventions
    - Python [int] is [Z]; variable indices are Python ints.
    - A (possibly nested) Python list of ints is a [pyval].
    - A call that may raise returns a [result]; the constructor [Raise]
      carries the Python exception class.
    - Floating point numbers are idealised as real numbers [R]; complex
      numbers as pairs of reals.
    - [np.prod] multiplies in 64-bit integers and wraps around silently;
      the ints handed to it are taken to fit 64 bits. *)

From Stdlib Require Import ZArith List String Ascii Bool Lia Permutation Sorted.
From Stdlib Require Import DecimalString DecimalNat.
From Stdlib Require Import Reals Lra QArith Qabs.
From stdpp Require Import gmap strings list fin_maps.
Import ListNotations.

Set Warnings "-register-all".

(* ===================================================================== *)
(** ** Python values and exceptions *)
(* ===================================================================== *)

Module Py.

(** The exception classes the embedded code can raise. [ConfigError] is
    the bare [Exception("The truncated dimensions attribute ... is not
    set.")] of [Circuit.initiate_circuit]. *)
Inductive exn :=
| TypeError | IndexError | KeyError | ValueError | AttributeError | ConfigError.

Inductive result (A : Type) :=
| Ok (a : A)
| Raise (e : exn).
Arguments Ok {A} a.
Arguments Raise {A} e.

Definition bind {A B} (r : result A) (k : A -> result B) : result B :=
  match r with
  | Ok a => k a
  | Raise e => Raise e
  end.

(** A list comprehension / for-loop whose body may raise: the first
    exception aborts the loop. *)
Fixpoint mapM {A B} (f : A -> result B) (l : list A) : result (list B) :=
  match l with
  | [] => Ok []
  | x :: r =>
      bind (f x) (fun y => bind (mapM f r) (fun ys => Ok (y :: ys)))
  end.

(** Nested lists of integers, as used for [system_hierarchy] and
    [subsystem_trunc_dims]. *)
Inductive pyval :=
| PInt (n : Z)
| PList (l : list pyval).

(** Python [==] on such values. *)
Fixpoint pyval_eqb (a b : pyval) {struct a} : bool :=
  match a, b with
  | PInt x, PInt y => Z.eqb x y
  | PList l, PList m =>
      (fix go (l m : list pyval) {struct l} : bool :=
         match l, m with
         | [], [] => true
         | x :: l', y :: m' => pyval_eqb x y && go l' m'
         | _, _ => false
         end) l m
  | _, _ => false
  end.

Fixpoint pylist_eqb (l m : list pyval) : bool :=
  match l, m with
  | [], [] => true
  | x :: l', y :: m' => pyval_eqb x y && pylist_eqb l' m'
  | _, _ => false
  end.

(** [type(v) == list] *)
Definition is_list (v : pyval) : bool :=
  match v with PList _ => true | PInt _ => false end.

(** [x in l] for an int [x] and a Python list [l]. *)
Definition py_in (x : Z) (l : list pyval) : bool :=
  existsb (pyval_eqb (PInt x)) l.

(** Modelled from the spec: [flatten_list_recursive] of
    [scqubits.utils.misc] is imported by [circuit.py] but is not part of
    the sources at hand; the specification calls its result the group's
    "flattened indices": every nested list is spliced, depth first and
    left to right, into one list of leaves. *)
Fixpoint flatten_val (v : pyval) : list pyval :=
  match v with
  | PInt n => [PInt n]
  | PList l => flat_map flatten_val l
  end.

Definition flatten_list_recursive (S : list pyval) : list pyval :=
  flat_map flatten_val S.

(** Applying [flatten_list_recursive] to something that is not a list
    raises [TypeError] (an int is not subscriptable). *)
Definition flatten_arg (v : pyval) : result (list pyval) :=
  match v with
  | PList l => Ok (flatten_list_recursive l)
  | PInt _ => Raise TypeError
  end.

(** [v] is one of the indices of the (nested) group [g]. *)
Fixpoint has_leaf (v : Z) (g : pyval) : bool :=
  match g with
  | PInt n => Z.eqb v n
  | PList l => existsb (has_leaf v) l
  end.

(** A group without nested sub-groups. *)
Definition flat_group (l : list pyval) : bool :=
  forallb (fun v => negb (is_list v)) l.

(** Structural induction through the nested lists. *)
Fixpoint pyval_nested_ind (P : pyval -> Prop)
  (HInt : forall n, P (PInt n))
  (HList : forall l, Forall P l -> P (PList l)) (v : pyval) {struct v} : P v :=
  match v with
  | PInt n => HInt n
  | PList l =>
      HList l
        ((fix go (l : list pyval) : Forall P l :=
            match l with
            | [] => List.Forall_nil P
            | x :: r => @List.Forall_cons _ P x r (pyval_nested_ind P HInt HList x) (go r)
            end) l)
  end.

End Py.
Export Py.

Notation "'let!' x ':=' c1 'in' c2" := (Py.bind c1 (fun x => c2))
  (at level 10, x name, c1 at level 200, c2 at level 200).

(* ===================================================================== *)
(** ** [truncation_template] (circuit.py, lines 54-96) *)
(* ===================================================================== *)

Module Template.

(** One iteration of the loop body, for the group [g]. The recursive
    call [truncation_template(subsystem_hierarchy)] passes no dimension
    arguments, so it runs with the defaults 6 and 50. *)
Fixpoint template_entry (g : pyval) (individual_trunc_dim combined_trunc_dim : Z)
  {struct g} : result pyval :=
  match g with
  | PInt _ => Raise TypeError
  | PList l =>
      if pylist_eqb l (flatten_list_recursive l)
      then Ok (PInt individual_trunc_dim)
      else
        let! inner :=
          (fix loop (l : list pyval) : result (list pyval) :=
             match l with
             | [] => Ok []
             | x :: r =>
                 let! y := template_entry x 6 50 in
                 let! ys := loop r in
                 Ok (y :: ys)
             end) l in
        Ok (PList [PInt combined_trunc_dim; PList inner])
  end.

Definition truncation_template (system_hierarchy : list pyval)
  (individual_trunc_dim combined_trunc_dim : Z) : result (list pyval) :=
  mapM (fun g => template_entry g individual_trunc_dim combined_trunc_dim)
    system_hierarchy.

End Template.

(* ===================================================================== *)
(** ** [Subsystem.get_subsystem_index] (circuit.py, lines 540-557) *)
(* ===================================================================== *)

Module SubsystemIndex.

(** [for index, system_hierarchy in enumerate(self.system_hierarchy)];
    falling off the end of the loop returns [None]. *)
Fixpoint get_subsystem_index_from (index : nat) (system_hierarchy : list pyval)
  (var_index : Z) : result (option nat) :=
  match system_hierarchy with
  | [] => Ok None
  | g :: rest =>
      let! flat := flatten_arg g in
      if py_in var_index flat then Ok (Some index)
      else get_subsystem_index_from (S index) rest var_index
  end.

Definition get_subsystem_index (system_hierarchy : list pyval) (var_index : Z)
  : result (option nat) :=
  get_subsystem_index_from 0 system_hierarchy var_index.

End SubsystemIndex.

(* ===================================================================== *)
(** ** Symbol names and [get_trailing_number] (circuit.py, lines 99-115) *)
(* ===================================================================== *)

Module Names.

Local Open Scope string_scope.

(** Python [pat in s] on strings. *)
Fixpoint str_contains (pat s : string) : bool :=
  String.prefix pat s
  || match s with
     | EmptyString => false
     | String _ s' => str_contains pat s'
     end.

Definition is_digit (c : ascii) : bool :=
  (48 <=? nat_of_ascii c)%nat && (nat_of_ascii c <=? 57)%nat.

Fixpoint all_digits (s : string) : bool :=
  match s with
  | EmptyString => true
  | String c s' => is_digit c && all_digits s'
  end.

(** The match of the regular expression [\d+$]: the longest suffix made
    of decimal digits (empty when there is no match). Symbol names only
    carry ASCII digits: the other Unicode decimal digits, which [\d]
    matches too, and a final newline, before which [$] matches too, are
    outside this model. *)
Fixpoint trailing_digits (s : string) : string :=
  match s with
  | EmptyString => EmptyString
  | String c s' => if all_digits (String c s') then String c s' else trailing_digits s'
  end.

Fixpoint int_of_digits (acc : Z) (s : string) : Z :=
  match s with
  | EmptyString => acc
  | String c s' => int_of_digits (10 * acc + (Z.of_nat (nat_of_ascii c) - 48)) s'
  end.

Definition get_trailing_number (input_str : string) : option Z :=
  match trailing_digits input_str with
  | EmptyString => None
  | d => Some (int_of_digits 0 d)
  end.

(** Python [str(n)] for a non-negative int. *)
Definition str (n : nat) : string := NilEmpty.string_of_uint (Nat.to_uint n).

End Names.

(* ===================================================================== *)
(** ** [Subsystem.generate_subsystems] (circuit.py, lines 464-538):
       the self- and interaction-Hamiltonian buckets *)
(* ===================================================================== *)

Module Partition.
Import Names.
Local Open Scope string_scope.
Local Open Scope Z_scope.

(** A sympy symbol is identified by its name. A term (a key of
    [as_coefficients_dict()]) is a product of symbols, kept as the list
    of its factors: [n1**2] is ["n1"; "n1"]. *)
Definition symbol := string.
Definition term := list symbol.

(** An expanded sympy sum: the finite map from its terms to their
    non-zero numeric coefficients (integers here; the bucketing never
    looks at their value); [as_coefficients_dict()] is the map itself and
    the expression [0] is the empty map. *)
Definition coeff (e : gmap term Z) (t : term) : Z := default 0 (e !! t).

(** [e + c*t] *)
Definition add_term (e : gmap term Z) (c : Z) (t : term) : gmap term Z :=
  let c' := coeff e t + c in
  if c' =? 0 then delete t e else <[t := c']> e.

Definition expr_add (a b : gmap term Z) : gmap term Z :=
  fold_left (fun acc tc => add_term acc (snd tc) (fst tc)) (map_to_list b) a.

Definition expr_neg (a : gmap term Z) : gmap term Z := Z.opp <$> a.

Definition expr_sub (a b : gmap term Z) : gmap term Z := expr_add a (expr_neg b).

Definition expr_sum (l : list (gmap term Z)) : gmap term Z :=
  fold_left expr_add l ∅.

(** Modelled from the spec: [list_intersection] of [scqubits.utils.misc]
    is not part of the sources at hand; it keeps the members of the first
    list that occur in the second (the specification speaks of the
    "non-parameter" symbols of a monomial). *)
Definition list_intersection (l1 l2 : list symbol) : list symbol :=
  List.filter (fun x => existsb (String.eqb x) l2) l1.

(** Lines 481-491: the variable indices of the operator symbols of a
    term, in order of first occurrence. *)
Definition term_var_categories (param_vars : list symbol) (t : term) : list Z :=
  fold_left
    (fun acc var =>
       if negb (str_contains "Φ" var) && negb (str_contains "ng" var)
          && (length (list_intersection param_vars [var]) =? 0)%nat
       then match get_trailing_number var with
            | Some index => if existsb (Z.eqb index) acc then acc else (acc ++ [index])%list
            | None => acc
            end
       else acc)
    t [].

(** [set(a) - set(b)] and [set(a) & set(b)] for a duplicate-free list of
    ints [a] and a flattened index list [b]. *)
Definition set_minus (a : list Z) (b : list pyval) : list Z :=
  List.filter (fun x => negb (py_in x b)) a.

Definition set_inter (a : list Z) (b : list pyval) : list Z :=
  List.filter (fun x => py_in x b) a.

(** Lines 475-500: one pass over the terms of the current [hamiltonian]
    for the group with flattened indices [subsys_index_list]. *)
Definition scan_terms (param_vars : list symbol) (hamiltonian : gmap term Z)
  (subsys_index_list : list pyval) : gmap term Z * gmap term Z :=
  let expr_dict := hamiltonian in
  let terms_list := map fst (map_to_list expr_dict) in
  fold_left
    (fun acc t =>
       let term_vars := term_var_categories param_vars t in
       let H_sys :=
         if (length (set_minus term_vars subsys_index_list) =? 0)%nat
         then add_term (fst acc) (coeff expr_dict t) t else fst acc in
       let H_int :=
         if (0 <? length (set_minus term_vars subsys_index_list))%nat
            && (0 <? length (set_inter term_vars subsys_index_list))%nat
         then add_term (snd acc) (coeff expr_dict t) t else snd acc in
       (H_sys, H_int))
    terms_list (∅, ∅).

(** Lines 473-503: the loop over the groups. Line 503 is
    [hamiltonian -= H_sys - H_int]. Returns [systems_sym] and
    [interaction_sym]. *)
Fixpoint generate_buckets (param_vars : list symbol) (system_hierarchy : list pyval)
  (hamiltonian : gmap term Z) : result (list (gmap term Z) * list (gmap term Z)) :=
  match system_hierarchy with
  | [] => Ok ([], [])
  | g :: rest =>
      let! subsys_index_list := flatten_arg g in
      let '(H_sys, H_int) := scan_terms param_vars hamiltonian subsys_index_list in
      let hamiltonian' := expr_sub hamiltonian (expr_sub H_sys H_int) in
      let! r := generate_buckets param_vars rest hamiltonian' in
      Ok (H_sys :: fst r, H_int :: snd r)
  end.

(** The sum of all [subsystem_hamiltonians] and all
    [subsystem_interactions]. *)
Definition resum (buckets : list (gmap term Z) * list (gmap term Z)) : gmap term Z :=
  expr_add (expr_sum (fst buckets)) (expr_sum (snd buckets)).

(** Two uncoupled variables: [2*n1**2 + 2*n2**2]. *)
Definition H_uncoupled : gmap term Z :=
  <[ ["n1"; "n1"] := 2 ]> (<[ ["n2"; "n2"] := 2 ]> ∅).

(** Three variables coupled by one monomial: [5*n1*n2*n3]. *)
Definition H_three_modes : gmap term Z := <[ ["n1"; "n2"; "n3"] := 5 ]> ∅.

Definition three_groups : list pyval := [PList [PInt 1]; PList [PInt 2]; PList [PInt 3]].

(** A two-variable example: [2*n1**2 + 2*n2**2 + 3*n1*n2]. *)
Definition H_two_modes : gmap term Z :=
  <[ ["n1"; "n1"] := 2 ]> (<[ ["n2"; "n2"] := 2 ]> (<[ ["n1"; "n2"] := 3 ]> ∅)).

Definition two_groups : list pyval := [PList [PInt 1]; PList [PInt 2]].

End Partition.

(* ===================================================================== *)
(** ** Elementary operators (circuit.py, lines 1014-1162) *)
(* ===================================================================== *)

Module Operators.
Local Open Scope R_scope.

(** A square matrix of size [dim]; [entry] is only meaningful for row and
    column indices below [dim]. Sparse formats ([dia], [csc]) differ in
    storage only, so [tocsc] is the identity of the model. *)
Record matrix (A : Type) := Mat { dim : nat; entry : nat -> nat -> A }.
Arguments Mat {A} dim entry.
Arguments dim {A} m.
Arguments entry {A} m i j.

Definition tocsc {A} (m : matrix A) : matrix A := m.

(** [sparse.dia_matrix((n, n))]: the empty (zero) matrix. *)
Definition dia_zeros (n : nat) : matrix R := Mat n (fun _ _ => 0).

(** [m.setdiag(values)]: overwrite the main diagonal. *)
Definition setdiag (m : matrix R) (values : list R) : matrix R :=
  Mat (dim m)
    (fun i j =>
       if (i =? j)%nat && (i <? dim m)%nat && (i <? length values)%nat
       then nth i values 0
       else entry m i j).

(** [sparse.dia_matrix((data, [offset]), shape=(d, d))]: scipy stores
    the diagonal [offset] so that [A[i, j] = data[j]] when
    [j - i = offset]. *)
Definition dia_matrix (data : list R) (offset : Z) (d : nat) : matrix R :=
  Mat d
    (fun i j =>
       if (Z.of_nat j - Z.of_nat i =? offset)%Z && (i <? d)%nat && (j <? d)%nat
          && (j <? length data)%nat
       then nth j data 0
       else 0).

Definition madd (a b : matrix R) : matrix R :=
  Mat (dim a) (fun i j => entry a i j + entry b i j).

Definition msub (a b : matrix R) : matrix R :=
  Mat (dim a) (fun i j => entry a i j - entry b i j).

Definition rscale (c : R) (a : matrix R) : matrix R :=
  Mat (dim a) (fun i j => c * entry a i j).

(** Complex numbers as (real part, imaginary part). *)
Definition C : Type := R * R.
Definition Cmul (x y : C) : C :=
  (fst x * fst y - snd x * snd y, fst x * snd y + snd x * fst y).
Definition Cadd (x y : C) : C := (fst x + fst y, snd x + snd y).
Definition Creal (x : R) : C := (x, 0).
Definition Ci : C := (0, 1).
Definition Cneg (x : C) : C := (- fst x, - snd x).

Definition cscale (c : C) (a : matrix R) : matrix C :=
  Mat (dim a) (fun i j => Cmul c (Creal (entry a i j))).

(** *** Discretized basis *)

Record Grid1d := { min_val : R; max_val : R; pt_count : nat }.

(** [np.linspace(a, b, n)]: [n] evenly spaced points from [a] to [b]
    (the single point [a] when [n = 1]). *)
Definition np_linspace (a b : R) (n : nat) : list R :=
  map (fun i => a + INR i * ((b - a) / INR (n - 1))) (seq 0 n).

(** Modelled from the spec: [Grid1d.make_linspace] of
    [scqubits.core.discretization] is not part of the sources at hand;
    the specification describes a "uniform grid of configured point
    count over configured interval". *)
Definition make_linspace (grid : Grid1d) : list R :=
  np_linspace (min_val grid) (max_val grid) (pt_count grid).

(** Lines 1014-1032. *)
Definition _phi_operator (grid : Grid1d) : matrix R :=
  let pt_count := pt_count grid in
  let phi_matrix := dia_zeros pt_count in
  let diag_elements := make_linspace grid in
  setdiag phi_matrix diag_elements.

(** Lines 1064-1082. *)
Definition _cos_phi (grid : Grid1d) : matrix R :=
  let pt_count := pt_count grid in
  let cos_op := dia_zeros pt_count in
  let diag_elements := map cos (make_linspace grid) in
  tocsc (setdiag cos_op diag_elements).

(** Lines 1084-1102; line 1100 reads [np.cos(grid.make_linspace())]. *)
Definition _sin_phi (grid : Grid1d) : matrix R :=
  let pt_count := pt_count grid in
  let sin_op := dia_zeros pt_count in
  let diag_elements := map cos (make_linspace grid) in
  tocsc (setdiag sin_op diag_elements).

(** The sibling helper [_sin_dia] (lines 457-462) does take the sine of
    a diagonal. *)
Definition diagonal (m : matrix R) : list R :=
  map (fun i => entry m i i) (seq 0 (dim m)).

Definition _sin_dia (x : matrix R) : matrix R :=
  tocsc (setdiag (dia_zeros (dim x)) (map sin (diagonal x))).

Definition _cos_dia (x : matrix R) : matrix R :=
  tocsc (setdiag (dia_zeros (dim x)) (map cos (diagonal x))).

(** *** Charge basis. The cutoff [ncut] is a non-negative int. *)

(** [np.arange(lo, lo + n)] *)
Definition np_arange (lo : Z) (n : nat) : list R :=
  map (fun k => IZR (lo + Z.of_nat k)) (seq 0 n).

(** Lines 1113-1122. *)
Definition _n_theta_operator (ncut : nat) : matrix R :=
  let dim_theta := (2 * ncut + 1)%nat in
  let diag_elements := np_arange (- Z.of_nat ncut) dim_theta in
  tocsc (dia_matrix diag_elements 0 dim_theta).

(** Lines 1124-1132. *)
Definition _exp_i_theta_operator (ncut : nat) : matrix R :=
  let dim_theta := (2 * ncut + 1)%nat in
  tocsc (dia_matrix (repeat (-1) dim_theta) (-1) dim_theta).

(** Lines 1134-1142. *)
Definition _exp_i_theta_operator_conjugate (ncut : nat) : matrix R :=
  let dim_theta := (2 * ncut + 1)%nat in
  tocsc (dia_matrix (repeat (-1) dim_theta) 1 dim_theta).

(** Lines 1144-1150. *)
Definition _cos_theta (ncut : nat) : matrix R :=
  rscale (1 / 2)
    (madd (_exp_i_theta_operator ncut) (_exp_i_theta_operator_conjugate ncut)).

(** Lines 1152-1162: [-1j * 0.5 * (...)]. *)
Definition _sin_theta (ncut : nat) : matrix C :=
  cscale (Cmul (Cneg Ci) (Creal (1 / 2)))
    (msub (_exp_i_theta_operator ncut) (_exp_i_theta_operator_conjugate ncut)).

(** The grid with two points 0 and 1. *)
Definition unit_grid : Grid1d := {| min_val := 0; max_val := 1; pt_count := 2 |}.

(** *** The charge-basis operators as the specification words them:
    the operators raising and lowering the charge by one (shift-by-one
    matrices, entries 1), their sum scaled by 1/2 and their difference
    scaled by [-i/2]. *)
Definition charge_raising (ncut : nat) : matrix R :=
  let dim_theta := (2 * ncut + 1)%nat in
  dia_matrix (repeat 1 dim_theta) (-1) dim_theta.

Definition charge_lowering (ncut : nat) : matrix R :=
  let dim_theta := (2 * ncut + 1)%nat in
  dia_matrix (repeat 1 dim_theta) 1 dim_theta.

Definition cos_of_shifts (ncut : nat) : matrix R :=
  rscale (1 / 2) (madd (charge_raising ncut) (charge_lowering ncut)).

Definition sin_of_shifts (ncut : nat) : matrix C :=
  cscale (Cmul (Cneg Ci) (Creal (1 / 2)))
    (msub (charge_raising ncut) (charge_lowering ncut)).

End Operators.

(* ===================================================================== *)
(** ** [Subsystem.get_cutoffs] and [Subsystem.hilbertdim]
       (circuit.py, lines 1327-1343 and 842-868) *)
(* ===================================================================== *)

Module Dimension.
Import Names.
Local Open Scope string_scope.
Local Open Scope Z_scope.

(** The attributes of a [Subsystem]/[Circuit] instance that
    [hilbertdim] reads. [attrs] holds the int-valued properties created
    by [_make_property] (the cutoffs), keyed by property name. *)
Record instance := {
  cutoff_names : list string;
  attrs : gmap string Z;
  hierarchical_diagonalization : bool;
  system_hierarchy : list pyval;
  subsystem_trunc_dims : list pyval;
}.

Definition getattr (self : instance) (name : string) : result Z :=
  match attrs self !! name with
  | Some v => Ok v
  | None => Raise AttributeError
  end.

(** [list.sort()] on strings: ascending by code point. *)
Fixpoint sort_insert (x : string) (l : list string) : list string :=
  match l with
  | [] => [x]
  | y :: r => if String.leb x y then x :: y :: r else y :: sort_insert x r
  end.

Definition py_sort (l : list string) : list string :=
  fold_right sort_insert [] l.

(** The 64-bit two's complement integer that an exact result wraps to. *)
Definition int64 (z : Z) : Z := (z + 2 ^ 63) mod 2 ^ 64 - 2 ^ 63.

(** The values an [int64] can hold. *)
Definition fits_int64 (z : Z) : Prop := - 2 ^ 63 <= z < 2 ^ 63.

(** The exact product of a list of ints. *)
Definition product (l : list Z) : Z := fold_right Z.mul 1 l.

(** [np.prod] of a list of ints that fit 64 bits: numpy converts the
    list to an [int64] array and multiplies its members one after the
    other in [int64], wrapping around without a warning. (Of an empty
    list it is the float [1.0], which equals the int [1].) *)
Definition np_prod (l : list Z) : Z :=
  fold_left (fun acc x => int64 (acc * x)) l 1.

(** Lines 1327-1343. The returned dict is kept as an association list
    in insertion order. *)
Definition get_cutoffs (self : instance) : result (list (string * list Z)) :=
  mapM
    (fun cutoff_type =>
       let attr_list := List.filter (str_contains cutoff_type) (cutoff_names self) in
       if (0 <? length attr_list)%nat
       then
         let! values := mapM (getattr self) (py_sort attr_list) in
         Ok (cutoff_type, values)
       else Ok (cutoff_type, []))
    ["cutoff_n"; "cutoff_ext"].

(** [d[key]] on the association list. *)
Fixpoint dict_get (d : list (string * list Z)) (key : string) : result (list Z) :=
  match d with
  | [] => Raise KeyError
  | (k, v) :: r => if String.eqb k key then Ok v else dict_get r key
  end.

(** Lines 846-859: the flat case. *)
Definition hilbertdim_flat (self : instance) : result Z :=
  let! d := get_cutoffs self in
  let! cutoff_names :=
    mapM
      (fun cutoffs =>
         if str_contains "cutoff_n" cutoffs then
           let! d' := get_cutoffs self in
           let! ks := dict_get d' cutoffs in
           Ok (map (fun k => 2 * k + 1) ks)
         else if str_contains "cutoff_ext" cutoffs then
           let! d' := get_cutoffs self in
           let! ks := dict_get d' cutoffs in
           Ok ks
         else Ok [])
      (map fst d) in
  Ok (np_prod (concat cutoff_names)).

(** [l[i]] *)
Definition subscript (l : list pyval) (i : nat) : result pyval :=
  match nth_error l i with
  | Some v => Ok v
  | None => Raise IndexError
  end.

(** [e[0] if type(e) == list else e] *)
Definition trunc_dim_of (e : pyval) : result pyval :=
  if is_list e then
    match e with
    | PList l => subscript l 0
    | PInt _ => Raise TypeError
    end
  else Ok e.

(** [np.prod] of a Python list whose members are ints. A member that is
    itself a list is not a truncated dimension (an [int] by its type
    annotation); numpy's treatment of such input is left out and
    reported as [ValueError]. *)
Definition as_int (v : pyval) : result Z :=
  match v with
  | PInt n => Ok n
  | PList _ => Raise ValueError
  end.

Definition np_prod_list (l : list pyval) : result Z :=
  let! ns := mapM as_int l in
  Ok (np_prod ns).

(** Lines 860-868: the hierarchical case. *)
Definition hilbertdim_hierarchical (self : instance) : result Z :=
  let! dims :=
    mapM
      (fun i =>
         let! e := subscript (subsystem_trunc_dims self) i in
         trunc_dim_of e)
      (seq 0 (length (system_hierarchy self))) in
  np_prod_list dims.

Definition hilbertdim (self : instance) : result Z :=
  if negb (hierarchical_diagonalization self)
  then hilbertdim_flat self
  else hilbertdim_hierarchical self.

(** The names [initiate_circuit] gives to the cutoff properties
    (lines 2392-2405). *)
Definition cutoff_n_name (var_index : nat) : string := "cutoff_n_" ++ str var_index.
Definition cutoff_ext_name (var_index : nat) : string := "cutoff_ext_" ++ str var_index.

(** The first entry of a truncation specification: the truncated
    dimension of a top-level group. *)
Definition top_level_dim (e : pyval) : option Z :=
  match e with
  | PInt n => Some n
  | PList (PInt n :: _) => Some n
  | PList _ => None
  end.

(** A flat instance with periodic variables 1, 2 (cutoffs 5, 3) and the
    extended variable 3 (cutoff 30). *)
Definition flat_example : instance :=
  {| cutoff_names := ["cutoff_n_1"; "cutoff_n_2"; "cutoff_ext_3"];
     attrs := <["cutoff_n_1" := 5]> (<["cutoff_n_2" := 3]> (<["cutoff_ext_3" := 30]> ∅));
     hierarchical_diagonalization := false;
     system_hierarchy := [];
     subsystem_trunc_dims := [] |}.

(** A flat instance with the periodic variables 1 and 2, both with the
    cutoff [2**31]. *)
Definition overflow_flat : instance :=
  {| cutoff_names := ["cutoff_n_1"; "cutoff_n_2"];
     attrs := <["cutoff_n_1" := 2 ^ 31]> (<["cutoff_n_2" := 2 ^ 31]> ∅);
     hierarchical_diagonalization := false;
     system_hierarchy := [];
     subsystem_trunc_dims := [] |}.

(** A hierarchical instance: groups [[1], [2]] and [[3]]. *)
Definition hier_example : instance :=
  {| cutoff_names := ["cutoff_n_1"; "cutoff_n_2"; "cutoff_ext_3"];
     attrs := <["cutoff_n_1" := 5]> (<["cutoff_n_2" := 3]> (<["cutoff_ext_3" := 30]> ∅));
     hierarchical_diagonalization := true;
     system_hierarchy := [PList [PList [PInt 1]; PList [PInt 2]]; PList [PInt 3]];
     subsystem_trunc_dims := [PList [PInt 50; PList [PInt 6; PInt 6]]; PInt 6] |}.

(** The same hierarchy with the truncated dimensions [2**32] for both
    top-level groups. *)
Definition overflow_hier : instance :=
  {| cutoff_names := ["cutoff_n_1"; "cutoff_n_2"; "cutoff_ext_3"];
     attrs := <["cutoff_n_1" := 5]> (<["cutoff_n_2" := 3]> (<["cutoff_ext_3" := 30]> ∅));
     hierarchical_diagonalization := true;
     system_hierarchy := [PList [PList [PInt 1]; PList [PInt 2]]; PList [PInt 3]];
     subsystem_trunc_dims := [PList [PInt (2 ^ 32); PList [PInt 6; PInt 6]]; PInt (2 ^ 32)] |}.

End Dimension.

(* ===================================================================== *)
(** ** Eigensolver dispatch: [_evals_calc], [_esys_calc]
       (circuit.py, lines 1682-1721) *)
(* ===================================================================== *)

Module Eigen.

Inductive matrix_kind := sparse | dense.

Section Dispatch.
(** Eigenvalues live in a type [E] compared by [leb] (the order of
    floating point numbers, NaN aside); eigenvectors are columns of
    type [V]; [H] is the type of numeric Hamiltonians. *)
Context {E V H : Type}.
Variable leb : E -> E -> bool.

(** The scipy routines. [eigsh(..., which="SA")] and [eigh] return [k]
    eigenvalues together with a matrix whose column [i] belongs to
    eigenvalue [i]; the result is kept as the list of these pairs. *)
Variable eigsh : H -> nat -> list (E * V).
Variable eigh : H -> nat -> list (E * V).

(** Sorting by a key, ascending (insertion sort). *)
Fixpoint insert_by {A} (key : A -> E) (x : A) (l : list A) : list A :=
  match l with
  | [] => [x]
  | y :: r => if leb (key x) (key y) then x :: y :: r else y :: insert_by key x r
  end.

Definition sort_by {A} (key : A -> E) (l : list A) : list A :=
  fold_right (insert_by key) [] l.

(** [np.sort]: ascending. *)
Definition np_sort (l : list E) : list E := sort_by (fun e => e) l.

(** [a.argsort()]: the indices that sort [a]. *)
Definition argsort (a : list E) : list nat :=
  map snd (sort_by fst (combine a (seq 0 (length a)))).

(** [a[indices]] (for the columns of a matrix: [a[:, indices]]). *)
Definition take_indices {A} (a : list A) (indices : list nat) : result (list A) :=
  mapM (fun i => match nth_error a i with
                 | Some x => Ok x
                 | None => Raise IndexError
                 end) indices.

(** Modelled from the spec: [order_eigensystem] of
    [scqubits.utils.spectrum_utils] is not part of the sources at
    hand; the specification requires "eigenvalues ascending;
    eigenvectors, if requested, permuted to match": the eigenvalues are
    argsorted and both arrays are re-indexed by the sorting indices. *)
Definition order_eigensystem (evals : list E) (evecs : list V)
  : result (list E * list V) :=
  let ordered_evals_indices := argsort evals in
  let! evals' := take_indices evals ordered_evals_indices in
  let! evecs' := take_indices evecs ordered_evals_indices in
  Ok (evals', evecs').

(** Lines 1682-1699. [eigvalsh] and [eigsh(return_eigenvectors=False)]
    return the eigenvalues of the corresponding eigenpair routine. *)
Definition _evals_calc (type_of_matrices : matrix_kind) (hamiltonian_mat : H)
  (evals_count : nat) : list E :=
  let evals :=
    match type_of_matrices with
    | sparse => map fst (eigsh hamiltonian_mat evals_count)
    | dense => map fst (eigh hamiltonian_mat evals_count)
    end in
  np_sort evals.

(** Lines 1701-1721. *)
Definition _esys_calc (type_of_matrices : matrix_kind) (hamiltonian_mat : H)
  (evals_count : nat) : result (list E * list V) :=
  let esys :=
    match type_of_matrices with
    | sparse => eigsh hamiltonian_mat evals_count
    | dense => eigh hamiltonian_mat evals_count
    end in
  order_eigensystem (map fst esys) (map snd esys).

End Dispatch.

(** A stand-in solver returning the eigenpairs (3, v0), (1, v1), (2, v2)
    whatever the matrix. *)
Definition three_pairs (_ : unit) (_ : nat) : list (Z * nat) :=
  [(3%Z, 0%nat); (1%Z, 1%nat); (2%Z, 2%nat)].

End Eigen.

(* ===================================================================== *)
(** ** [Circuit.initiate_circuit] and the construction of the node tree
       (circuit.py, lines 2327-2478, 139-235, 405-410, 520-538) *)
(* ===================================================================== *)

Module Init.

(** A constructed [Subsystem]: its [truncated_dim], its
    [system_hierarchy] and its child nodes. *)
Inductive node :=
| Node (truncated_dim : pyval) (system_hierarchy : pyval) (subsystems : list node).

(** [t[i]] where [t] may be [None] or an int (neither is
    subscriptable). *)
Definition subscript_opt (t : option pyval) (i : nat) : result pyval :=
  match t with
  | Some (PList l) => Dimension.subscript l i
  | Some (PInt _) | None => Raise TypeError
  end.

(** Lines 528-533: the [truncated_dim] and [subsystem_trunc_dims]
    arguments of the constructor call for group [index]. *)
Definition node_args (trunc : option pyval) (index : nat)
  : result (pyval * option pyval) :=
  let! e := subscript_opt trunc index in
  match e with
  | PList l =>
      let! td := Dimension.subscript l 0 in
      let! std := Dimension.subscript l 1 in
      Ok (td, Some std)
  | PInt _ => Ok (e, None)
  end.

(** Lines 222-225 and 2454-2457. *)
Definition is_hierarchical (system_hierarchy : list pyval) : bool :=
  negb (pylist_eqb system_hierarchy [])
  && negb (pylist_eqb system_hierarchy (flatten_list_recursive system_hierarchy)).

(** [Subsystem.__init__] for the group [g]. The counter [built] counts
    the constructor calls that have returned. A hierarchical child runs
    [generate_subsystems] from [_initiate_subsystem]: the loop over the
    groups (lines 473-503) flattens every group first, then the
    constructor calls of lines 520-538 follow in order. *)
Fixpoint build_subsystem (g : pyval) (truncated_dim : pyval)
  (subsystem_trunc_dims : option pyval) (built : nat) {struct g}
  : result node * nat :=
  match g with
  | PInt _ => (Raise TypeError, built)
  | PList sh =>
      if is_hierarchical sh then
        match mapM flatten_arg sh with
        | Raise e => (Raise e, built)
        | Ok _ =>
            let '(r, built') :=
              (fix loop (gs : list pyval) (index : nat) (built : nat)
                 : result (list node) * nat :=
                 match gs with
                 | [] => (Ok [], built)
                 | g' :: rest =>
                     match node_args subsystem_trunc_dims index with
                     | Raise e => (Raise e, built)
                     | Ok (td, std) =>
                         match build_subsystem g' td std built with
                         | (Raise e, b) => (Raise e, b)
                         | (Ok n, b) =>
                             match loop rest (S index) b with
                             | (Raise e, b') => (Raise e, b')
                             | (Ok ns, b') => (Ok (n :: ns), b')
                             end
                         end
                     end
                 end) sh 0%nat built in
            match r with
            | Raise e => (Raise e, built')
            | Ok children => (Ok (Node truncated_dim g children), S built')
            end
        end
      else (Ok (Node truncated_dim g []), S built)
  end.

(** Lines 520-538: the constructor calls of [generate_subsystems]. *)
Fixpoint build_children (trunc : option pyval) (gs : list pyval) (index : nat)
  (built : nat) : result (list node) * nat :=
  match gs with
  | [] => (Ok [], built)
  | g' :: rest =>
      match node_args trunc index with
      | Raise e => (Raise e, built)
      | Ok (td, std) =>
          match build_subsystem g' td std built with
          | (Raise e, b) => (Raise e, b)
          | (Ok n, b) =>
              match build_children trunc rest (S index) b with
              | (Raise e, b') => (Raise e, b')
              | (Ok ns, b') => (Ok (n :: ns), b')
              end
          end
      end
  end.

(** [generate_subsystems] as far as the node tree is concerned. *)
Definition generate_subsystems (system_hierarchy : list pyval)
  (subsystem_trunc_dims : option pyval) (built : nat) : result (list node) * nat :=
  match mapM flatten_arg system_hierarchy with
  | Raise e => (Raise e, built)
  | Ok _ => build_children subsystem_trunc_dims system_hierarchy 0 built
  end.

(** The attributes of a [Circuit] that [initiate_circuit] touches. *)
Record circuit := {
  system_hierarchy : option (list pyval);
  subsystem_trunc_dims : option (list pyval);
  hierarchical_diagonalization : bool;
  subsystems : option (list node);
}.

(** Python [a or b] for an optional list: [None] and [[]] are falsy. *)
Definition py_or (a b : option (list pyval)) : option (list pyval) :=
  match a with
  | Some (_ :: _) => a
  | _ => b
  end.

(** The outcome of a call: what was raised (if anything), the instance
    afterwards, and the number of subsystem nodes built. *)
Record outcome := {
  raised : option exn;
  self_after : circuit;
  nodes_built : nat;
}.

(** Lines 2360-2365 and 2453-2478. *)
Definition initiate_circuit (self : circuit)
  (system_hierarchy_arg subsystem_trunc_dims_arg : option (list pyval))
  (built : nat) : outcome :=
  let system_hierarchy := py_or system_hierarchy_arg (system_hierarchy self) in
  let subsystem_trunc_dims := py_or subsystem_trunc_dims_arg (subsystem_trunc_dims self) in
  let hd :=
    match system_hierarchy with
    | Some sh => is_hierarchical sh
    | None => false
    end in
  let self1 :=
    {| system_hierarchy := Init.system_hierarchy self;
       subsystem_trunc_dims := Init.subsystem_trunc_dims self;
       hierarchical_diagonalization := hd;
       subsystems := subsystems self |} in
  if negb hd then
    {| raised := None; self_after := self1; nodes_built := built |}
  else
    let self2 :=
      {| system_hierarchy := system_hierarchy;
         subsystem_trunc_dims := Init.subsystem_trunc_dims self;
         hierarchical_diagonalization := hd;
         subsystems := subsystems self |} in
    match subsystem_trunc_dims with
    | None => {| raised := Some ConfigError; self_after := self2; nodes_built := built |}
    | Some td =>
        let self3 :=
          {| system_hierarchy := system_hierarchy;
             subsystem_trunc_dims := Some td;
             hierarchical_diagonalization := hd;
             subsystems := subsystems self |} in
        match generate_subsystems (default [] system_hierarchy) (Some (PList td)) built with
        | (Raise e, b) => {| raised := Some e; self_after := self3; nodes_built := b |}
        | (Ok ns, b) =>
            {| raised := None;
               self_after :=
                 {| system_hierarchy := system_hierarchy;
                    subsystem_trunc_dims := Some td;
                    hierarchical_diagonalization := hd;
                    subsystems := Some ns |};
               nodes_built := b |}
        end
    end.

(** A freshly constructed [Circuit] (lines 2281-2287 with the defaults). *)
Definition fresh : circuit :=
  {| system_hierarchy := None;
     subsystem_trunc_dims := None;
     hierarchical_diagonalization := false;
     subsystems := None |}.

(** "A truncated dimension is supplied for every group": the
    specification has at least as many entries as there are groups. *)
Definition covers_groups (system_hierarchy subsystem_trunc_dims : list pyval) : bool :=
  (length system_hierarchy <=? length subsystem_trunc_dims)%nat.

End Init.

(* ===================================================================== *)
(** ** The flux-offset shift of
       [Subsystem.generate_hamiltonian_sym_for_numerics]
       (circuit.py, lines 732-786) *)
(* ===================================================================== *)

Module Canon.
Import Names.
Local Open Scope string_scope.

(** sympy expressions over named symbols. *)
Inductive sexpr :=
| Num (z : Z)
| Sym (s : string)
| Add (a b : sexpr)
| Mul (a b : sexpr)
| Pow (a : sexpr) (n : nat)
| Cos (a : sexpr)
| Sin (a : sexpr).

(** [e.subs(x, by)] / [e.replace(x, by)] for a symbol [x]. *)
Fixpoint subs (x : string) (by_ : sexpr) (e : sexpr) : sexpr :=
  match e with
  | Num z => Num z
  | Sym s => if String.eqb s x then by_ else Sym s
  | Add a b => Add (subs x by_ a) (subs x by_ b)
  | Mul a b => Mul (subs x by_ a) (subs x by_ b)
  | Pow a n => Pow (subs x by_ a) n
  | Cos a => Cos (subs x by_ a)
  | Sin a => Sin (subs x by_ a)
  end.

(** [e.subs([(x1, v1), (x2, v2), ...])]: one pair after the other. *)
Definition subs_list (l : list (string * sexpr)) (e : sexpr) : sexpr :=
  fold_left (fun acc p => subs (fst p) (snd p) acc) l e.

(** The value of an expression once every symbol has a real value. *)
Fixpoint eval (env : string -> R) (e : sexpr) : R :=
  match e with
  | Num z => IZR z
  | Sym s => env s
  | Add a b => (eval env a + eval env b)%R
  | Mul a b => (eval env a * eval env b)%R
  | Pow a n => (eval env a ^ n)%R
  | Cos a => cos (eval env a)
  | Sin a => sin (eval env a)
  end.

Fixpoint occurs (x : string) (e : sexpr) : bool :=
  match e with
  | Num _ => false
  | Sym s => String.eqb s x
  | Add a b | Mul a b => occurs x a || occurs x b
  | Pow a _ | Cos a | Sin a => occurs x a
  end.

(** [e != 0] *)
Definition nonzero (e : sexpr) : bool :=
  match e with
  | Num 0 => false
  | _ => true
  end.

Definition theta (var_index : nat) : string := "θ" ++ str var_index.
Definition delta_theta (var_index : nat) : string := "Δθ" ++ str var_index.

(** A Python dict keyed by variable index, in insertion order. *)
Fixpoint dict_set {A} (d : list (nat * A)) (k : nat) (v : A) : list (nat * A) :=
  match d with
  | [] => [(k, v)]
  | (k', v') :: r => if (k' =? k)%nat then (k, v) :: r else (k', v') :: dict_set r k v
  end.

Fixpoint dict_find {A} (d : list (nat * A)) (k : nat) : option A :=
  match d with
  | [] => None
  | (k', v) :: r => if (k' =? k)%nat then Some v else dict_find r k
  end.

Section Sympy.
(** The sympy routines used by the shift: [expand], [coeff],
    [linsolve] (its result is the list of solution tuples, the empty
    list for [EmptySet]) and the constant term
    [as_coefficients_dict()[1]]. *)
Variable expand : sexpr -> sexpr.
Variable coeff : sexpr -> string -> sexpr.
Variable linsolve : list sexpr -> list string -> list (list sexpr).
Variable constant_term : sexpr -> sexpr.

(** Lines 738-746: give every extended variable with a linear term a
    shift symbol. *)
Definition introduce_shifts (extended : list nat) (H : sexpr)
  : list (nat * string) * sexpr :=
  fold_left
    (fun acc var_index =>
       if nonzero (coeff (snd acc) (theta var_index)) then
         (dict_set (fst acc) var_index (delta_theta var_index),
          subs (theta var_index)
            (Add (Sym (theta var_index)) (Sym (delta_theta var_index)))
            (snd acc))
       else acc)
    extended ([], H).

(** Lines 749-754. *)
Definition flux_shift_equations (extended : list nat)
  (flux_shift_vars : list (nat * string)) (H : sexpr) : list sexpr :=
  map (fun kv =>
         subs_list (map (fun i => (theta i, Num 0)) extended)
           (coeff H (theta (fst kv))))
    flux_shift_vars.

(** Lines 760-763. *)
Definition first_solution (flux_shifts : list (list sexpr)) : list sexpr :=
  match flux_shifts with
  | [] => []
  | sol :: _ => sol
  end.

(** Line 765: [dict(zip(keys, values))]. *)
Definition dict_zip {A} (keys : list nat) (values : list A) : list (nat * A) :=
  fold_left (fun d kv => dict_set d (fst kv) (snd kv)) (combine keys values) [].

(** Lines 777-783: every extended variable without an entry gets the
    shift 0. *)
Definition fill_zero_shifts (extended : list nat) (d : list (nat * sexpr))
  : list (nat * sexpr) :=
  fold_left
    (fun acc var_index =>
       match dict_find d var_index with
       | Some _ => acc
       | None => dict_set acc var_index (Num 0)
       end)
    extended d.

Definition Sub (a b : sexpr) : sexpr := Add a (Mul (Num (-1)) b).

(** Lines 767-775: substitute the solved shifts, then set every
    remaining shift symbol to 0. *)
Definition apply_shifts (flux_shift_vars : list (nat * string))
  (flux_shifts_dict : list (nat * sexpr)) (H : sexpr) : sexpr :=
  let H := subs_list
             (map (fun kv => (delta_theta (fst kv), snd kv)) flux_shifts_dict) H in
  subs_list (map (fun kv => (snd kv, Num 0)) flux_shift_vars) H.

(** Lines 732-786. Returns the Hamiltonian and [flux_shifts_dict]. *)
Definition shift_fluxes (extended : list nat) (hamiltonian_symbolic : sexpr)
  : result (sexpr * list (nat * sexpr)) :=
  let H := expand hamiltonian_symbolic in
  let flux_shift_vars := fst (introduce_shifts extended H) in
  let H := snd (introduce_shifts extended H) in
  let H := expand H in
  let flux_shift_equations := flux_shift_equations extended flux_shift_vars H in
  let flux_shifts := linsolve flux_shift_equations (map snd flux_shift_vars) in
  let flux_shifts := first_solution flux_shifts in
  let flux_shifts_dict := dict_zip (map fst flux_shift_vars) flux_shifts in
  let H := apply_shifts flux_shift_vars flux_shifts_dict H in
  let flux_shifts_dict := fill_zero_shifts extended flux_shifts_dict in
  let H := Sub H (constant_term H) in
  let H := expand H in
  Ok (H, flux_shifts_dict).

(** The Hamiltonian that reaches [linsolve], and the system handed to
    it. *)
Definition shifted_hamiltonian (extended : list nat) (hamiltonian_symbolic : sexpr)
  : sexpr :=
  expand (snd (introduce_shifts extended (expand hamiltonian_symbolic))).

Definition shift_system (extended : list nat) (hamiltonian_symbolic : sexpr)
  : list sexpr * list string :=
  let vars := fst (introduce_shifts extended (expand hamiltonian_symbolic)) in
  (flux_shift_equations extended vars (shifted_hamiltonian extended hamiltonian_symbolic),
   map snd vars).

End Sympy.

(** [env] with the symbols [xs] set to 0. *)
Definition zero_env (xs : list string) (env : string -> R) : string -> R :=
  fun s => if existsb (String.eqb s) xs then 0%R else env s.

(** A stand-in for sympy on the example below: [expand] leaves the
    expression alone, [coeff] finds a linear term for every symbol and
    [linsolve] finds no solution. *)
Definition expand_id (e : sexpr) : sexpr := e.
Definition coeff_one (e : sexpr) (x : string) : sexpr := Num 1.
Definition linsolve_none (eqs : list sexpr) (vars : list string) : list (list sexpr) := [].
Definition constant_zero (e : sexpr) : sexpr := Num 0.

(** [θ1 + θ1 * θ2] *)
Definition H_linear : sexpr := Add (Sym "θ1") (Mul (Sym "θ1") (Sym "θ2")).

End Canon.

(* ===================================================================== *)
(** ** [SpectrumLookup] (spec_lookup.py, lines 45-308): translating
       between bare product-state labels and dressed-state indices *)
(* ===================================================================== *)

Module SpecLookup.

(** The attributes of the [HilbertSpace] collaborator that the lookup
    reads. *)
Record hilbertspace := {
  subsystem_dims : list nat;
  subsystem_count : nat;
  dimension : nat;
}.

(** [itertools.product] of the ranges: every tuple with one member from each
    range, the last position running fastest. *)
Fixpoint itertools_product (ranges : list (list nat)) : list (list nat) :=
  match ranges with
  | [] => [[]]
  | r :: rest => flat_map (fun x => map (cons x) (itertools_product rest)) r
  end.

(** Lines 88-106. *)
Definition _generate_bare_labels (hs : hilbertspace) : result (list (list nat)) :=
  let dim_list := subsystem_dims hs in
  let subsys_count := subsystem_count hs in
  let! basis_label_ranges :=
    mapM (fun subsys_index =>
            match nth_error dim_list subsys_index with
            | Some d => Ok (seq 0 d)
            | None => Raise IndexError
            end)
      (seq 0 subsys_count) in
  Ok (itertools_product basis_label_ranges).

(** [l.index(x)]: the first position holding [x]; [None] stands for the
    [ValueError] raised when there is none. *)
Fixpoint list_index {A} `{EqDecision A} (x : A) (l : list A) : option nat :=
  match l with
  | [] => None
  | y :: r => if decide (y = x) then Some 0%nat else option_map S (list_index x r)
  end.

(** [l[i]] *)
Definition item {A} (l : list A) (i : nat) : result A :=
  match nth_error l i with
  | Some x => Ok x
  | None => Raise IndexError
  end.

Section Lookup.
(** Amplitudes live in a type [A] with modulus [np_abs] (floating point
    numbers are idealised as rationals); energies in a type [En]. *)
Context {A En : Type}.
Variable np_abs : A -> Q.

(** [SpectrumData]: the dressed state table (one overlap matrix per
    parameter value, kept as the list of its rows: row [j] holds the
    components of dressed state [j]) and the dressed energies.
    [convert_esys_to_ndarray] only changes the container. *)
Record spectrum_data := {
  state_table : list (list (list A));
  energy_table : list (list En);
  param_count : nat;
}.

(** [a.argmax()]: the first position of the largest member; an empty
    array raises [ValueError]. *)
Fixpoint argmax_from (best_pos : nat) (best : Q) (pos : nat) (l : list Q) : nat :=
  match l with
  | [] => best_pos
  | x :: r =>
      if Qle_bool x best then argmax_from best_pos best (S pos) r
      else argmax_from pos x (S pos) r
  end.

Definition argmax (l : list Q) : result nat :=
  match l with
  | [] => Raise ValueError
  | x :: r => Ok (argmax_from 0 x 1 r)
  end.

(** [overlap_matrix[:, bare_basis_index]] *)
Definition column (overlap_matrix : list (list A)) (bare_basis_index : nat)
  : result (list A) :=
  mapM (fun row => item row bare_basis_index) overlap_matrix.

(** Lines 125-149, for one [bare_basis_index]. *)
Definition single_assignment (overlap_matrix : list (list A)) (bare_basis_index : nat)
  : result (option nat) :=
  let! col := column overlap_matrix bare_basis_index in
  let! max_position := argmax (map np_abs col) in
  let! a := item col max_position in
  let max_overlap := np_abs a in
  if negb (Qle_bool (1 # 2) max_overlap) then Ok None else Ok (Some max_position).

(** Lines 125-149. *)
Definition _generate_single_mapping (hs : hilbertspace) (dressed_specdata : spectrum_data)
  (param_index : nat) : result (list (option nat)) :=
  let! overlap_matrix := item (state_table dressed_specdata) param_index in
  mapM (single_assignment overlap_matrix) (seq 0 (dimension hs)).

(** What an entry [r] of the mapping says about the bare basis index [b]:
    an int names a dressed state with overlap at least 1/2 that no other
    dressed state exceeds; [None] says that no dressed state reaches
    1/2. *)
Definition assignment_ok (overlap_matrix : list (list A)) (b : nat)
  (r : option nat) : Prop :=
  match r with
  | Some j =>
      exists row a,
        nth_error overlap_matrix j = Some row /\ nth_error row b = Some a
        /\ (1 # 2 <= np_abs a)%Q
        /\ forall j' row' a',
             nth_error overlap_matrix j' = Some row' -> nth_error row' b = Some a' ->
             (np_abs a' <= np_abs a)%Q
  | None =>
      forall j' row' a',
        nth_error overlap_matrix j' = Some row' -> nth_error row' b = Some a' ->
        (np_abs a' < 1 # 2)%Q
  end.

(** Lines 108-123. *)
Definition _generate_mappings (hs : hilbertspace) (dressed_specdata : spectrum_data)
  : result (list (list (option nat))) :=
  mapM (_generate_single_mapping hs dressed_specdata)
    (seq 0 (param_count dressed_specdata)).

(** The state of a [SpectrumLookup] (lines 63-86). *)
Record spectrum_lookup := {
  _dressed_specdata : spectrum_data;
  _canonical_bare_labels : list (list nat);
  _dressed_indices : list (list (option nat));
}.

(** Lines 63-86: the constructor. *)
Definition init (hs : hilbertspace) (dressed_specdata : spectrum_data)
  : result spectrum_lookup :=
  let! labels := _generate_bare_labels hs in
  let! mappings := _generate_mappings hs dressed_specdata in
  Ok {| _dressed_specdata := dressed_specdata;
        _canonical_bare_labels := labels;
        _dressed_indices := mappings |}.

(** Lines 152-171. The decorator [check_sync_status] only issues a
    warning. *)
Definition dressed_index (self : spectrum_lookup) (bare_labels : list nat)
  (param_index : nat) : result (option nat) :=
  match list_index bare_labels (_canonical_bare_labels self) with
  | None => Ok None
  | Some lookup_position =>
      let! mapping := item (_dressed_indices self) param_index in
      item mapping lookup_position
  end.

(** Lines 174-188. The argument may be an int or [None]. *)
Definition bare_index (self : spectrum_lookup) (dressed_index : option nat)
  (param_index : nat) : result (option (list nat)) :=
  let! mapping := item (_dressed_indices self) param_index in
  match list_index dressed_index mapping with
  | None => Ok None
  | Some lookup_position =>
      let! basis_labels := item (_canonical_bare_labels self) lookup_position in
      Ok (Some basis_labels)
  end.

(** Lines 243-258. *)
Definition energy_dressed_index (self : spectrum_lookup) (dressed_index : nat)
  (param_index : nat) : result En :=
  let! energies := item (energy_table (_dressed_specdata self)) param_index in
  item energies dressed_index.

(** Lines 222-240. *)
Definition energy_bare_index (self : spectrum_lookup) (bare_tuple : list nat)
  (param_index : nat) : result (option En) :=
  let! dressed_index := dressed_index self bare_tuple param_index in
  match dressed_index with
  | None => Ok None
  | Some j =>
      let! energies := item (energy_table (_dressed_specdata self)) param_index in
      let! e := item energies j in
      Ok (Some e)
  end.

End Lookup.

(** The row-major (mixed radix) number of a label: the last position
    counts units, the one before it multiples of the last dimension, and
    so on. *)
Fixpoint label_rank (dims label : list nat) : nat :=
  match dims, label with
  | d :: ds, x :: xs => (x * fold_right Nat.mul 1 ds + label_rank ds xs)%nat
  | _, _ => 0%nat
  end.

(** Two subsystems of dimensions 2 and 3. *)
Definition hs_2_3 : hilbertspace :=
  {| subsystem_dims := [2; 3]%nat; subsystem_count := 2; dimension := 6 |}.

End SpecLookup.


Module SpecLookupExamples.
Import SpecLookup.

(** Two subsystems of dimension 2. *)
Definition hs_2_2 : hilbertspace :=
  {| subsystem_dims := [2; 2]%nat; subsystem_count := 2; dimension := 4 |}.

(** Dressed data for [hs_2_2] at one parameter value: dressed state 0 is
    bare state (0,0), dressed state 1 is close to (1,0), dressed state 2
    close to (0,1), and no dressed state reaches overlap 1/2 with (1,1). *)
Definition data_2_2 : @spectrum_data Q Z :=
  {| state_table :=
       [[[1; 0; 0; 0];
         [0; 1 # 10; 9 # 10; 2 # 5];
         [0; - (9 # 10); 1 # 10; 2 # 5];
         [0; 0; 0; 2 # 5]]]%Q;
     energy_table := [[10; 20; 30; 40]]%Z;
     param_count := 1 |}.

(** The lookup the constructor builds from them. *)
Definition lookup_2_2 : @spectrum_lookup Q Z :=
  {| _dressed_specdata := data_2_2;
     _canonical_bare_labels := [[0; 0]; [0; 1]; [1; 0]; [1; 1]]%nat;
     _dressed_indices := [[Some 0; Some 2; Some 1; None]]%nat |}.

End SpecLookupExamples.


(* ===================================================================== *)
(** ** [Subsystem._set_vars] (circuit.py, lines 642-724) and
       [Subsystem.matrix_power_sparse] (lines 1532-1537) *)
(* ===================================================================== *)

Module Vars.
Import Names.
Local Open Scope string_scope.

Inductive basis := discretized | harmonic.

(** [[sm.symbols(prefix + str(i)) for i in indices]] *)
Definition symbols (prefix : string) (indices : list nat) : list string :=
  map (fun i => prefix ++ str i) indices.

(** The attribute [self.vars]: the symbols by category and kind. *)
Record vars := {
  periodic : list (string * list string);
  identity : list string;
  extended : list (string * list string);
}.

(** Lines 642-724. *)
Definition _set_vars (ext_basis : basis) (periodic_indices extended_indices : list nat)
  : vars :=
  {| periodic :=
       [("sin", symbols "θs" periodic_indices);
        ("cos", symbols "θc" periodic_indices);
        ("number", symbols "n" periodic_indices)];
     identity := ["I"];
     extended :=
       match ext_basis with
       | discretized =>
           [("position", symbols "θ" extended_indices);
            ("momentum", symbols "Q" extended_indices);
            ("momentum_squared", symbols "Qs" extended_indices);
            ("sin", symbols "θs" extended_indices);
            ("cos", symbols "θc" extended_indices)]
       | harmonic =>
           [("annihilation", symbols "a" extended_indices);
            ("creation", symbols "ad" extended_indices);
            ("number", symbols "Nh" extended_indices);
            ("position", symbols "θ" extended_indices);
            ("momentum", symbols "Q" extended_indices);
            ("sin", symbols "θs" extended_indices);
            ("cos", symbols "θc" extended_indices)]
       end |}.

(** The string is empty or its last character is not a decimal digit. *)
Fixpoint no_trailing_digit (s : string) : bool :=
  match s with
  | EmptyString => true
  | String c EmptyString => negb (is_digit c)
  | String _ r => no_trailing_digit r
  end.

(** The string is empty or ends in an ASCII character (a byte below
    128) that is not a decimal digit. *)
Fixpoint ends_in_ascii_nondigit (s : string) : bool :=
  match s with
  | EmptyString => true
  | String c EmptyString => (nat_of_ascii c <? 128)%nat && negb (is_digit c)
  | String _ r => ends_in_ascii_nondigit r
  end.

Section MatrixPower.
(** Matrices of some type [M] with their product [@]. *)
Context {M : Type}.
Variable matmul : M -> M -> M.

(** Lines 1532-1537: [res = x.copy()], then [n - 1] times
    [res = res @ x]. *)
Definition matrix_power_sparse (x : M) (n : Z) : M :=
  fold_left (fun res _ => matmul res x) (seq 0 (Z.to_nat (n - 1))) x.

End MatrixPower.

End Vars.


(* ===================================================================== *)
(** ** Hierarchies, their templates and the trees built from them *)
(* ===================================================================== *)

Module Hierarchy.
Import Init.

(** The group is a list without a nested list:
    [g == flatten_list_recursive(g)]. *)
Definition flat (g : pyval) : bool :=
  match g with
  | PList l => flat_group l
  | PInt _ => false
  end.

(** The attributes [truncated_dim], [system_hierarchy] and [subsystems]
    of a constructed [Subsystem]. *)
Definition truncated_dim (n : node) : pyval :=
  match n with Node td _ _ => td end.

Definition node_hierarchy (n : node) : pyval :=
  match n with Node _ sh _ => sh end.

Definition node_subsystems (n : node) : list node :=
  match n with Node _ _ ns => ns end.

(** What [generate_subsystems] builds from a template: one node per
    group, carrying the group and its template dimension. *)
Definition built_from (i c : Z) (g : pyval) (n : node) : Prop :=
  node_hierarchy n = g
  /\ truncated_dim n = PInt (if flat g then i else c)
  /\ length (node_subsystems n) = (if flat g then 0%nat
                                   else match g with
                                        | PList l => length l
                                        | PInt _ => 0%nat
                                        end).

End Hierarchy.


(* ===================================================================== *)
(** ** The two tests of [generate_subsystems] on a term
       (circuit.py, lines 493-500) *)
(* ===================================================================== *)

Module Buckets.
Import Partition.

(** Line 493: [len(set(term_var_categories) - set(subsys_index_list)) == 0]. *)
Definition within_group (param_vars : list symbol) (subsys_index_list : list pyval)
  (t : term) : bool :=
  (length (set_minus (term_var_categories param_vars t) subsys_index_list) =? 0)%nat.

(** Lines 496-499: some variable of the term lies outside the group and
    some inside. *)
Definition couples_group (param_vars : list symbol) (subsys_index_list : list pyval)
  (t : term) : bool :=
  (0 <? length (set_minus (term_var_categories param_vars t) subsys_index_list))%nat
  && (0 <? length (set_inter (term_var_categories param_vars t) subsys_index_list))%nat.

End Buckets.

(* ===================================================================== *)
(** ** [Subsystem._kron_operator] (circuit.py, lines 871-950) *)
(* ===================================================================== *)

Module Kron.
Import Names Dimension Operators.
Local Open Scope string_scope.

(** [list.sort()] on ints: ascending. *)
Fixpoint insert_int (x : nat) (l : list nat) : list nat :=
  match l with
  | [] => [x]
  | y :: r => if (x <=? y)%nat then x :: y :: r else y :: insert_int x r
  end.

Definition sort_ints (l : list nat) : list nat := fold_right insert_int [] l.

(** Lines 900-917: the dimension of every variable, keyed by variable
    index. [get_cutoffs] lists the cutoffs in the order of their sorted
    attribute names; [zip] pairs them with the variable indices in the
    order of [var_categories]. *)
Definition cutoffs_index_dict (self : instance) (periodic extended : list nat)
  : result (list (nat * Z)) :=
  let! cutoff_dict := get_cutoffs self in
  let! cutoff_names :=
    mapM
      (fun cutoff_type =>
         if str_contains "cutoff_n" cutoff_type then
           let! ks := dict_get cutoff_dict cutoff_type in
           Ok (map (fun k => 2 * k + 1)%Z ks)
         else if str_contains "cutoff_ext" cutoff_type then
           let! ks := dict_get cutoff_dict cutoff_type in
           Ok ks
         else Ok [])
      (map fst cutoff_dict) in
  let cutoffs := concat cutoff_names in
  Ok (Canon.dict_zip (periodic ++ extended) cutoffs).

Section Wrap.
(** Matrix entries live in a type [A] with its 0, 1 and product. *)
Context {A : Type}.
Variables (zero one : A) (mul : A -> A -> A).

(** [sparse.identity(n)]; a negative size is refused. *)
Definition identity (n : Z) : result (matrix A) :=
  if (n <? 0)%Z then Raise ValueError
  else Ok (Mat (Z.to_nat n) (fun i j => if (i =? j)%nat then one else zero)).

(** [sparse.kron(a, b)]: the block matrix of the blocks [a[i, j] * b]. *)
Definition kron (a b : matrix A) : matrix A :=
  Mat (dim a * dim b)
    (fun i j =>
       mul (entry a (i / dim b) (j / dim b)) (entry b (i mod dim b) (j mod dim b))).

(** The outcome of a call: the wrapped operator, one of the exceptions
    of [exn], or the [UnboundLocalError] of reading [Identity_l] or
    [Identity_r] when the [if] that assigns it was not taken. *)
Inductive wrapped :=
| Wrapped (m : matrix A)
| Raised (e : exn)
| RaisedUnboundLocalError.

(** Lines 930-934 and 935-939: one of the two identities; [bound] is
    the test guarding the assignment and [slice] cuts the dimensions of
    the variables before resp. after the position of [index]. *)
Definition side_identity (bound : bool) (var_index_list : list nat) (index : nat)
  (slice : nat -> list Z) : result (option (matrix A)) :=
  if bound then
    match SpecLookup.list_index index var_index_list with
    | None => Raise ValueError
    | Some position =>
        let! I := identity (np_prod (slice position)) in
        Ok (Some I)
    end
  else Ok None.

(** Lines 871-950. [_change_sparsity] and the matrix format only change
    the storage. *)
Definition _kron_operator (self : instance) (periodic extended : list nat)
  (operator : matrix A) (index : nat) : wrapped :=
  let var_index_list := sort_ints (periodic ++ extended) in
  match cutoffs_index_dict self periodic extended with
  | Raise e => Raised e
  | Ok cutoffs_index_dict =>
      match mapM (fun i => match Canon.dict_find cutoffs_index_dict i with
                           | Some c => Ok c
                           | None => Raise KeyError
                           end) var_index_list with
      | Raise e => Raised e
      | Ok cutoff_names =>
          if (1 <? length var_index_list)%nat then
            let first := hd 0%nat var_index_list in
            let last := List.last var_index_list 0%nat in
            match side_identity (first <? index)%nat var_index_list index
                    (fun position => firstn position cutoff_names) with
            | Raise e => Raised e
            | Ok Identity_l =>
                match side_identity (index <? last)%nat var_index_list index
                        (fun position => skipn (position + 1) cutoff_names) with
                | Raise e => Raised e
                | Ok Identity_r =>
                    if (index =? first)%nat then
                      match Identity_r with
                      | Some Ir => Wrapped (kron operator Ir)
                      | None => RaisedUnboundLocalError
                      end
                    else if (index =? last)%nat then
                      match Identity_l with
                      | Some Il => Wrapped (kron Il operator)
                      | None => RaisedUnboundLocalError
                      end
                    else
                      match Identity_l, Identity_r with
                      | Some Il, Some Ir => Wrapped (kron (kron Il operator) Ir)
                      | _, _ => RaisedUnboundLocalError
                      end
                end
            end
          else Wrapped operator
      end
  end.

End Wrap.

(** Periodic variable 1 (cutoff 1, dimension 3), extended variables 2
    and 3 (cutoffs 2 and 4). *)
Definition three_variables : instance :=
  {| cutoff_names := ["cutoff_n_1"; "cutoff_ext_2"; "cutoff_ext_3"];
     attrs := <["cutoff_n_1" := 1%Z]>
                (<["cutoff_ext_2" := 2%Z]> (<["cutoff_ext_3" := 4%Z]> ∅));
     hierarchical_diagonalization := false;
     system_hierarchy := [];
     subsystem_trunc_dims := [] |}.

(** A 2 x 2 integer matrix with the entries 1, 2, 3, 4. *)
Definition two_by_two : matrix Z :=
  Mat 2 (fun i j => (Z.of_nat (2 * i + j) + 1)%Z).

(** The dimensions of [three_variables]. *)
Definition three_cutoff_n (i : nat) : Z := 1.
Definition three_cutoff_ext (i : nat) : Z := if (i =? 2)%nat then 2 else 4.

(** Periodic variables 2 and 10 with the cutoffs [a] and [b]. *)
Definition two_and_ten (a b : Z) : instance :=
  {| cutoff_names := ["cutoff_n_2"; "cutoff_n_10"];
     attrs := <["cutoff_n_2" := a]> (<["cutoff_n_10" := b]> ∅);
     hierarchical_diagonalization := false;
     system_hierarchy := [];
     subsystem_trunc_dims := [] |}.

End Kron.

(* ===================================================================== *)
(** * Properties *)
(* ===================================================================== *)

(** ** Nested lists *)

Module PyFacts.

Lemma flatten_val_leaves (v : pyval) :
  Forall (fun x => is_list x = false) (flatten_val v).
Proof.
  induction v as [n | l IH] using pyval_nested_ind; simpl.
  - repeat constructor.
  - induction IH as [| x r Hx _ IHr]; simpl; [constructor |].
    apply Forall_app; split; assumption.
Qed.

Lemma flatten_leaves (l : list pyval) :
  Forall (fun x => is_list x = false) (flatten_list_recursive l).
Proof. exact (flatten_val_leaves (PList l)). Qed.

(** [l == flatten_list_recursive(l)] holds exactly for the lists
    without a nested list. *)
Lemma pylist_eqb_flatten (l : list pyval) :
  pylist_eqb l (flatten_list_recursive l) = flat_group l.
Proof.
  induction l as [| x r IH]; [reflexivity |].
  destruct x as [n | m].
  - change (flatten_list_recursive (PInt n :: r))
      with (PInt n :: flatten_list_recursive r).
    simpl. rewrite Z.eqb_refl, IH. reflexivity.
  - change (flatten_list_recursive (PList m :: r))
      with (flatten_list_recursive m ++ flatten_list_recursive r).
    simpl flat_group.
    pose proof (Forall_app_2 _ _ _ (flatten_leaves m) (flatten_leaves r)) as HF.
    destruct (flatten_list_recursive m ++ flatten_list_recursive r) as [| y ys];
      [reflexivity |].
    apply Forall_cons_1 in HF as [Hy _].
    destruct y; [reflexivity | discriminate].
Qed.

Lemma py_in_app (v : Z) (a b : list pyval) :
  py_in v (a ++ b) = py_in v a || py_in v b.
Proof. apply existsb_app. Qed.

Lemma py_in_flatten_val (v : Z) (g : pyval) :
  py_in v (flatten_val g) = has_leaf v g.
Proof.
  induction g as [n | l IH] using pyval_nested_ind.
  - simpl. rewrite orb_false_r. reflexivity.
  - simpl. induction IH as [| x r Hx _ IHr]; [reflexivity |].
    simpl. rewrite py_in_app, Hx, IHr. reflexivity.
Qed.

Lemma py_in_flatten (v : Z) (l : list pyval) :
  py_in v (flatten_list_recursive l) = has_leaf v (PList l).
Proof. exact (py_in_flatten_val v (PList l)). Qed.

Lemma mapM_ext {A B} (f g : A -> result B) (l : list A) :
  (forall x, In x l -> f x = g x) -> mapM f l = mapM g l.
Proof.
  induction l as [| x r IH]; intros H; [reflexivity |].
  simpl. rewrite (H x (or_introl eq_refl)), IH; [reflexivity |].
  intros y Hy. apply H. right. exact Hy.
Qed.

Lemma mapM_pure {A B} (f : A -> result B) (g : A -> B) (l : list A) :
  (forall x, In x l -> f x = Ok (g x)) -> mapM f l = Ok (map g l).
Proof.
  induction l as [| x r IH]; intros H; [reflexivity |].
  simpl. rewrite (H x (or_introl eq_refl)), IH; [reflexivity |].
  intros y Hy. apply H. right. exact Hy.
Qed.

End PyFacts.

(** ** [truncation_template] *)

Module TemplateFacts.
Import Template PyFacts.

(** The inner loop of [template_entry] is the recursive call with the
    default dimensions. *)
Lemma template_entry_nested (l : list pyval) (i c : Z) :
  template_entry (PList l) i c =
    if pylist_eqb l (flatten_list_recursive l) then Ok (PInt i)
    else let! inner := truncation_template l 6 50 in
         Ok (PList [PInt c; PList inner]).
Proof.
  simpl. destruct (pylist_eqb l (flatten_list_recursive l)); [reflexivity |].
  unfold truncation_template. f_equal.
  induction l as [| x r IH]; [reflexivity |].
  simpl. rewrite IH. reflexivity.
Qed.

(** C9. For every hierarchy and every choice of the two dimensions, the
    template holds [individual_trunc_dim] for each flat top-level group
    and [[combined_trunc_dim, inner]] for each nested one, where [inner]
    is the template of the group computed with the defaults 6 and 50,
    whatever dimensions the caller passed. *)
Theorem truncation_template_inner_defaults
  (system_hierarchy : list pyval) (individual_trunc_dim combined_trunc_dim : Z) :
  truncation_template system_hierarchy individual_trunc_dim combined_trunc_dim =
    mapM (fun g =>
            match g with
            | PInt _ => Raise TypeError
            | PList l =>
                if flat_group l then Ok (PInt individual_trunc_dim)
                else let! inner := truncation_template l 6 50 in
                     Ok (PList [PInt combined_trunc_dim; PList inner])
            end) system_hierarchy.
Proof.
  unfold truncation_template at 1. apply mapM_ext. intros g _.
  destruct g as [n | l]; [reflexivity |].
  rewrite template_entry_nested, pylist_eqb_flatten. reflexivity.
Qed.

(** The inner template of a nested group is the same for every choice of
    the two dimensions. *)
Lemma template_inner_independent (l inner : list pyval) (i c i' c' : Z) :
  flat_group l = false ->
  template_entry (PList l) i c = Ok (PList [PInt c; PList inner]) ->
  template_entry (PList l) i' c' = Ok (PList [PInt c'; PList inner]).
Proof.
  intros Hnested. rewrite !template_entry_nested, pylist_eqb_flatten, Hnested.
  destruct (truncation_template l 6 50) as [t | e]; simpl; [| discriminate].
  intros H. inversion H. reflexivity.
Qed.

(** [truncation_template([[1], [[2], [3]]], 7, 99)] *)
Example template_two_levels :
  truncation_template
    [PList [PInt 1]; PList [PList [PInt 2]; PList [PInt 3]]] 7 99
  = Ok [PInt 7; PList [PInt 99; PList [PInt 6; PInt 6]]].
Proof. reflexivity. Qed.

(** Three levels: the second level gets 50, not the 99 passed in. *)
Example template_three_levels :
  truncation_template
    [PList [PList [PInt 1]; PList [PList [PInt 2]; PList [PInt 3]]]] 7 99
  = Ok [PList [PInt 99;
               PList [PInt 6; PList [PInt 50; PList [PInt 6; PInt 6]]]]].
Proof. reflexivity. Qed.

End TemplateFacts.

(** ** [get_subsystem_index] *)

Module SubsystemIndexFacts.
Import SubsystemIndex PyFacts.

Lemma get_subsystem_index_from_none (system_hierarchy : list pyval)
  (var_index : Z) (index : nat) :
  Forall (fun g => is_list g = true /\ has_leaf var_index g = false)
    system_hierarchy ->
  get_subsystem_index_from index system_hierarchy var_index = Ok None.
Proof.
  intros H. revert index.
  induction H as [| g rest [Hl Hg] _ IH]; intros index; [reflexivity |].
  destruct g as [n | l]; [discriminate |].
  simpl. rewrite py_in_flatten, Hg. apply IH.
Qed.

(** C10 (as amended). When every entry of [system_hierarchy] is a group
    (a list) and [var_index] is an index of none of them,
    [get_subsystem_index] falls through its loop and returns [None];
    nothing is raised. *)
Theorem get_subsystem_index_unmatched (system_hierarchy : list pyval)
  (var_index : Z) :
  Forall (fun g => is_list g = true /\ has_leaf var_index g = false)
    system_hierarchy ->
  get_subsystem_index system_hierarchy var_index = Ok None.
Proof. apply get_subsystem_index_from_none. Qed.

Lemma get_subsystem_index_unmatched_witness :
  Forall (fun g => is_list g = true /\ has_leaf 5 g = false)
    [PList [PInt 1; PList [PInt 2]]; PList [PInt 3]]
  /\ get_subsystem_index [PList [PInt 1; PList [PInt 2]]; PList [PInt 3]] 5
     = Ok None.
Proof.
  assert (H : Forall (fun g => is_list g = true /\ has_leaf 5 g = false)
                [PList [PInt 1; PList [PInt 2]]; PList [PInt 3]])
    by (repeat constructor).
  split; [exact H |].
  exact (get_subsystem_index_unmatched _ 5 H).
Defined.

(** C10 (counterexample to the claim as stated). A leaf subsystem is
    given its group as [system_hierarchy], so the entries are the
    variable indices themselves: for [system_hierarchy = [3]] the
    index 5, which belongs to no group, raises [TypeError] instead of
    giving [None]. *)
Lemma get_subsystem_index_leaf_raises :
  has_leaf 5 (PList [PInt 3]) = false
  /\ get_subsystem_index [PInt 3] 5 = Raise TypeError
  /\ get_subsystem_index [PInt 3] 5 <> Ok None.
Proof. repeat split. discriminate. Qed.

(** An index that does belong to a group is found. *)
Example get_subsystem_index_found :
  get_subsystem_index [PList [PInt 1; PList [PInt 2]]; PList [PInt 3]] 3
  = Ok (Some 1%nat).
Proof. reflexivity. Qed.

End SubsystemIndexFacts.

(** ** [generate_subsystems]: re-summing the buckets *)

Module PartitionFacts.
Import Names Partition.
Local Open Scope string_scope.
Local Open Scope Z_scope.

(** The buckets of [2*n1**2 + 2*n2**2 + 3*n1*n2] for the groups [[1]]
    and [[2]]: the coupling term enters the interaction of the first
    group with coefficient 3 and, because line 503 adds [H_int] back to
    [hamiltonian], that of the second group with coefficient 6. *)
Lemma generate_buckets_two_modes :
  generate_buckets [] two_groups H_two_modes =
    Ok ([ {[ ["n1"; "n1"] := 2 ]}; {[ ["n2"; "n2"] := 2 ]} ],
        [ {[ ["n1"; "n2"] := 3 ]}; {[ ["n1"; "n2"] := 6 ]} ]).
Proof. vm_compute. reflexivity. Qed.

(** C1 (evaluation at the failing input). Summing the two
    self-Hamiltonians and the two interaction Hamiltonians produced for
    [2*n1**2 + 2*n2**2 + 3*n1*n2] gives the monomial [n1*n2] the
    coefficient 9, not its original coefficient 3. *)
Theorem resum_two_modes_coupling :
  exists buckets,
    generate_buckets [] two_groups H_two_modes = Ok buckets
    /\ coeff (resum buckets) ["n1"; "n2"] = 9
    /\ coeff H_two_modes ["n1"; "n2"] = 3
    /\ coeff (resum buckets) ["n1"; "n1"] = coeff H_two_modes ["n1"; "n1"]
    /\ coeff (resum buckets) ["n2"; "n2"] = coeff H_two_modes ["n2"; "n2"].
Proof.
  eexists. split; [apply generate_buckets_two_modes |].
  repeat split; vm_compute; reflexivity.
Qed.

(** Without coupling monomials the buckets do add up to the Hamiltonian. *)
Example resum_uncoupled :
  (let! buckets := generate_buckets [] two_groups H_uncoupled in Ok (resum buckets))
  = Ok H_uncoupled.
Proof. vm_compute. reflexivity. Qed.

(** A monomial coupling three groups enters their interaction buckets
    with the coefficients 5, 10 and 20. *)
Example resum_three_modes :
  exists buckets,
    generate_buckets [] three_groups H_three_modes = Ok buckets
    /\ map (fun e => coeff e ["n1"; "n2"; "n3"]) (snd buckets) = [5; 10; 20]
    /\ coeff (resum buckets) ["n1"; "n2"; "n3"] = 35.
Proof. eexists. repeat split; vm_compute; reflexivity. Qed.

End PartitionFacts.

(** ** Elementary operators *)

Module OperatorFacts.
Import Operators.
Local Open Scope R_scope.

Lemma nth_map_seq {A} (f : nat -> A) (n i : nat) (d : A) :
  (i < n)%nat -> nth i (map f (seq 0 n)) d = f i.
Proof.
  intros Hi.
  rewrite (nth_indep _ d (f 0%nat)) by (rewrite length_map, length_seq; exact Hi).
  rewrite map_nth, seq_nth by exact Hi. reflexivity.
Qed.

Lemma nth_linspace (a b : R) (n i : nat) :
  (i < n)%nat ->
  nth i (np_linspace a b n) 0 = a + INR i * ((b - a) / INR (n - 1)).
Proof.
  intros Hi. unfold np_linspace.
  exact (nth_map_seq (fun k => a + INR k * ((b - a) / INR (n - 1))) n i 0 Hi).
Qed.

Lemma length_linspace (a b : R) (n : nat) : length (np_linspace a b n) = n.
Proof. unfold np_linspace. rewrite length_map, length_seq. reflexivity. Qed.

Lemma setdiag_zeros_entry (values : list R) (n i j : nat) :
  length values = n -> (i < n)%nat ->
  entry (setdiag (dia_zeros n) values) i j =
    if (i =? j)%nat then nth i values 0 else 0.
Proof.
  intros Hlen Hi. simpl. rewrite Hlen.
  destruct (Nat.ltb_spec i n) as [_ | Hge]; [| lia].
  rewrite !andb_true_r. reflexivity.
Qed.

(** The cos operator of the discretized basis is the diagonal of the
    cosines of the grid coordinates. *)
Lemma cos_phi_diagonal (grid : Grid1d) (i j : nat) :
  (i < pt_count grid)%nat ->
  entry (_cos_phi grid) i j =
    if (i =? j)%nat then cos (nth i (make_linspace grid) 0) else 0.
Proof.
  intros Hi. unfold _cos_phi, tocsc.
  rewrite setdiag_zeros_entry
    by (try rewrite length_map; try apply length_linspace; exact Hi).
  destruct (i =? j)%nat; [| reflexivity].
  rewrite (nth_indep _ 0 (cos 0))
    by (rewrite length_map; unfold make_linspace; rewrite length_linspace; exact Hi).
  apply map_nth.
Qed.

(** The helper [_sin_dia], applied to the position operator, does give
    the diagonal of the sines of the grid coordinates. *)
Lemma sin_dia_phi_diagonal (grid : Grid1d) (i : nat) :
  (i < pt_count grid)%nat ->
  entry (_sin_dia (_phi_operator grid)) i i = sin (nth i (make_linspace grid) 0).
Proof.
  intros Hi. unfold _sin_dia, tocsc.
  change (dim (_phi_operator grid)) with (pt_count grid).
  rewrite setdiag_zeros_entry; [| | exact Hi].
  2: { unfold diagonal. rewrite !length_map, length_seq. reflexivity. }
  rewrite Nat.eqb_refl.
  rewrite (nth_indep _ 0 (sin 0))
    by (unfold diagonal; rewrite !length_map, length_seq; exact Hi).
  rewrite map_nth. f_equal. unfold diagonal.
  change (dim (_phi_operator grid)) with (pt_count grid).
  rewrite (nth_map_seq (fun k => entry (_phi_operator grid) k k)) by exact Hi.
  unfold _phi_operator.
  rewrite setdiag_zeros_entry;
    [| unfold make_linspace; apply length_linspace | exact Hi].
  rewrite Nat.eqb_refl. reflexivity.
Qed.

(** [_sin_phi] builds the very same matrix as [_cos_phi]. *)
Lemma sin_phi_is_cos_phi (grid : Grid1d) : _sin_phi grid = _cos_phi grid.
Proof. reflexivity. Qed.

(** C2 (evaluation at the failing input). On the grid with the two
    points 0 and 1 the first diagonal entry of the sin operator is
    [cos 0 = 1], whereas the sine of the first grid coordinate is 0. *)
Theorem sin_phi_unit_grid :
  nth 0 (make_linspace unit_grid) 0 = 0
  /\ entry (_sin_phi unit_grid) 0 0 = 1
  /\ sin (nth 0 (make_linspace unit_grid) 0) = 0
  /\ entry (_sin_phi unit_grid) 0 0 <> sin (nth 0 (make_linspace unit_grid) 0).
Proof.
  assert (H0 : nth 0 (make_linspace unit_grid) 0 = 0).
  { unfold make_linspace. rewrite nth_linspace by (simpl; lia). simpl. lra. }
  assert (H1 : entry (_sin_phi unit_grid) 0 0 = 1).
  { rewrite sin_phi_is_cos_phi, cos_phi_diagonal by (simpl; lia).
    simpl Nat.eqb. cbv iota. rewrite H0. apply cos_0. }
  repeat split.
  - exact H0.
  - exact H1.
  - rewrite H0. apply sin_0.
  - rewrite H1, H0, sin_0. lra.
Qed.

(** *** Charge basis *)

Lemma nth_arange (lo : Z) (n i : nat) :
  (i < n)%nat -> nth i (np_arange lo n) 0 = IZR (lo + Z.of_nat i).
Proof.
  intros Hi. unfold np_arange.
  exact (nth_map_seq (fun k => IZR (lo + Z.of_nat k)) n i 0 Hi).
Qed.

Lemma dia_matrix_entry (data : list R) (offset : Z) (d i j : nat) :
  (i < d)%nat -> (j < d)%nat -> length data = d ->
  entry (dia_matrix data offset d) i j =
    if (Z.of_nat j - Z.of_nat i =? offset)%Z then nth j data 0 else 0.
Proof.
  intros Hi Hj Hlen. simpl. rewrite Hlen.
  destruct (Nat.ltb_spec i d); [| lia].
  destruct (Nat.ltb_spec j d); [| lia].
  rewrite !andb_true_r. reflexivity.
Qed.

Lemma n_theta_entry (ncut i j : nat) :
  (i < 2 * ncut + 1)%nat -> (j < 2 * ncut + 1)%nat ->
  entry (_n_theta_operator ncut) i j =
    if (i =? j)%nat then IZR (Z.of_nat i - Z.of_nat ncut) else 0.
Proof.
  intros Hi Hj. unfold _n_theta_operator, tocsc.
  rewrite dia_matrix_entry; try assumption.
  2: { unfold np_arange. rewrite length_map, length_seq. reflexivity. }
  destruct (Nat.eqb_spec i j) as [-> | Hne].
  - replace (Z.of_nat j - Z.of_nat j =? 0)%Z with true
      by (symmetry; apply Z.eqb_eq; lia).
    rewrite nth_arange by exact Hj. f_equal. lia.
  - replace (Z.of_nat j - Z.of_nat i =? 0)%Z with false; [reflexivity |].
    symmetry. apply Z.eqb_neq. lia.
Qed.

Lemma exp_i_theta_entry (ncut i j : nat) :
  (i < 2 * ncut + 1)%nat -> (j < 2 * ncut + 1)%nat ->
  entry (_exp_i_theta_operator ncut) i j = if (i =? S j)%nat then -1 else 0.
Proof.
  intros Hi Hj. unfold _exp_i_theta_operator, tocsc.
  rewrite dia_matrix_entry; try assumption; [| apply repeat_length].
  destruct (Nat.eqb_spec i (S j)) as [-> | Hne].
  - replace (Z.of_nat j - Z.of_nat (S j) =? -1)%Z with true
      by (symmetry; apply Z.eqb_eq; lia).
    apply nth_repeat_lt. exact Hj.
  - replace (Z.of_nat j - Z.of_nat i =? -1)%Z with false; [reflexivity |].
    symmetry. apply Z.eqb_neq. lia.
Qed.

Lemma exp_i_theta_conjugate_entry (ncut i j : nat) :
  (i < 2 * ncut + 1)%nat -> (j < 2 * ncut + 1)%nat ->
  entry (_exp_i_theta_operator_conjugate ncut) i j =
    if (j =? S i)%nat then -1 else 0.
Proof.
  intros Hi Hj. unfold _exp_i_theta_operator_conjugate, tocsc.
  rewrite dia_matrix_entry; try assumption; [| apply repeat_length].
  destruct (Nat.eqb_spec j (S i)) as [-> | Hne].
  - replace (Z.of_nat (S i) - Z.of_nat i =? 1)%Z with true
      by (symmetry; apply Z.eqb_eq; lia).
    apply nth_repeat_lt. exact Hj.
  - replace (Z.of_nat j - Z.of_nat i =? 1)%Z with false; [reflexivity |].
    symmetry. apply Z.eqb_neq. lia.
Qed.

(** The entries of the code's operators. For a periodic variable with
    cutoff [ncut] (dimension
    [2*ncut+1]): the charge-number operator is diagonal with the
    eigenvalues [-ncut, ..., ncut]; the two operators
    [_exp_i_theta_operator] and [_exp_i_theta_operator_conjugate] are
    shift-by-one matrices (a single off-diagonal, below resp. above the
    main diagonal, whose entries are [-1.0] in the code); the cosine
    operator is 1/2 times their sum and the sine operator is [-i/2]
    times the first plus [+i/2] times the second. *)
Theorem periodic_operators_entries (ncut i j : nat) :
  (i < 2 * ncut + 1)%nat -> (j < 2 * ncut + 1)%nat ->
  dim (_n_theta_operator ncut) = (2 * ncut + 1)%nat
  /\ entry (_n_theta_operator ncut) i j =
       (if (i =? j)%nat then IZR (Z.of_nat i - Z.of_nat ncut) else 0)
  /\ entry (_exp_i_theta_operator ncut) i j = (if (i =? S j)%nat then -1 else 0)
  /\ entry (_exp_i_theta_operator_conjugate ncut) i j =
       (if (j =? S i)%nat then -1 else 0)
  /\ entry (_cos_theta ncut) i j =
       1 / 2 * (entry (_exp_i_theta_operator ncut) i j
                + entry (_exp_i_theta_operator_conjugate ncut) i j)
  /\ entry (_sin_theta ncut) i j =
       Cadd (Cmul (0, - (1 / 2)) (Creal (entry (_exp_i_theta_operator ncut) i j)))
            (Cmul (0, 1 / 2)
               (Creal (entry (_exp_i_theta_operator_conjugate ncut) i j))).
Proof.
  intros Hi Hj.
  split; [reflexivity |].
  split; [apply n_theta_entry; assumption |].
  split; [apply exp_i_theta_entry; assumption |].
  split; [apply exp_i_theta_conjugate_entry; assumption |].
  split; [reflexivity |].
  unfold _sin_theta.
  change (entry (cscale ?c ?m) i j) with (Cmul c (Creal (entry m i j))).
  change (entry (msub ?a ?b) i j) with (entry a i j - entry b i j).
  generalize (entry (_exp_i_theta_operator ncut) i j) as x.
  generalize (entry (_exp_i_theta_operator_conjugate ncut) i j) as y.
  intros y x. unfold Cadd, Cmul, Creal, Cneg, Ci. simpl. f_equal; lra.
Qed.

Lemma periodic_operators_entries_witness :
  entry (_cos_theta 1) 1 0 = - (1 / 2)
  /\ entry (_sin_theta 1) 1 0 = (0, 1 / 2)
  /\ entry (_n_theta_operator 1) 0 0 = -1.
Proof.
  destruct (periodic_operators_entries 1 1 0 ltac:(simpl; lia) ltac:(simpl; lia))
    as (_ & _ & HE & HEc & Hcos & Hsin).
  destruct (periodic_operators_entries 1 0 0 ltac:(simpl; lia) ltac:(simpl; lia))
    as (_ & Hn & _).
  rewrite Hcos, Hsin, Hn, HE, HEc. simpl.
  unfold Cadd, Cmul, Creal. simpl.
  repeat split; try lra; f_equal; lra.
Defined.

Lemma charge_raising_entry (ncut i j : nat) :
  (i < 2 * ncut + 1)%nat -> (j < 2 * ncut + 1)%nat ->
  entry (charge_raising ncut) i j = if (i =? S j)%nat then 1 else 0.
Proof.
  intros Hi Hj. unfold charge_raising.
  rewrite dia_matrix_entry; try assumption; [| apply repeat_length].
  destruct (Nat.eqb_spec i (S j)) as [-> | Hne].
  - replace (Z.of_nat j - Z.of_nat (S j) =? -1)%Z with true
      by (symmetry; apply Z.eqb_eq; lia).
    apply nth_repeat_lt. exact Hj.
  - replace (Z.of_nat j - Z.of_nat i =? -1)%Z with false; [reflexivity |].
    symmetry. apply Z.eqb_neq. lia.
Qed.

Lemma charge_lowering_entry (ncut i j : nat) :
  (i < 2 * ncut + 1)%nat -> (j < 2 * ncut + 1)%nat ->
  entry (charge_lowering ncut) i j = if (j =? S i)%nat then 1 else 0.
Proof.
  intros Hi Hj. unfold charge_lowering.
  rewrite dia_matrix_entry; try assumption; [| apply repeat_length].
  destruct (Nat.eqb_spec j (S i)) as [-> | Hne].
  - replace (Z.of_nat (S i) - Z.of_nat i =? 1)%Z with true
      by (symmetry; apply Z.eqb_eq; lia).
    apply nth_repeat_lt. exact Hj.
  - replace (Z.of_nat j - Z.of_nat i =? 1)%Z with false; [reflexivity |].
    symmetry. apply Z.eqb_neq. lia.
Qed.

(** C3 (evaluation at the failing input). For the cutoff 1 the code's
    [_exp_i_theta_operator] holds [-1] where the operator raising the
    charge by one holds 1, so the entry (1, 0) of the cosine operator is
    [-1/2] instead of [1/2] and that of the sine operator is [+i/2]
    instead of [-i/2]; the charge-number operator is as claimed. *)
Theorem charge_basis_shift_sign :
  entry (_n_theta_operator 1) 0 0 = -1
  /\ entry (_exp_i_theta_operator 1) 1 0 = -1
  /\ entry (charge_raising 1) 1 0 = 1
  /\ entry (_cos_theta 1) 1 0 = - (1 / 2)
  /\ entry (cos_of_shifts 1) 1 0 = 1 / 2
  /\ entry (_cos_theta 1) 1 0 <> entry (cos_of_shifts 1) 1 0
  /\ entry (_sin_theta 1) 1 0 = (0, 1 / 2)
  /\ entry (sin_of_shifts 1) 1 0 = (0, - (1 / 2))
  /\ entry (_sin_theta 1) 1 0 <> entry (sin_of_shifts 1) 1 0.
Proof.
  destruct periodic_operators_entries_witness as (Hcos & Hsin & Hn).
  assert (Hup : entry (charge_raising 1) 1 0 = 1)
    by (rewrite charge_raising_entry by (simpl; lia); reflexivity).
  assert (Hdown : entry (charge_lowering 1) 1 0 = 0)
    by (rewrite charge_lowering_entry by (simpl; lia); reflexivity).
  assert (Hc : entry (cos_of_shifts 1) 1 0 = 1 / 2).
  { unfold cos_of_shifts.
    change (entry (rscale ?c ?m) 1 0) with (c * entry m 1 0).
    change (entry (madd ?a ?b) 1 0) with (entry a 1 0 + entry b 1 0).
    rewrite Hup, Hdown. lra. }
  assert (Hs : entry (sin_of_shifts 1) 1 0 = (0, - (1 / 2))).
  { unfold sin_of_shifts.
    change (entry (cscale ?c ?m) 1 0) with (Cmul c (Creal (entry m 1 0))).
    change (entry (msub ?a ?b) 1 0) with (entry a 1 0 - entry b 1 0).
    rewrite Hup, Hdown. unfold Cmul, Creal, Cneg, Ci. simpl. f_equal; lra. }
  split; [exact Hn |].
  split; [rewrite exp_i_theta_entry by (simpl; lia); reflexivity |].
  split; [exact Hup |]. split; [exact Hcos |]. split; [exact Hc |].
  split; [rewrite Hcos, Hc; lra |].
  split; [exact Hsin |]. split; [exact Hs |].
  rewrite Hsin, Hs. intros E. inversion E. lra.
Qed.

End OperatorFacts.

(** ** Names of the cutoff properties *)

Module NameFacts.
Import Names.
Local Open Scope string_scope.

Lemma string_of_uint_digits (d : Decimal.uint) :
  all_digits (NilEmpty.string_of_uint d) = true.
Proof. induction d; simpl; auto. Qed.

Lemma str_digits (n : nat) : all_digits (str n) = true.
Proof. apply string_of_uint_digits. Qed.

(** A pattern that starts with a non-digit does not occur in a string
    of digits. *)
Lemma str_contains_digits (c : ascii) (pat d : string) :
  is_digit c = false -> all_digits d = true ->
  str_contains (String c pat) d = false.
Proof.
  intros Hc. induction d as [| x d IH]; intros Hd; [reflexivity |].
  simpl in Hd. apply andb_true_iff in Hd as [Hx Hd].
  simpl. destruct (ascii_dec c x) as [-> | _]; [congruence |].
  simpl. apply IH. exact Hd.
Qed.

Lemma cutoff_n_in_n_name (i : nat) :
  str_contains "cutoff_n" ("cutoff_n_" ++ str i) = true.
Proof. reflexivity. Qed.

Lemma cutoff_ext_in_ext_name (i : nat) :
  str_contains "cutoff_ext" ("cutoff_ext_" ++ str i) = true.
Proof. reflexivity. Qed.

Lemma cutoff_n_not_in_ext_name (i : nat) :
  str_contains "cutoff_n" ("cutoff_ext_" ++ str i) = false.
Proof.
  cbv -[str str_contains all_digits]. cbn -[str].
  apply str_contains_digits; [reflexivity | apply str_digits].
Qed.

Lemma cutoff_ext_not_in_n_name (i : nat) :
  str_contains "cutoff_ext" ("cutoff_n_" ++ str i) = false.
Proof.
  cbv -[str str_contains all_digits]. cbn -[str].
  apply str_contains_digits; [reflexivity | apply str_digits].
Qed.

End NameFacts.

(** ** [hilbertdim] *)

Module DimensionFacts.
Import Names Dimension PyFacts NameFacts.
Local Open Scope Z_scope.

Lemma sort_insert_perm (x : string) (l : list string) :
  Permutation (sort_insert x l) (x :: l).
Proof.
  induction l as [| y r IH]; simpl; [apply Permutation_refl |].
  destruct (String.leb x y); [apply Permutation_refl |].
  eapply perm_trans; [apply perm_skip, IH | apply perm_swap].
Qed.

Lemma py_sort_perm (l : list string) : Permutation (py_sort l) l.
Proof.
  induction l as [| x r IH]; simpl; [constructor |].
  eapply perm_trans; [apply sort_insert_perm | apply perm_skip, IH].
Qed.

Lemma filter_perm {A} (f : A -> bool) (l l' : list A) :
  Permutation l l' -> Permutation (List.filter f l) (List.filter f l').
Proof.
  induction 1 as [| x l l' _ IH | x y l | l l' l'' _ IH1 _ IH2]; simpl.
  - constructor.
  - destruct (f x); [apply perm_skip |]; exact IH.
  - destruct (f x), (f y); try apply Permutation_refl. apply perm_swap.
  - eapply perm_trans; eassumption.
Qed.

(** *** 64-bit wrap-around *)

Lemma int64_congr (z : Z) : int64 z mod 2 ^ 64 = z mod 2 ^ 64.
Proof.
  unfold int64. rewrite Zminus_mod, Zmod_mod, <- Zminus_mod.
  f_equal. lia.
Qed.

Lemma int64_eqm (a b : Z) : a mod 2 ^ 64 = b mod 2 ^ 64 -> int64 a = int64 b.
Proof.
  intros H. unfold int64. f_equal.
  rewrite (Zplus_mod a), (Zplus_mod b), H. reflexivity.
Qed.

Lemma int64_idem (z : Z) : int64 (int64 z) = int64 z.
Proof. apply int64_eqm, int64_congr. Qed.

Lemma int64_mul_l (a b : Z) : int64 (int64 a * b) = int64 (a * b).
Proof.
  apply int64_eqm. rewrite (Zmult_mod (int64 a)), int64_congr, <- Zmult_mod.
  reflexivity.
Qed.

(** A closed bound is settled by evaluation. *)
Ltac fits_by_evaluation :=
  unfold fits_int64; split; [apply Z.leb_le | apply Z.ltb_lt]; vm_compute; reflexivity.

Lemma int64_fits (z : Z) : fits_int64 z -> int64 z = z.
Proof.
  unfold fits_int64, int64. intros H.
  rewrite Z.mod_small by lia. lia.
Qed.

Lemma np_prod_from (l : list Z) (acc : Z) :
  int64 acc = acc ->
  fold_left (fun a x => int64 (a * x)) l acc = int64 (acc * product l).
Proof.
  revert acc. induction l as [| x r IH]; intros acc Hacc.
  - cbn [fold_left product fold_right]. rewrite Z.mul_1_r. symmetry. exact Hacc.
  - cbn [fold_left]. rewrite IH by apply int64_idem.
    rewrite int64_mul_l. f_equal.
    change (product (x :: r)) with (x * product r). ring.
Qed.

(** Whatever the order of the multiplications, the result is the exact
    product wrapped once. *)
Lemma np_prod_int64 (l : list Z) : np_prod l = int64 (product l).
Proof.
  unfold np_prod. rewrite np_prod_from by reflexivity.
  f_equal. ring.
Qed.

Lemma product_perm (l l' : list Z) :
  Permutation l l' -> product l = product l'.
Proof.
  induction 1 as [| x l l' _ IH | x y l | l l' l'' _ IH1 _ IH2]; simpl; lia.
Qed.

Lemma product_app (l l' : list Z) : product (l ++ l') = product l * product l'.
Proof. induction l as [| x r IH]; simpl; [| rewrite IH]; lia. Qed.

Lemma np_prod_perm (l l' : list Z) :
  Permutation l l' -> np_prod l = np_prod l'.
Proof. intros H. rewrite !np_prod_int64, (product_perm _ _ H). reflexivity. Qed.

Lemma filter_keep {A} (f : A -> bool) (l : list A) :
  (forall x, In x l -> f x = true) -> List.filter f l = l.
Proof.
  induction l as [| x r IH]; intros H; [reflexivity |].
  simpl. rewrite (H x (or_introl eq_refl)), IH; [reflexivity |].
  intros y Hy. apply H. right. exact Hy.
Qed.

Lemma filter_drop {A} (f : A -> bool) (l : list A) :
  (forall x, In x l -> f x = false) -> List.filter f l = [].
Proof.
  induction l as [| x r IH]; intros H; [reflexivity |].
  simpl. rewrite (H x (or_introl eq_refl)). apply IH.
  intros y Hy. apply H. right. exact Hy.
Qed.

(** The flat case, given the dict returned by [get_cutoffs]. *)
Lemma hilbertdim_flat_of_cutoffs (self : instance) (ns es : list Z) :
  get_cutoffs self = Ok [("cutoff_n"%string, ns); ("cutoff_ext"%string, es)] ->
  hilbertdim_flat self = Ok (np_prod (map (fun k => 2 * k + 1) ns ++ es)).
Proof.
  intros H. unfold hilbertdim_flat. rewrite H.
  cbn [bind mapM map fst].
  cbn -[np_prod Z.mul Z.add]. rewrite app_nil_r. reflexivity.
Qed.

Section Flat.
Variable self : instance.
Variables periodic extended : list nat.
Variables cutoff_n cutoff_ext : nat -> Z.

(** The instance carries one cutoff property per variable, named as
    [initiate_circuit] names them. *)
Hypothesis names :
  Permutation (cutoff_names self)
    (map cutoff_n_name periodic ++ map cutoff_ext_name extended).
Hypothesis periodic_cutoffs :
  forall i, In i periodic -> attrs self !! cutoff_n_name i = Some (cutoff_n i).
Hypothesis extended_cutoffs :
  forall i, In i extended -> attrs self !! cutoff_ext_name i = Some (cutoff_ext i).

Let value (name : string) : Z := default 0 (attrs self !! name).

Lemma filter_n_names :
  Permutation (List.filter (str_contains "cutoff_n") (cutoff_names self))
    (map cutoff_n_name periodic).
Proof.
  eapply perm_trans; [apply filter_perm, names |].
  rewrite List.filter_app, filter_keep, filter_drop.
  - rewrite app_nil_r. apply Permutation_refl.
  - intros x Hx. apply in_map_iff in Hx as (i & <- & _).
    apply cutoff_n_not_in_ext_name.
  - intros x Hx. apply in_map_iff in Hx as (i & <- & _).
    apply cutoff_n_in_n_name.
Qed.

Lemma filter_ext_names :
  Permutation (List.filter (str_contains "cutoff_ext") (cutoff_names self))
    (map cutoff_ext_name extended).
Proof.
  eapply perm_trans; [apply filter_perm, names |].
  rewrite List.filter_app, filter_drop, filter_keep.
  - apply Permutation_refl.
  - intros x Hx. apply in_map_iff in Hx as (i & <- & _).
    apply cutoff_ext_in_ext_name.
  - intros x Hx. apply in_map_iff in Hx as (i & <- & _).
    apply cutoff_ext_not_in_n_name.
Qed.

Lemma getattr_value (name : string) :
  In name (cutoff_names self) -> getattr self name = Ok (value name).
Proof.
  intros Hin. apply (Permutation_in _ names) in Hin.
  unfold getattr, value.
  apply in_app_or in Hin as [Hin | Hin];
    apply in_map_iff in Hin as (i & <- & Hi).
  - rewrite (periodic_cutoffs i Hi). reflexivity.
  - rewrite (extended_cutoffs i Hi). reflexivity.
Qed.

(** What [get_cutoffs] puts under one of its two keys. *)
Lemma cutoffs_of_type (cutoff_type : string) :
  (let attr_list := List.filter (str_contains cutoff_type) (cutoff_names self) in
   if (0 <? length attr_list)%nat
   then let! values := mapM (getattr self) (py_sort attr_list) in
        Ok (cutoff_type, values)
   else Ok (cutoff_type, []))
  = Ok (cutoff_type,
        map value (py_sort (List.filter (str_contains cutoff_type)
                              (cutoff_names self)))).
Proof.
  cbv zeta.
  destruct (List.filter (str_contains cutoff_type) (cutoff_names self))
    as [| a l] eqn:E; [reflexivity |].
  change (0 <? length (a :: l))%nat with true. cbv iota.
  rewrite (mapM_pure _ value); [reflexivity |].
  intros x Hx. apply getattr_value.
  apply (Permutation_in _ (py_sort_perm _)) in Hx.
  rewrite <- E in Hx. apply List.filter_In in Hx. tauto.
Qed.

Lemma get_cutoffs_value :
  get_cutoffs self =
    Ok [("cutoff_n"%string,
         map value (py_sort (List.filter (str_contains "cutoff_n")
                               (cutoff_names self))));
        ("cutoff_ext"%string,
         map value (py_sort (List.filter (str_contains "cutoff_ext")
                               (cutoff_names self))))].
Proof.
  unfold get_cutoffs. cbn [mapM].
  rewrite !cutoffs_of_type. reflexivity.
Qed.

Lemma values_n :
  Permutation
    (map value (py_sort (List.filter (str_contains "cutoff_n") (cutoff_names self))))
    (map cutoff_n periodic).
Proof.
  eapply perm_trans.
  - apply Permutation_map.
    eapply perm_trans; [apply py_sort_perm | apply filter_n_names].
  - rewrite map_map.
    erewrite map_ext_in; [apply Permutation_refl |].
    intros i Hi. unfold value. rewrite (periodic_cutoffs i Hi). reflexivity.
Qed.

Lemma values_ext :
  Permutation
    (map value (py_sort (List.filter (str_contains "cutoff_ext") (cutoff_names self))))
    (map cutoff_ext extended).
Proof.
  eapply perm_trans.
  - apply Permutation_map.
    eapply perm_trans; [apply py_sort_perm | apply filter_ext_names].
  - rewrite map_map.
    erewrite map_ext_in; [apply Permutation_refl |].
    intros i Hi. unfold value. rewrite (extended_cutoffs i Hi). reflexivity.
Qed.

Lemma hilbertdim_flat_value :
  hilbertdim_flat self =
    Ok (int64 (product (map (fun i => 2 * cutoff_n i + 1) periodic)
               * product (map cutoff_ext extended))).
Proof.
  rewrite (hilbertdim_flat_of_cutoffs _ _ _ get_cutoffs_value).
  f_equal. rewrite np_prod_int64, product_app. do 2 f_equal.
  - rewrite <- (map_map cutoff_n (fun k => 2 * k + 1)).
    apply product_perm, Permutation_map, values_n.
  - apply product_perm, values_ext.
Qed.

End Flat.

(** C4 (as amended). For a non-hierarchical instance whose cutoff
    properties are those of the periodic variables [periodic] (values
    [cutoff_n i]) and of the extended variables [extended] (values
    [cutoff_ext i]), all dimensions fitting 64 bits, [hilbertdim()] is
    the product of [2*cutoff+1] over the periodic variables times the
    product of the cutoffs of the extended ones, as long as that product
    fits 64 bits; in general it is that product wrapped to 64 bits. *)
Theorem hilbertdim_flat_product (self : instance) (periodic extended : list nat)
  (cutoff_n cutoff_ext : nat -> Z) :
  hierarchical_diagonalization self = false ->
  Permutation (cutoff_names self)
    (map cutoff_n_name periodic ++ map cutoff_ext_name extended) ->
  (forall i, In i periodic -> attrs self !! cutoff_n_name i = Some (cutoff_n i)) ->
  (forall i, In i extended -> attrs self !! cutoff_ext_name i = Some (cutoff_ext i)) ->
  (forall i, In i periodic -> fits_int64 (2 * cutoff_n i + 1)) ->
  (forall i, In i extended -> fits_int64 (cutoff_ext i)) ->
  hilbertdim self =
    Ok (int64 (product (map (fun i => 2 * cutoff_n i + 1) periodic)
               * product (map cutoff_ext extended)))
  /\ (fits_int64 (product (map (fun i => 2 * cutoff_n i + 1) periodic)
                  * product (map cutoff_ext extended)) ->
      hilbertdim self =
        Ok (product (map (fun i => 2 * cutoff_n i + 1) periodic)
            * product (map cutoff_ext extended))).
Proof.
  intros Hflat Hn Hp He _ _.
  assert (H : hilbertdim self =
              Ok (int64 (product (map (fun i => 2 * cutoff_n i + 1) periodic)
                         * product (map cutoff_ext extended)))).
  { unfold hilbertdim. rewrite Hflat. apply hilbertdim_flat_value; assumption. }
  split; [exact H |].
  intros Hfit. rewrite H, (int64_fits _ Hfit). reflexivity.
Qed.

Lemma flat_example_fits :
  fits_int64 (product (map (fun i => 2 * (if (i =? 1)%nat then 5 else 3) + 1)
                         [1; 2]%nat)
              * product (map (fun _ : nat => 30) [3]%nat)).
Proof. fits_by_evaluation. Qed.

Lemma hilbertdim_flat_product_witness :
  hilbertdim flat_example = Ok (((2 * 5 + 1) * ((2 * 3 + 1) * 1)) * (30 * 1)).
Proof.
  apply (hilbertdim_flat_product flat_example [1; 2]%nat [3]%nat
           (fun i => if (i =? 1)%nat then 5 else 3) (fun _ => 30)).
  - reflexivity.
  - apply Permutation_refl.
  - intros i [<- | [<- | []]]; vm_compute; reflexivity.
  - intros i [<- | []]; vm_compute; reflexivity.
  - intros i [<- | [<- | []]]; fits_by_evaluation.
  - intros i [<- | []]; fits_by_evaluation.
  - exact flat_example_fits.
Defined.

(** C4 (counterexample to the claim as stated). With the two periodic
    cutoffs [2**31] the dimensions are [2**32 + 1] each; their product
    is [2**64 + 2**33 + 1], but [hilbertdim()] returns [2**33 + 1]. *)
Lemma hilbertdim_flat_wraps :
  hierarchical_diagonalization overflow_flat = false
  /\ hilbertdim overflow_flat = Ok 8589934593
  /\ product (map (fun _ : nat => 2 * 2 ^ 31 + 1) [1; 2]%nat) * product [] =
       18446744082299486209
  /\ hilbertdim overflow_flat
       <> Ok (product (map (fun _ : nat => 2 * 2 ^ 31 + 1) [1; 2]%nat) * product []).
Proof.
  assert (H : hilbertdim overflow_flat = Ok 8589934593) by (vm_compute; reflexivity).
  split; [reflexivity |]. split; [exact H |]. split; [vm_compute; reflexivity |].
  rewrite H. intros E. vm_compute in E. discriminate E.
Qed.

(** *** The hierarchical case *)

Lemma mapM_map {A B C} (f : B -> result C) (g : A -> B) (l : list A) :
  mapM f (map g l) = mapM (fun x => f (g x)) l.
Proof. induction l as [| x r IH]; simpl; [| rewrite IH]; reflexivity. Qed.

(** Reading [l[0]], ..., [l[n-1]] one index at a time is a pass over
    the first [n] members of [l]. *)
Lemma mapM_subscript {B} (f : pyval -> result B) (l : list pyval) (n : nat) :
  (n <= length l)%nat ->
  mapM (fun i => let! e := subscript l i in f e) (seq 0 n) = mapM f (firstn n l).
Proof.
  revert n. induction l as [| x r IH]; intros n Hn.
  - simpl in Hn. assert (n = 0%nat) as -> by lia. reflexivity.
  - destruct n as [| n]; [reflexivity |].
    simpl in Hn. cbn [seq firstn mapM]. rewrite <- seq_shift, mapM_map.
    change (subscript (x :: r) 0) with (Ok x : result pyval).
    cbn [bind]. f_equal.
    rewrite <- (IH n) by lia. reflexivity.
Qed.

Lemma top_level_dim_sound (e : pyval) (d : Z) :
  top_level_dim e = Some d -> trunc_dim_of e = Ok (PInt d).
Proof.
  destruct e as [n | [| [m | ?] ?]]; simpl; intros H; inversion H; reflexivity.
Qed.

Lemma mapM_top_level_dims (es : list pyval) (dims : list Z) :
  Forall2 (fun e d => top_level_dim e = Some d) es dims ->
  mapM trunc_dim_of es = Ok (map PInt dims).
Proof.
  induction 1 as [| e d es dims He _ IH]; [reflexivity |].
  simpl. rewrite (top_level_dim_sound _ _ He), IH. reflexivity.
Qed.

Lemma np_prod_list_ints (dims : list Z) :
  np_prod_list (map PInt dims) = Ok (np_prod dims).
Proof.
  unfold np_prod_list. rewrite mapM_map.
  rewrite (mapM_pure _ (fun d => d)) by reflexivity.
  rewrite map_id. reflexivity.
Qed.

Lemma hilbertdim_hierarchical_value (self : instance) (dims : list Z) :
  hierarchical_diagonalization self = true ->
  (length (system_hierarchy self) <= length (subsystem_trunc_dims self))%nat ->
  Forall2 (fun e d => top_level_dim e = Some d)
    (firstn (length (system_hierarchy self)) (subsystem_trunc_dims self)) dims ->
  hilbertdim self = Ok (int64 (product dims)).
Proof.
  intros Hh Hlen Hdims. unfold hilbertdim, hilbertdim_hierarchical.
  rewrite Hh. cbn [negb].
  rewrite (mapM_subscript trunc_dim_of) by exact Hlen.
  rewrite (mapM_top_level_dims _ _ Hdims). cbn [bind].
  rewrite np_prod_list_ints, np_prod_int64. reflexivity.
Qed.

(** C5 (as amended). For an instance using hierarchical diagonalization
    whose [subsystem_trunc_dims] has an entry for each of the top-level
    groups of [system_hierarchy], the top-level truncated dimensions
    (the entry itself when it is an int, its first member when it is a
    list) fitting 64 bits, [hilbertdim()] is the product of these
    dimensions as long as the product fits 64 bits; in general it is
    that product wrapped to 64 bits. *)
Theorem hilbertdim_hierarchical_product (self : instance) (dims : list Z) :
  hierarchical_diagonalization self = true ->
  (length (system_hierarchy self) <= length (subsystem_trunc_dims self))%nat ->
  Forall2 (fun e d => top_level_dim e = Some d)
    (firstn (length (system_hierarchy self)) (subsystem_trunc_dims self)) dims ->
  Forall fits_int64 dims ->
  hilbertdim self = Ok (int64 (product dims))
  /\ (fits_int64 (product dims) -> hilbertdim self = Ok (product dims)).
Proof.
  intros Hh Hlen Hdims _.
  pose proof (hilbertdim_hierarchical_value self dims Hh Hlen Hdims) as H.
  split; [exact H |].
  intros Hfit. rewrite H, (int64_fits _ Hfit). reflexivity.
Qed.

Lemma hier_example_fits : fits_int64 (product [50; 6]).
Proof. fits_by_evaluation. Qed.

Lemma hilbertdim_hierarchical_product_witness :
  hilbertdim hier_example = Ok (50 * (6 * 1)).
Proof.
  apply (hilbertdim_hierarchical_product hier_example [50; 6]).
  - reflexivity.
  - simpl. lia.
  - simpl. repeat constructor.
  - constructor; [fits_by_evaluation |]. constructor; [fits_by_evaluation |].
    constructor.
  - exact hier_example_fits.
Defined.

(** C5 (counterexample to the claim as stated). With the top-level
    truncated dimensions [2**32] and [2**32] the product is [2**64],
    but [hilbertdim()] returns 0. *)
Lemma hilbertdim_hierarchical_wraps :
  hierarchical_diagonalization overflow_hier = true
  /\ Forall2 (fun e d => top_level_dim e = Some d)
       (subsystem_trunc_dims overflow_hier) [2 ^ 32; 2 ^ 32]
  /\ hilbertdim overflow_hier = Ok 0
  /\ product [2 ^ 32; 2 ^ 32] = 18446744073709551616
  /\ hilbertdim overflow_hier <> Ok (product [2 ^ 32; 2 ^ 32]).
Proof.
  assert (H : hilbertdim overflow_hier = Ok 0) by (vm_compute; reflexivity).
  split; [reflexivity |]. split; [repeat constructor |]. split; [exact H |].
  split; [vm_compute; reflexivity |].
  rewrite H. intros E. vm_compute in E. discriminate E.
Qed.

End DimensionFacts.

(** ** Eigensolver dispatch *)

Module EigenFacts.
Import Eigen PyFacts.

Section Order.
Context {E : Type}.
Variable leb : E -> E -> bool.
Hypothesis leb_total : forall a b, leb a b = true \/ leb b a = true.

Let le (a b : E) : Prop := leb a b = true.

Lemma insert_by_perm {A} (key : A -> E) (x : A) (l : list A) :
  Permutation (insert_by leb key x l) (x :: l).
Proof.
  induction l as [| y r IH]; simpl; [apply Permutation_refl |].
  destruct (leb (key x) (key y)); [apply Permutation_refl |].
  eapply perm_trans; [apply perm_skip, IH | apply perm_swap].
Qed.

Lemma sort_by_perm {A} (key : A -> E) (l : list A) :
  Permutation (sort_by leb key l) l.
Proof.
  induction l as [| x r IH]; simpl; [constructor |].
  eapply perm_trans; [apply insert_by_perm | apply perm_skip, IH].
Qed.

Lemma insert_by_hd {A} (key : A -> E) (x y : A) (l : list A) :
  le (key y) (key x) ->
  HdRel (fun a b => le (key a) (key b)) y l ->
  HdRel (fun a b => le (key a) (key b)) y (insert_by leb key x l).
Proof.
  intros Hyx Hl. destruct l as [| z r]; simpl; [constructor; exact Hyx |].
  destruct (leb (key x) (key z)); constructor; [exact Hyx |].
  inversion Hl; assumption.
Qed.

Lemma insert_by_sorted {A} (key : A -> E) (x : A) (l : list A) :
  Sorted (fun a b => le (key a) (key b)) l ->
  Sorted (fun a b => le (key a) (key b)) (insert_by leb key x l).
Proof.
  induction l as [| y r IH]; intros Hs; simpl.
  - repeat constructor.
  - destruct (leb (key x) (key y)) eqn:Hxy.
    + constructor; [exact Hs | constructor; exact Hxy].
    + inversion Hs as [| ? ? Hr Hhd]; subst.
      constructor; [apply IH; exact Hr |].
      apply insert_by_hd; [| exact Hhd].
      destruct (leb_total (key x) (key y)) as [H | H]; [congruence | exact H].
Qed.

Lemma sort_by_sorted {A} (key : A -> E) (l : list A) :
  Sorted (fun a b => le (key a) (key b)) (sort_by leb key l).
Proof.
  induction l as [| x r IH]; simpl; [constructor |].
  apply insert_by_sorted, IH.
Qed.

(** Sorting commutes with a map that keeps the keys. *)
Lemma insert_by_map {A B} (key : B -> E) (g : A -> B) (x : A) (l : list A) :
  insert_by leb key (g x) (map g l) = map g (insert_by leb (fun a => key (g a)) x l).
Proof.
  induction l as [| y r IH]; simpl; [reflexivity |].
  destruct (leb (key (g x)) (key (g y))); simpl; [| rewrite IH]; reflexivity.
Qed.

Lemma sort_by_map {A B} (key : B -> E) (g : A -> B) (l : list A) :
  sort_by leb key (map g l) = map g (sort_by leb (fun a => key (g a)) l).
Proof.
  induction l as [| x r IH]; simpl; [reflexivity |].
  rewrite IH. apply insert_by_map.
Qed.

Lemma Sorted_map_key {A} (key : A -> E) (l : list A) :
  Sorted (fun a b => le (key a) (key b)) l -> Sorted le (map key l).
Proof.
  induction 1 as [| x r _ IH Hhd]; simpl; constructor; [exact IH |].
  destruct Hhd; simpl; constructor; assumption.
Qed.

End Order.

(** *** Index bookkeeping *)

Lemma in_combine_seq {A} (l : list A) (start : nat) (x : A) (i : nat) :
  In (x, i) (combine l (seq start (length l))) ->
  (start <= i)%nat /\ nth_error l (i - start) = Some x.
Proof.
  revert start. induction l as [| y r IH]; intros start Hin; [destruct Hin |].
  simpl in Hin. destruct Hin as [Heq | Hin].
  - inversion Heq; subst. rewrite Nat.sub_diag. split; [lia | reflexivity].
  - apply IH in Hin as [Hle Hnth]. split; [lia |].
    replace (i - start)%nat with (S (i - S start)) by lia. exact Hnth.
Qed.

Lemma combine_map_fst {A B C} (f : A -> B) (l : list A) (l' : list C) :
  combine (map f l) l' = map (fun p => (f (fst p), snd p)) (combine l l').
Proof.
  revert l'. induction l as [| x r IH]; intros [| y l']; simpl;
    [reflexivity .. |]. rewrite IH. reflexivity.
Qed.

Lemma combine_map_same {A B C} (f : A -> B) (g : A -> C) (l : list A) :
  combine (map f l) (map g l) = map (fun x => (f x, g x)) l.
Proof. induction l as [| x r IH]; simpl; [| rewrite IH]; reflexivity. Qed.

Lemma map_fst_combine_seq {A} (l : list A) (start : nat) :
  map fst (combine l (seq start (length l))) = l.
Proof.
  revert start. induction l as [| x r IH]; intros start; simpl;
    [| rewrite IH]; reflexivity.
Qed.

Lemma take_indices_pure {A B} (a : list A) (g : B -> A) (idx : B -> nat)
  (l : list B) :
  (forall p, In p l -> nth_error a (idx p) = Some (g p)) ->
  take_indices a (map idx l) = Ok (map g l).
Proof.
  intros H. unfold take_indices.
  rewrite DimensionFacts.mapM_map. apply mapM_pure.
  intros p Hp. rewrite (H p Hp). reflexivity.
Qed.

Section Ordering.
Context {E V : Type}.
Variable leb : E -> E -> bool.
Hypothesis leb_total : forall a b, leb a b = true \/ leb b a = true.

(** [order_eigensystem] on the eigenpairs [esys]: the eigenvalues come
    back ascending and the pairs are only rearranged. *)
Lemma order_eigensystem_pairs (esys : list (E * V)) :
  exists evals evecs,
    order_eigensystem leb (map fst esys) (map snd esys) = Ok (evals, evecs)
    /\ Sorted (fun a b => leb a b = true) evals
    /\ length evals = length evecs
    /\ Permutation (combine evals evecs) esys.
Proof.
  set (S := sort_by leb (fun p : (E * V) * nat => fst (fst p))
              (combine esys (seq 0 (length esys)))).
  assert (Hidx : argsort leb (map fst esys) = map snd S).
  { unfold argsort. rewrite length_map, combine_map_fst.
    rewrite (sort_by_map leb fst), map_map. reflexivity. }
  assert (Hnth : forall p, In p S -> nth_error esys (snd p) = Some (fst p)).
  { intros [x i] Hp.
    apply (Permutation_in _ (sort_by_perm leb _ _)) in Hp.
    apply in_combine_seq in Hp as [_ Hp].
    rewrite Nat.sub_0_r in Hp. exact Hp. }
  exists (map (fun p => fst (fst p)) S), (map (fun p => snd (fst p)) S).
  repeat split.
  - unfold order_eigensystem. rewrite Hidx.
    rewrite (take_indices_pure _ (fun p => fst (fst p)) snd).
    2: { intros p Hp. rewrite nth_error_map, (Hnth p Hp). reflexivity. }
    rewrite (take_indices_pure _ (fun p => snd (fst p)) snd).
    2: { intros p Hp. rewrite nth_error_map, (Hnth p Hp). reflexivity. }
    reflexivity.
  - apply (Sorted_map_key leb (fun p : (E * V) * nat => fst (fst p))).
    apply sort_by_sorted. exact leb_total.
  - rewrite !length_map. reflexivity.
  - rewrite combine_map_same.
    rewrite (map_ext _ fst) by (intros [[e v] i]; reflexivity).
    eapply perm_trans; [apply Permutation_map, sort_by_perm |].
    rewrite map_fst_combine_seq. apply Permutation_refl.
Qed.

End Ordering.

(** C6. Whatever eigenpairs the sparse or dense scipy routine returns
    for the Hamiltonian and the requested count, [_evals_calc] returns
    their eigenvalues in ascending order, and [_esys_calc] returns
    ascending eigenvalues together with the eigenvectors rearranged the
    same way: eigenvector [i] of the result is the one the solver paired
    with eigenvalue [i]. *)
Theorem eigensolver_ascending {E V H : Type} (leb : E -> E -> bool)
  (eigsh eigh : H -> nat -> list (E * V)) (type_of_matrices : matrix_kind)
  (hamiltonian_mat : H) (evals_count : nat) :
  (forall a b, leb a b = true \/ leb b a = true) ->
  let solved :=
    match type_of_matrices with
    | sparse => eigsh hamiltonian_mat evals_count
    | dense => eigh hamiltonian_mat evals_count
    end in
  (Sorted (fun a b => leb a b = true)
     (_evals_calc leb eigsh eigh type_of_matrices hamiltonian_mat evals_count)
   /\ Permutation
        (_evals_calc leb eigsh eigh type_of_matrices hamiltonian_mat evals_count)
        (map fst solved))
  /\ exists evals evecs,
       _esys_calc leb eigsh eigh type_of_matrices hamiltonian_mat evals_count
       = Ok (evals, evecs)
       /\ Sorted (fun a b => leb a b = true) evals
       /\ length evals = length evecs
       /\ Permutation (combine evals evecs) solved.
Proof.
  intros Htotal solved. split.
  - replace (_evals_calc leb eigsh eigh type_of_matrices hamiltonian_mat evals_count)
      with (np_sort leb (map fst solved))
      by (unfold _evals_calc, solved; destruct type_of_matrices; reflexivity).
    split.
    + apply (sort_by_sorted leb Htotal (fun e => e)).
    + apply sort_by_perm.
  - replace (_esys_calc leb eigsh eigh type_of_matrices hamiltonian_mat evals_count)
      with (order_eigensystem leb (map fst solved) (map snd solved))
      by (unfold _esys_calc, solved; destruct type_of_matrices; reflexivity).
    apply order_eigensystem_pairs. exact Htotal.
Qed.

Lemma Zleb_total (a b : Z) : (a <=? b)%Z = true \/ (b <=? a)%Z = true.
Proof. destruct (Z.leb_spec a b); [left; reflexivity | right; apply Z.leb_le; lia]. Qed.

Lemma eigensolver_ascending_witness :
  (Sorted (fun a b => (a <=? b)%Z = true)
     (_evals_calc Z.leb three_pairs three_pairs sparse tt 3)
   /\ Permutation (_evals_calc Z.leb three_pairs three_pairs sparse tt 3)
        (map fst (three_pairs tt 3)))
  /\ exists evals evecs,
       _esys_calc Z.leb three_pairs three_pairs sparse tt 3 = Ok (evals, evecs)
       /\ Sorted (fun a b => (a <=? b)%Z = true) evals
       /\ length evals = length evecs
       /\ Permutation (combine evals evecs) (three_pairs tt 3).
Proof.
  exact (eigensolver_ascending Z.leb three_pairs three_pairs sparse tt 3 Zleb_total).
Defined.

Example esys_three_pairs :
  _evals_calc Z.leb three_pairs three_pairs sparse tt 3 = [1; 2; 3]%Z
  /\ _esys_calc Z.leb three_pairs three_pairs dense tt 3
     = Ok ([1; 2; 3]%Z, [1; 2; 0]%nat).
Proof. split; reflexivity. Qed.

End EigenFacts.

(** ** [initiate_circuit] and missing truncated dimensions *)

Module InitFacts.
Import Init.

(** The constructor calls made for a hierarchical child are those of
    [generate_subsystems]. *)
Lemma build_subsystem_hierarchical (sh : list pyval) (truncated_dim : pyval)
  (subsystem_trunc_dims : option pyval) (built : nat) :
  is_hierarchical sh = true ->
  build_subsystem (PList sh) truncated_dim subsystem_trunc_dims built =
    match generate_subsystems sh subsystem_trunc_dims built with
    | (Raise e, b) => (Raise e, b)
    | (Ok children, b) => (Ok (Node truncated_dim (PList sh) children), S b)
    end.
Proof.
  intros Hh. unfold generate_subsystems. cbn [build_subsystem]. rewrite Hh.
  destruct (mapM flatten_arg sh) as [_ | e]; [| reflexivity].
  match goal with
  | |- (let '(r, b) := ?loop sh 0%nat built in _) = _ =>
      assert (Hloop : forall gs index b,
                 loop gs index b = build_children subsystem_trunc_dims gs index b)
  end.
  { induction gs as [| g' rest IH]; intros index b; [reflexivity |].
    cbn [build_children].
    destruct (node_args subsystem_trunc_dims index) as [[td std] | e];
      [| reflexivity].
    destruct (build_subsystem g' td std b) as [[n | e] b']; [| reflexivity].
    rewrite IH. reflexivity. }
  rewrite Hloop.
  destruct (build_children subsystem_trunc_dims sh 0 built) as [[ns | e] b];
    reflexivity.
Qed.

(** Whatever is raised, the [subsystems] attribute is only assigned once
    every node has been built. *)
Lemma initiate_circuit_raise_keeps_subsystems (self : circuit)
  (system_hierarchy_arg subsystem_trunc_dims_arg : option (list pyval))
  (built : nat) (e : exn) :
  raised (initiate_circuit self system_hierarchy_arg subsystem_trunc_dims_arg built)
  = Some e ->
  subsystems
    (self_after
       (initiate_circuit self system_hierarchy_arg subsystem_trunc_dims_arg built))
  = subsystems self.
Proof.
  unfold initiate_circuit.
  destruct (py_or system_hierarchy_arg (system_hierarchy self)) as [sh |];
    [| discriminate].
  destruct (is_hierarchical sh); [| discriminate]. cbn [negb].
  destruct (py_or subsystem_trunc_dims_arg (subsystem_trunc_dims self)) as [td |];
    [| reflexivity].
  destruct (generate_subsystems _ _ _) as [[ns | e'] b]; [discriminate | reflexivity].
Qed.

(** C7 (as amended). When hierarchical diagonalization is requested (the
    hierarchy in force is non-empty and nested) and no
    [subsystem_trunc_dims] is in force at all (none is passed, or an
    empty one, and none is stored on the instance), [initiate_circuit]
    raises its configuration exception before any subsystem node is
    built and leaves the instance's [subsystems] as they were. *)
Theorem initiate_circuit_without_trunc_dims (self : circuit)
  (system_hierarchy_arg subsystem_trunc_dims_arg : option (list pyval))
  (built : nat) (sh : list pyval) :
  py_or system_hierarchy_arg (system_hierarchy self) = Some sh ->
  is_hierarchical sh = true ->
  py_or subsystem_trunc_dims_arg (subsystem_trunc_dims self) = None ->
  let out :=
    initiate_circuit self system_hierarchy_arg subsystem_trunc_dims_arg built in
  raised out = Some ConfigError
  /\ nodes_built out = built
  /\ subsystems (self_after out) = subsystems self.
Proof.
  intros Hsh Hh Htd. unfold initiate_circuit. rewrite Hsh, Htd, Hh.
  repeat split.
Qed.

Lemma initiate_circuit_without_trunc_dims_witness :
  let out := initiate_circuit fresh (Some Partition.two_groups) None 0 in
  raised out = Some ConfigError
  /\ nodes_built out = 0%nat
  /\ subsystems (self_after out) = subsystems fresh.
Proof.
  exact (initiate_circuit_without_trunc_dims fresh (Some Partition.two_groups)
           None 0 Partition.two_groups eq_refl eq_refl eq_refl).
Defined.

(** C7 (counterexample to the claim as stated). For the two groups
    [[1]] and [[2]] with the truncated dimensions [[5]] (one entry for
    two groups) the call raises [IndexError], not the configuration
    exception, and only after the node of the first group has been
    built. *)
Lemma initiate_circuit_short_trunc_dims :
  let out :=
    initiate_circuit fresh (Some Partition.two_groups) (Some [PInt 5]) 0 in
  is_hierarchical Partition.two_groups = true
  /\ covers_groups Partition.two_groups [PInt 5] = false
  /\ raised out = Some IndexError
  /\ raised out <> Some ConfigError
  /\ nodes_built out = 1%nat.
Proof. cbv zeta. repeat split. discriminate. Qed.

(** With a dimension for every group the tree is built. *)
Example initiate_circuit_complete :
  let out :=
    initiate_circuit fresh
      (Some [PList [PList [PInt 1]; PList [PInt 2]]; PList [PInt 3]])
      (Some [PList [PInt 50; PList [PInt 6; PInt 6]]; PInt 6]) 0 in
  raised out = None
  /\ nodes_built out = 4%nat
  /\ subsystems (self_after out)
     = Some [Node (PInt 50) (PList [PList [PInt 1]; PList [PInt 2]])
               [Node (PInt 6) (PList [PInt 1]) [];
                Node (PInt 6) (PList [PInt 2]) []];
             Node (PInt 6) (PList [PInt 3]) []].
Proof. repeat split. Qed.

End InitFacts.

(** ** The zero-shift fallback of the flux-offset solve *)

Module CanonFacts.
Import Names Canon.
Local Open Scope string_scope.

(** *** Substitution and evaluation *)

Lemma eval_ext (env1 env2 : string -> R) (e : sexpr) :
  (forall s, occurs s e = true -> env1 s = env2 s) ->
  eval env1 e = eval env2 e.
Proof.
  induction e as [z | s | a IHa b IHb | a IHa b IHb | a IHa n | a IHa | a IHa];
    intros H; simpl.
  - reflexivity.
  - apply H. simpl. apply String.eqb_refl.
  - rewrite IHa, IHb; [reflexivity | |]; intros s Hs; apply H; simpl;
      rewrite Hs; auto using orb_true_r.
  - rewrite IHa, IHb; [reflexivity | |]; intros s Hs; apply H; simpl;
      rewrite Hs; auto using orb_true_r.
  - rewrite IHa; [reflexivity |]. exact H.
  - rewrite IHa; [reflexivity |]. exact H.
  - rewrite IHa; [reflexivity |]. exact H.
Qed.

Lemma eval_subs (env : string -> R) (x : string) (by_ e : sexpr) :
  eval env (subs x by_ e) =
    eval (fun s => if String.eqb s x then eval env by_ else env s) e.
Proof.
  induction e as [z | s | a IHa b IHb | a IHa b IHb | a IHa n | a IHa | a IHa];
    simpl; try congruence.
  destruct (String.eqb s x); reflexivity.
Qed.

Lemma eval_subs_zeros (xs : list string) (env : string -> R) (e : sexpr) :
  eval env (subs_list (map (fun x => (x, Num 0)) xs) e) = eval (zero_env xs env) e.
Proof.
  revert e. induction xs as [| x xs IH]; intros e; [reflexivity |].
  cbn [map subs_list fold_left fst snd].
  change (fold_left _ ?l ?a) with (subs_list l a).
  rewrite IH, eval_subs. apply eval_ext. intros s _.
  unfold zero_env. simpl. destruct (String.eqb s x); reflexivity.
Qed.

(** *** Dicts *)

Lemma dict_find_set_eq {A} (d : list (nat * A)) (k : nat) (v : A) :
  dict_find (dict_set d k v) k = Some v.
Proof.
  induction d as [| [k' v'] r IH]; simpl.
  - rewrite Nat.eqb_refl. reflexivity.
  - destruct (Nat.eqb_spec k' k) as [-> | Hne]; simpl.
    + rewrite Nat.eqb_refl. reflexivity.
    + destruct (Nat.eqb_spec k' k); [contradiction | exact IH].
Qed.

Lemma dict_find_set_ne {A} (d : list (nat * A)) (k k' : nat) (v : A) :
  k <> k' -> dict_find (dict_set d k v) k' = dict_find d k'.
Proof.
  intros Hne. induction d as [| [k0 v0] r IH]; simpl.
  - destruct (Nat.eqb_spec k k'); [contradiction | reflexivity].
  - destruct (Nat.eqb_spec k0 k) as [-> | H0]; simpl.
    + destruct (Nat.eqb_spec k k'); [contradiction | reflexivity].
    + destruct (k0 =? k')%nat; [reflexivity | exact IH].
Qed.

Lemma in_dict_set {A} (d : list (nat * A)) (k : nat) (v : A) (kv : nat * A) :
  In kv (dict_set d k v) -> kv = (k, v) \/ In kv d.
Proof.
  induction d as [| [k' v'] r IH]; simpl.
  - intros [<- | []]. left. reflexivity.
  - destruct (k' =? k)%nat; simpl.
    + intros [<- | H]; auto.
    + intros [<- | H]; auto. destruct (IH H); auto.
Qed.

Lemma dict_set_keeps_values {A} (d : list (nat * A)) (k : nat) (f : nat -> A)
  (kv : nat * A) :
  (forall p, In p d -> snd p = f (fst p)) ->
  In kv d -> exists kv', In kv' (dict_set d k (f k)) /\ snd kv' = snd kv.
Proof.
  intros Hwf. induction d as [| [k' v'] r IH]; intros Hin; [destruct Hin |].
  simpl. destruct (Nat.eqb_spec k' k) as [-> | Hne].
  - destruct Hin as [<- | Hin].
    + exists (k, f k). split; [left; reflexivity |].
      symmetry. apply (Hwf (k, v')). left. reflexivity.
    + exists kv. split; [right; exact Hin | reflexivity].
  - destruct Hin as [<- | Hin].
    + exists (k', v'). split; [left; reflexivity | reflexivity].
    + destruct IH as (kv' & Hin' & Heq); [| exact Hin |].
      * intros p Hp. apply Hwf. right. exact Hp.
      * exists kv'. split; [right; exact Hin' | exact Heq].
Qed.

Lemma in_dict_set_new {A} (d : list (nat * A)) (k : nat) (v : A) :
  In (k, v) (dict_set d k v).
Proof.
  induction d as [| [k' v'] r IH]; simpl; [left; reflexivity |].
  destruct (k' =? k)%nat; [left; reflexivity | right; exact IH].
Qed.

Lemma fill_zero_all (extended : list nat) (acc : list (nat * sexpr)) (i : nat) :
  In i extended \/ dict_find acc i = Some (Num 0) ->
  dict_find (fold_left (fun a j => dict_set a j (Num 0)) extended acc) i
  = Some (Num 0).
Proof.
  revert acc.
  induction extended as [| j r IH]; intros acc [Hin | Hfound]; simpl.
  - destruct Hin.
  - exact Hfound.
  - apply IH.
    destruct Hin as [-> | Hin]; [right; apply dict_find_set_eq | left; exact Hin].
  - apply IH. right.
    destruct (Nat.eq_dec j i) as [-> | Hne]; [apply dict_find_set_eq |].
    rewrite dict_find_set_ne by exact Hne. exact Hfound.
Qed.

Lemma fill_zero_shifts_empty (extended : list nat) (i : nat) :
  In i extended -> dict_find (fill_zero_shifts extended []) i = Some (Num 0).
Proof. intros Hin. apply fill_zero_all. left. exact Hin. Qed.

Section Shift.
Variable expand : sexpr -> sexpr.
Variable coeff : sexpr -> string -> sexpr.
Hypothesis expand_sound : forall env e, eval env (expand e) = eval env e.

(** One round of the loop of lines 739-746. *)
Let step (acc : list (nat * string) * sexpr) (var_index : nat) :=
  if nonzero (coeff (snd acc) (theta var_index)) then
    (dict_set (fst acc) var_index (delta_theta var_index),
     subs (theta var_index)
       (Add (Sym (theta var_index)) (Sym (delta_theta var_index)))
       (snd acc))
  else acc.

(** The shift symbols are named after their variables, belong to
    variables of the list, and shifting by symbols that are all zero
    does not change the value of the Hamiltonian. *)
Lemma introduce_shifts_inv (extended all : list nat) (H0 : sexpr)
  (acc : list (nat * string) * sexpr) :
  incl extended all ->
  (forall p, In p (fst acc) -> snd p = delta_theta (fst p) /\ In (fst p) all) ->
  (forall env, (forall p, In p (fst acc) -> env (snd p) = 0%R) ->
               eval env (snd acc) = eval env H0) ->
  let acc' := fold_left step extended acc in
  (forall p, In p (fst acc') -> snd p = delta_theta (fst p) /\ In (fst p) all)
  /\ (forall env, (forall p, In p (fst acc') -> env (snd p) = 0%R) ->
                  eval env (snd acc') = eval env H0).
Proof.
  revert acc. induction extended as [| v r IH]; intros acc Hincl Hwf Hev.
  - simpl. split; assumption.
  - cbn [fold_left]. apply IH.
    + intros x Hx. apply Hincl. right. exact Hx.
    + unfold step. destruct (nonzero (coeff (snd acc) (theta v))); [| exact Hwf].
      cbn [fst]. intros p Hp. apply in_dict_set in Hp as [-> | Hp].
      * split; [reflexivity | apply Hincl; left; reflexivity].
      * apply Hwf. exact Hp.
    + unfold step. destruct (nonzero (coeff (snd acc) (theta v))); [| exact Hev].
      cbn [fst snd]. intros env Henv.
      rewrite eval_subs.
      rewrite <- (Hev env).
      * apply eval_ext. intros s _. simpl.
        destruct (String.eqb_spec s (theta v)) as [-> | _]; [| reflexivity].
        pose proof (Henv (v, delta_theta v) (in_dict_set_new _ _ _)) as Hz.
        cbn [snd] in Hz. rewrite Hz. lra.
      * intros p Hp.
        destruct (dict_set_keeps_values (fst acc) v delta_theta p) as (p' & Hp' & Heq).
        -- intros q Hq. apply Hwf. exact Hq.
        -- exact Hp.
        -- rewrite <- Heq. apply Henv. exact Hp'.
Qed.

Lemma introduce_shifts_sound (extended : list nat) (H0 : sexpr) :
  let acc := introduce_shifts coeff extended H0 in
  (forall p, In p (fst acc) -> snd p = delta_theta (fst p) /\ In (fst p) extended)
  /\ (forall env, (forall p, In p (fst acc) -> env (snd p) = 0%R) ->
                  eval env (snd acc) = eval env H0).
Proof.
  apply (introduce_shifts_inv extended extended H0 ([], H0)).
  - apply incl_refl.
  - intros p [].
  - reflexivity.
Qed.

(** Setting every shift symbol to zero after the shift gives back the
    value of the unshifted Hamiltonian, provided the shift symbols are
    new. *)
Lemma zero_shift_value (extended : list nat) (H0 : sexpr) (env : string -> R) :
  (forall i, In i extended -> occurs (delta_theta i) H0 = false) ->
  eval env
    (apply_shifts (fst (introduce_shifts coeff extended (expand H0))) []
       (shifted_hamiltonian expand coeff extended H0))
  = eval env H0.
Proof.
  intros Hfresh. unfold apply_shifts, shifted_hamiltonian.
  cbn [map subs_list fold_left].
  change (fold_left _ ?l ?a) with (subs_list l a).
  destruct (introduce_shifts_sound extended (expand H0)) as [Hwf Hev].
  rewrite <- (map_map snd (fun x => (x, Num 0))).
  rewrite eval_subs_zeros, expand_sound, Hev.
  - rewrite expand_sound. apply eval_ext. intros s Hs. unfold zero_env.
    destruct (existsb (String.eqb s) _) eqn:Hex; [| reflexivity].
    apply existsb_exists in Hex as (x & Hx & Heq).
    apply String.eqb_eq in Heq. subst x.
    apply in_map_iff in Hx as (p & <- & Hp).
    destruct (Hwf p Hp) as [Hname Hin].
    rewrite Hname, (Hfresh _ Hin) in Hs. discriminate.
  - intros p Hp. unfold zero_env.
    replace (existsb _ _) with true; [reflexivity |].
    symmetry. apply existsb_exists. exists (snd p).
    split; [apply in_map; exact Hp | apply String.eqb_refl].
Qed.

End Shift.

(** C8. When [linsolve] returns no solution for the system of the flux
    shifts, the canonicalizer does not raise: it maps every extended
    variable to the shift 0, and the Hamiltonian it goes on with (before
    the constant is dropped) is the shifted one with every shift symbol
    set to 0, whose value is that of the unshifted Hamiltonian.
    [expand] is assumed to preserve the value of an expression and the
    shift symbols to be new. *)
Theorem zero_shift_fallback (expand : sexpr -> sexpr)
  (coeff : sexpr -> string -> sexpr)
  (linsolve : list sexpr -> list string -> list (list sexpr))
  (constant_term : sexpr -> sexpr)
  (extended : list nat) (hamiltonian_symbolic : sexpr) :
  (forall env e, eval env (expand e) = eval env e) ->
  (forall i, In i extended ->
             occurs (delta_theta i) hamiltonian_symbolic = false) ->
  linsolve (fst (shift_system expand coeff extended hamiltonian_symbolic))
           (snd (shift_system expand coeff extended hamiltonian_symbolic)) = [] ->
  exists H flux_shifts_dict,
    shift_fluxes expand coeff linsolve constant_term extended hamiltonian_symbolic
    = Ok (expand (Sub H (constant_term H)), flux_shifts_dict)
    /\ (forall i, In i extended -> dict_find flux_shifts_dict i = Some (Num 0))
    /\ (forall env, eval env H = eval env hamiltonian_symbolic).
Proof.
  intros Hexpand Hfresh Hnone.
  exists (apply_shifts
            (fst (introduce_shifts coeff extended (expand hamiltonian_symbolic))) []
            (shifted_hamiltonian expand coeff extended hamiltonian_symbolic)),
         (fill_zero_shifts extended []).
  split; [| split].
  - unfold shift_fluxes. cbv zeta.
    unfold shift_system in Hnone. cbn [fst snd] in Hnone.
    unfold shifted_hamiltonian in Hnone |- *.
    rewrite Hnone. cbn [first_solution].
    unfold dict_zip. rewrite combine_nil. reflexivity.
  - apply fill_zero_shifts_empty.
  - intros env. apply zero_shift_value; assumption.
Qed.

Lemma zero_shift_fallback_witness :
  exists H flux_shifts_dict,
    shift_fluxes expand_id coeff_one linsolve_none constant_zero
      [1; 2]%nat H_linear
    = Ok (expand_id (Sub H (constant_zero H)), flux_shifts_dict)
    /\ (forall i, In i [1; 2]%nat -> dict_find flux_shifts_dict i = Some (Num 0))
    /\ (forall env, eval env H = eval env H_linear).
Proof.
  apply (zero_shift_fallback expand_id coeff_one linsolve_none constant_zero
           [1; 2]%nat H_linear).
  - reflexivity.
  - intros i [<- | [<- | []]]; reflexivity.
  - reflexivity.
Defined.

Example shift_fluxes_no_solution :
  shift_fluxes expand_id coeff_one linsolve_none constant_zero [1; 2]%nat H_linear
  = Ok (Sub (Add (Add (Sym "θ1") (Num 0))
                 (Mul (Add (Sym "θ1") (Num 0)) (Add (Sym "θ2") (Num 0))))
            (Num 0),
        [(1%nat, Num 0); (2%nat, Num 0)]).
Proof. reflexivity. Qed.

End CanonFacts.

(** ** [SpectrumLookup]: bare labels and dressed indices *)

Module SpecLookupFacts.
Import SpecLookup PyFacts.

(** *** [itertools.product] *)

Lemma product_length (ranges : list (list nat)) :
  length (itertools_product ranges) = fold_right Nat.mul 1%nat (map (@length nat) ranges).
Proof.
  induction ranges as [| r rest IH]; [reflexivity |].
  cbn [itertools_product map fold_right]. rewrite <- IH.
  generalize (itertools_product rest) as ps. intros ps.
  induction r as [| x r IHr]; [reflexivity |].
  cbn [flat_map]. rewrite length_app, length_map, IHr. reflexivity.
Qed.

Lemma product_In (ranges : list (list nat)) (label : list nat) :
  In label (itertools_product ranges) <-> Forall2 (fun x r => In x r) label ranges.
Proof.
  revert label. induction ranges as [| r rest IH]; intros label; cbn [itertools_product].
  - split.
    + intros [<- | []]. constructor.
    + intros H. inversion H. left. reflexivity.
  - rewrite in_flat_map. split.
    + intros (x & Hx & Hl). apply in_map_iff in Hl as (tl & <- & Htl).
      constructor; [exact Hx | apply IH; exact Htl].
    + intros H. inversion H as [| x r' tl rest' Hx Htl]; subst.
      exists x. split; [exact Hx |]. apply in_map. apply IH. exact Htl.
Qed.

Lemma NoDup_flat_map_cons (r : list nat) (ps : list (list nat)) :
  List.NoDup r -> List.NoDup ps ->
  List.NoDup (flat_map (fun x => map (cons x) ps) r).
Proof.
  intros Hr Hps. induction Hr as [| x r Hx Hr IH]; [constructor |].
  cbn [flat_map]. apply List.NoDup_app; [| exact IH |].
  - clear -Hps. induction Hps as [| tl ps Htl _ IHps]; [constructor |].
    cbn [map]. constructor; [| exact IHps].
    intros Hin. apply in_map_iff in Hin as (tl' & Heq & Hin).
    inversion Heq; subst. contradiction.
  - intros l Hl Hl'. apply in_map_iff in Hl as (tl & <- & _).
    apply in_flat_map in Hl' as (y & Hy & Hl').
    apply in_map_iff in Hl' as (tl' & Heq & _).
    inversion Heq; subst. contradiction.
Qed.

Lemma product_NoDup (ranges : list (list nat)) :
  Forall (@List.NoDup nat) ranges -> List.NoDup (itertools_product ranges).
Proof.
  induction 1 as [| r rest Hr _ IH]; cbn [itertools_product].
  - constructor; [intros [] | constructor].
  - apply NoDup_flat_map_cons; assumption.
Qed.

(** *** [list.index] *)

Lemma list_index_None {A} `{EqDecision A} (x : A) (l : list A) :
  list_index x l = None <-> ~ In x l.
Proof.
  induction l as [| y r IH]; cbn [list_index].
  - split; [intros _ [] | reflexivity].
  - destruct (decide (y = x)) as [-> | Hne].
    + split; [discriminate | intros H; exfalso; apply H; left; reflexivity].
    + destruct (list_index x r) as [i |]; cbn.
      * split; [discriminate |]. intros H.
        assert (Hn : ~ In x r) by (intros Hr; apply H; right; exact Hr).
        apply IH in Hn. discriminate.
      * split; [| reflexivity]. intros _ [Heq | Hr]; [contradiction |].
        apply (proj1 IH eq_refl Hr).
Qed.

Lemma list_index_Some {A} `{EqDecision A} (x : A) (l : list A) (i : nat) :
  list_index x l = Some i ->
  nth_error l i = Some x /\ forall k y, (k < i)%nat -> nth_error l k = Some y -> y <> x.
Proof.
  revert i. induction l as [| y r IH]; intros i; cbn [list_index]; [discriminate |].
  destruct (decide (y = x)) as [-> | Hne].
  - intros [= <-]. split; [reflexivity | intros k y Hk; lia].
  - destruct (list_index x r) as [j |] eqn:E; cbn; [| discriminate].
    intros [= <-]. destruct (IH j eq_refl) as [Hn Hmin].
    split; [exact Hn |]. intros [| k] z Hk Hz.
    + cbn in Hz. inversion Hz; subst. exact Hne.
    + apply (Hmin k z); [lia | exact Hz].
Qed.

Lemma list_index_first {A} `{EqDecision A} (x : A) (l : list A) (i : nat) :
  nth_error l i = Some x ->
  (forall k y, (k < i)%nat -> nth_error l k = Some y -> y <> x) ->
  list_index x l = Some i.
Proof.
  revert i. induction l as [| y r IH]; intros [| i] Hn Hmin; cbn in Hn; try discriminate.
  - inversion Hn; subst. cbn [list_index]. destruct (decide (x = x)); [reflexivity | contradiction].
  - cbn [list_index]. destruct (decide (y = x)) as [-> | Hne].
    + exfalso. apply (Hmin 0%nat x); [lia | reflexivity | reflexivity].
    + rewrite (IH i Hn); [reflexivity |].
      intros k z Hk Hz. apply (Hmin (S k) z); [lia | exact Hz].
Qed.

Lemma list_index_NoDup {A} `{EqDecision A} (x : A) (l : list A) (i : nat) :
  List.NoDup l -> nth_error l i = Some x -> list_index x l = Some i.
Proof.
  intros Hnd Hn. apply list_index_first; [exact Hn |].
  intros k y Hk Hy ->.
  assert (k = i); [| lia].
  apply (proj1 (List.NoDup_nth_error l) Hnd); [| congruence].
  apply nth_error_Some. congruence.
Qed.

(** *** The canonical labels *)

Lemma mapM_nth_error {A B} (f : A -> B) (l : list A) (n : nat) :
  (n <= length l)%nat ->
  mapM (fun i => match nth_error l i with
                 | Some d => Ok (f d)
                 | None => Raise IndexError
                 end) (seq 0 n)
  = Ok (map f (firstn n l)).
Proof.
  revert n. induction l as [| x r IH]; intros n Hn.
  - simpl in Hn. assert (n = 0%nat) as -> by lia. reflexivity.
  - destruct n as [| n]; [reflexivity |].
    simpl in Hn. cbn [seq firstn mapM map]. rewrite <- seq_shift.
    rewrite DimensionFacts.mapM_map. cbn [nth_error bind].
    rewrite (IH n) by lia. reflexivity.
Qed.

Lemma generate_bare_labels_value (hs : hilbertspace) :
  subsystem_count hs = length (subsystem_dims hs) ->
  _generate_bare_labels hs = Ok (itertools_product (map (seq 0) (subsystem_dims hs))).
Proof.
  intros Hc. unfold _generate_bare_labels.
  rewrite (mapM_nth_error (seq 0)) by lia.
  rewrite Hc, firstn_all. reflexivity.
Qed.

Lemma Forall2_seq_lt (label dims : list nat) :
  Forall2 (fun x r => In x r) label (map (seq 0) dims)
  <-> Forall2 (fun x d => (x < d)%nat) label dims.
Proof.
  revert label. induction dims as [| d ds IH]; intros label; cbn [map].
  - split; intros H; inversion H; constructor.
  - split; intros H; inversion H as [| x r tl rest Hx Htl]; subst; constructor;
      try (apply IH; exact Htl).
    + apply in_seq in Hx. lia.
    + apply in_seq. lia.
Qed.

(** X1. The canonical list of bare labels has as many members as the
    product of the subsystem dimensions. *)
Theorem bare_labels_count (hs : hilbertspace) :
  subsystem_count hs = length (subsystem_dims hs) ->
  exists labels,
    _generate_bare_labels hs = Ok labels
    /\ length labels = fold_right Nat.mul 1%nat (subsystem_dims hs).
Proof.
  intros Hc. eexists. split; [apply generate_bare_labels_value; exact Hc |].
  rewrite product_length, map_map.
  f_equal. rewrite <- (map_id (subsystem_dims hs)) at 2.
  apply map_ext. intros d. apply length_seq.
Qed.

Lemma bare_labels_count_witness :
  exists labels,
    _generate_bare_labels hs_2_3 = Ok labels
    /\ length labels = fold_right Nat.mul 1%nat (subsystem_dims hs_2_3).
Proof. exact (bare_labels_count hs_2_3 eq_refl). Defined.

(** X2. The canonical list holds every tuple of bare-state indices below
    the subsystem dimensions, each exactly once, and nothing else. *)
Theorem bare_labels_exactly_once (hs : hilbertspace) :
  subsystem_count hs = length (subsystem_dims hs) ->
  exists labels,
    _generate_bare_labels hs = Ok labels
    /\ List.NoDup labels
    /\ forall label,
         In label labels
         <-> Forall2 (fun x d => (x < d)%nat) label (subsystem_dims hs).
Proof.
  intros Hc. eexists. split; [apply generate_bare_labels_value; exact Hc |]. split.
  - apply product_NoDup. apply Forall_forall. intros r Hr.
    apply list_elem_of_In, in_map_iff in Hr as (d & <- & _). apply seq_NoDup.
  - intros label. rewrite product_In. apply Forall2_seq_lt.
Qed.

Lemma bare_labels_exactly_once_witness :
  exists labels,
    _generate_bare_labels hs_2_3 = Ok labels
    /\ List.NoDup labels
    /\ forall label,
         In label labels
         <-> Forall2 (fun x d => (x < d)%nat) label (subsystem_dims hs_2_3).
Proof. exact (bare_labels_exactly_once hs_2_3 eq_refl). Defined.

Section Built.
Context {A En : Type}.
Variable np_abs : A -> Q.
Variable hs : hilbertspace.
Variable dressed_specdata : @spectrum_data A En.
Variable self : @spectrum_lookup A En.
Hypothesis count : subsystem_count hs = length (subsystem_dims hs).
Hypothesis built : init np_abs hs dressed_specdata = Ok self.

Lemma init_labels :
  _canonical_bare_labels self = itertools_product (map (seq 0) (subsystem_dims hs)).
Proof.
  unfold init in built. rewrite (generate_bare_labels_value hs count) in built.
  cbn [bind] in built.
  destruct (_generate_mappings np_abs hs dressed_specdata); cbn [bind] in built;
    inversion built. reflexivity.
Qed.

Lemma init_labels_NoDup : List.NoDup (_canonical_bare_labels self).
Proof.
  rewrite init_labels. apply product_NoDup. apply Forall_forall. intros r Hr.
  apply list_elem_of_In, in_map_iff in Hr as (d & <- & _). apply seq_NoDup.
Qed.

Lemma init_labels_In (label : list nat) :
  In label (_canonical_bare_labels self)
  <-> Forall2 (fun x d => (x < d)%nat) label (subsystem_dims hs).
Proof. rewrite init_labels, product_In. apply Forall2_seq_lt. Qed.

Lemma dressed_index_invalid (bare_labels : list nat) (param_index : nat) :
  ~ Forall2 (fun x d => (x < d)%nat) bare_labels (subsystem_dims hs) ->
  dressed_index self bare_labels param_index = Ok None.
Proof.
  intros Hbad. unfold dressed_index.
  replace (list_index bare_labels (_canonical_bare_labels self)) with (@None nat);
    [reflexivity |].
  symmetry. apply list_index_None. rewrite init_labels_In. exact Hbad.
Qed.

Lemma bare_index_dressed_index (j : option nat) (label : list nat) (param_index : nat) :
  bare_index self j param_index = Ok (Some label) ->
  dressed_index self label param_index = Ok j.
Proof.
  unfold bare_index, dressed_index.
  destruct (item (_dressed_indices self) param_index) as [mapping | e];
    cbn [bind]; [| discriminate].
  destruct (list_index j mapping) as [q |] eqn:Hq; [| discriminate].
  unfold item at 1.
  destruct (nth_error (_canonical_bare_labels self) q) as [l |] eqn:Hl;
    cbn [bind]; [| discriminate].
  intros [= ->].
  rewrite (list_index_NoDup label _ q init_labels_NoDup Hl).
  apply list_index_Some in Hq as [Hq _]. unfold item. rewrite Hq. reflexivity.
Qed.

Lemma dressed_index_bare_index (j : option nat) (label : list nat) (param_index : nat) :
  Forall2 (fun x d => (x < d)%nat) label (subsystem_dims hs) ->
  dressed_index self label param_index = Ok j ->
  (forall label',
     Forall2 (fun x d => (x < d)%nat) label' (subsystem_dims hs) ->
     dressed_index self label' param_index = Ok j -> label' = label) ->
  bare_index self j param_index = Ok (Some label).
Proof.
  intros Hvalid Hd Honly.
  apply init_labels_In in Hvalid.
  destruct (list_index label (_canonical_bare_labels self)) as [q |] eqn:Hq.
  2: { apply list_index_None in Hq. contradiction. }
  pose proof (list_index_Some _ _ _ Hq) as [Hlq _].
  unfold dressed_index in Hd. rewrite Hq in Hd.
  unfold bare_index.
  destruct (item (_dressed_indices self) param_index) as [mapping | e] eqn:Hm;
    cbn [bind] in Hd |- *; [| discriminate].
  unfold item in Hd.
  destruct (nth_error mapping q) as [j' |] eqn:Hj; [| discriminate].
  inversion Hd; subst j'.
  rewrite (list_index_first j mapping q Hj).
  - unfold item. rewrite Hlq. reflexivity.
  - intros k y Hk Hy ->.
    assert (Hkl : (k < length (_canonical_bare_labels self))%nat).
    { apply Nat.lt_trans with q; [exact Hk |]. apply nth_error_Some. congruence. }
    destruct (nth_error (_canonical_bare_labels self) k) as [label' |] eqn:Hl'.
    2: { apply nth_error_None in Hl'. lia. }
    assert (label' = label).
    { apply Honly.
      - apply init_labels_In. eapply nth_error_In. exact Hl'.
      - unfold dressed_index.
        rewrite (list_index_NoDup label' _ k init_labels_NoDup Hl'), Hm.
        cbn [bind]. unfold item. rewrite Hy. reflexivity. }
    subst label'.
    assert (k = q); [| lia].
    apply (proj1 (List.NoDup_nth_error _) init_labels_NoDup); [exact Hkl | congruence].
Qed.

End Built.

(** X3. On a lookup built by the constructor, [dressed_index] answers
    [None] for a tuple that is not a bare label of the Hilbert space
    (wrong length or an index out of range), whatever the parameter
    index: the [ValueError] of [list.index] is caught before anything
    else is read. *)
Theorem dressed_index_unknown_label {A En : Type} (np_abs : A -> Q)
  (hs : hilbertspace) (dressed_specdata : @spectrum_data A En)
  (self : @spectrum_lookup A En) (bare_labels : list nat) (param_index : nat) :
  subsystem_count hs = length (subsystem_dims hs) ->
  init np_abs hs dressed_specdata = Ok self ->
  ~ Forall2 (fun x d => (x < d)%nat) bare_labels (subsystem_dims hs) ->
  dressed_index self bare_labels param_index = Ok None.
Proof. intros. eapply dressed_index_invalid; eassumption. Qed.

(** X4. On a lookup built by the constructor, whenever [bare_index]
    translates a dressed index (or [None]) to a bare label,
    [dressed_index] translates that label back to it. *)
Theorem bare_index_round_trip {A En : Type} (np_abs : A -> Q)
  (hs : hilbertspace) (dressed_specdata : @spectrum_data A En)
  (self : @spectrum_lookup A En) (j : option nat) (label : list nat)
  (param_index : nat) :
  subsystem_count hs = length (subsystem_dims hs) ->
  init np_abs hs dressed_specdata = Ok self ->
  bare_index self j param_index = Ok (Some label) ->
  dressed_index self label param_index = Ok j.
Proof. intros. eapply bare_index_dressed_index; eassumption. Qed.

(** X5. Conversely, when [dressed_index] translates a bare label of the
    Hilbert space to [j] and no other bare label is translated to [j],
    [bare_index] translates [j] back to that label. *)
Theorem dressed_index_round_trip {A En : Type} (np_abs : A -> Q)
  (hs : hilbertspace) (dressed_specdata : @spectrum_data A En)
  (self : @spectrum_lookup A En) (j : option nat) (label : list nat)
  (param_index : nat) :
  subsystem_count hs = length (subsystem_dims hs) ->
  init np_abs hs dressed_specdata = Ok self ->
  Forall2 (fun x d => (x < d)%nat) label (subsystem_dims hs) ->
  dressed_index self label param_index = Ok j ->
  (forall label',
     Forall2 (fun x d => (x < d)%nat) label' (subsystem_dims hs) ->
     dressed_index self label' param_index = Ok j -> label' = label) ->
  bare_index self j param_index = Ok (Some label).
Proof. intros. eapply dressed_index_bare_index; eassumption. Qed.

Import SpecLookupExamples.

Lemma init_2_2 : init Qabs hs_2_2 data_2_2 = Ok lookup_2_2.
Proof. vm_compute. reflexivity. Qed.

Lemma valid_2_2 (label : list nat) :
  Forall2 (fun x d => (x < d)%nat) label (subsystem_dims hs_2_2) ->
  label = [0; 0]%nat \/ label = [0; 1]%nat \/ label = [1; 0]%nat \/ label = [1; 1]%nat.
Proof.
  intros H. inversion H as [| a d l ds Ha H1]; subst.
  inversion H1 as [| b d' l' ds' Hb H2]; subst. inversion H2; subst.
  destruct a as [| [| a]]; destruct b as [| [| b]]; try lia; tauto.
Qed.

Lemma dressed_index_unknown_label_witness :
  dressed_index lookup_2_2 [2; 0]%nat 7 = Ok None.
Proof.
  apply (dressed_index_unknown_label Qabs hs_2_2 data_2_2 lookup_2_2 [2; 0]%nat 7
           eq_refl init_2_2).
  intros H. apply valid_2_2 in H as [H | [H | [H | H]]]; discriminate.
Defined.

Lemma bare_index_round_trip_witness :
  dressed_index lookup_2_2 [0; 1]%nat 0 = Ok (Some 2%nat).
Proof.
  exact (bare_index_round_trip Qabs hs_2_2 data_2_2 lookup_2_2 (Some 2%nat)
           [0; 1]%nat 0 eq_refl init_2_2 eq_refl).
Defined.

Lemma dressed_index_round_trip_witness :
  bare_index lookup_2_2 (Some 1%nat) 0 = Ok (Some [1; 0]%nat).
Proof.
  apply (dressed_index_round_trip Qabs hs_2_2 data_2_2 lookup_2_2 (Some 1%nat)
           [1; 0]%nat 0 eq_refl init_2_2).
  - repeat constructor.
  - reflexivity.
  - intros label' Hv Hd.
    apply valid_2_2 in Hv as [-> | [-> | [-> | ->]]];
      vm_compute in Hd; try discriminate; reflexivity.
Defined.

(** *** [argmax] and the assignment of dressed indices *)

Lemma argmax_from_spec (l : list Q) (best_pos : nat) (best : Q) (pos : nat) :
  (best_pos < pos)%nat ->
  exists v,
    ((argmax_from best_pos best pos l = best_pos /\ v = best)
     \/ ((pos <= argmax_from best_pos best pos l)%nat
         /\ nth_error l (argmax_from best_pos best pos l - pos) = Some v))
    /\ (best <= v)%Q
    /\ forall x, In x l -> (x <= v)%Q.
Proof.
  revert best_pos best pos. induction l as [| x r IH]; intros bp b pos Hlt.
  - exists b. cbn. split; [left; split; reflexivity |].
    split; [apply Qle_refl | intros x []].
  - cbn [argmax_from]. destruct (Qle_bool x b) eqn:Hxb.
    + apply Qle_bool_iff in Hxb.
      destruct (IH bp b (S pos)) as (v & Hpos & Hb & Hmax); [lia |].
      exists v. split; [| split; [exact Hb |]].
      * destruct Hpos as [Hk | [Hk Hn]]; [left; exact Hk | right].
        split; [lia |].
        replace (argmax_from bp b (S pos) r - pos)%nat
          with (S (argmax_from bp b (S pos) r - S pos)) by lia.
        exact Hn.
      * intros y [<- | Hy]; [apply Qle_trans with b; assumption | apply Hmax; exact Hy].
    + assert (Hbx : (b <= x)%Q).
      { apply Qlt_le_weak, Qnot_le_lt. intros H. apply Qle_bool_iff in H. congruence. }
      destruct (IH pos x (S pos)) as (v & Hpos & Hx & Hmax); [lia |].
      exists v. split; [| split; [apply Qle_trans with x; assumption |]].
      * right. destruct Hpos as [[Hk Hv] | [Hk Hn]].
        -- rewrite Hk, Nat.sub_diag. split; [lia | subst v; reflexivity].
        -- split; [lia |].
           replace (argmax_from pos x (S pos) r - pos)%nat
             with (S (argmax_from pos x (S pos) r - S pos)) by lia.
           exact Hn.
      * intros y [<- | Hy]; [exact Hx | apply Hmax; exact Hy].
Qed.

Lemma argmax_spec (l : list Q) (k : nat) :
  argmax l = Ok k ->
  exists v, nth_error l k = Some v /\ forall x, In x l -> (x <= v)%Q.
Proof.
  destruct l as [| x r]; cbn [argmax]; [discriminate |]. intros [= <-].
  destruct (argmax_from_spec r 0 x 1) as (v & Hpos & Hx & Hmax); [lia |].
  exists v. split.
  - destruct Hpos as [[-> ->] | [Hk Hn]]; [reflexivity |].
    replace (argmax_from 0 x 1 r) with (S (argmax_from 0 x 1 r - 1)) by lia.
    exact Hn.
  - intros y [<- | Hy]; [exact Hx | apply Hmax; exact Hy].
Qed.

Lemma mapM_Forall2 {X Y} (f : X -> result Y) (l : list X) (m : list Y) :
  mapM f l = Ok m -> Forall2 (fun x y => f x = Ok y) l m.
Proof.
  revert m. induction l as [| x r IH]; intros m; cbn [mapM].
  - intros [= <-]. constructor.
  - destruct (f x) as [y | e] eqn:Hy; cbn [bind]; [| discriminate].
    destruct (mapM f r) as [ys | e]; cbn [bind]; [| discriminate].
    intros [= <-]. constructor; [exact Hy | apply IH; reflexivity].
Qed.

Lemma Forall2_at {X Y} (R : X -> Y -> Prop) (l : list X) (m : list Y)
  (i : nat) (x : X) (y : Y) :
  Forall2 R l m -> nth_error l i = Some x -> nth_error m i = Some y -> R x y.
Proof.
  intros H. revert i. induction H as [| a b l m Hab _ IH]; intros [| i] Hx Hy;
    cbn in Hx, Hy; try discriminate.
  - inversion Hx; inversion Hy; subst. exact Hab.
  - eapply IH; eassumption.
Qed.

Lemma mapM_total {X Y} (f : X -> result Y) (l : list X) :
  (forall x, In x l -> exists y, f x = Ok y) -> exists m, mapM f l = Ok m.
Proof.
  induction l as [| x r IH]; intros H; [exists []; reflexivity |].
  destruct (H x (or_introl eq_refl)) as [y Hy].
  destruct IH as [ys Hys]; [intros z Hz; apply H; right; exact Hz |].
  exists (y :: ys). cbn [mapM]. rewrite Hy, Hys. reflexivity.
Qed.

Section Assignment.
Context {A : Type}.
Variable np_abs : A -> Q.

Lemma column_spec (overlap_matrix : list (list A)) (b : nat) (col : list A) :
  column overlap_matrix b = Ok col ->
  Forall2 (fun row a => nth_error row b = Some a) overlap_matrix col.
Proof.
  intros H. apply mapM_Forall2 in H.
  eapply Forall2_impl; [exact H |].
  intros row a. unfold item. destruct (nth_error row b); [| discriminate].
  intros [= ->]. reflexivity.
Qed.

Lemma column_entry (overlap_matrix : list (list A)) (b : nat) (col : list A)
  (j : nat) (row : list A) (a : A) :
  Forall2 (fun row a => nth_error row b = Some a) overlap_matrix col ->
  nth_error overlap_matrix j = Some row -> nth_error row b = Some a ->
  nth_error col j = Some a.
Proof.
  intros H. revert j. induction H as [| r c rs cs Hrc _ IH]; intros [| j] Hj Ha;
    cbn in Hj |- *; try discriminate.
  - inversion Hj; subst. congruence.
  - apply IH; assumption.
Qed.

Lemma column_entry_inv (overlap_matrix : list (list A)) (b : nat) (col : list A)
  (j : nat) (a : A) :
  Forall2 (fun row a => nth_error row b = Some a) overlap_matrix col ->
  nth_error col j = Some a ->
  exists row, nth_error overlap_matrix j = Some row /\ nth_error row b = Some a.
Proof.
  intros H. revert j. induction H as [| r c rs cs Hrc _ IH]; intros [| j] Hj;
    cbn in Hj |- *; try discriminate.
  - inversion Hj; subst. exists r. split; [reflexivity | exact Hrc].
  - apply IH. exact Hj.
Qed.

Lemma single_assignment_sound (overlap_matrix : list (list A)) (b : nat)
  (r : option nat) :
  single_assignment np_abs overlap_matrix b = Ok r ->
  assignment_ok np_abs overlap_matrix b r.
Proof.
  unfold single_assignment.
  destruct (column overlap_matrix b) as [col | e] eqn:Hcol; cbn [bind]; [| discriminate].
  apply column_spec in Hcol.
  destruct (argmax (map np_abs col)) as [k | e] eqn:Hk; cbn [bind]; [| discriminate].
  apply argmax_spec in Hk as (v & Hv & Hmax).
  rewrite nth_error_map in Hv.
  unfold item. destruct (nth_error col k) as [a |] eqn:Ha; cbn [bind]; [| discriminate].
  cbn in Hv. inversion Hv; subst v.
  assert (Hall : forall j' row' a',
             nth_error overlap_matrix j' = Some row' -> nth_error row' b = Some a' ->
             (np_abs a' <= np_abs a)%Q).
  { intros j' row' a' Hr Ha'. apply Hmax. apply in_map.
    eapply nth_error_In. eapply column_entry; eassumption. }
  destruct (Qle_bool (1 # 2) (np_abs a)) eqn:Hhalf; cbn [negb]; intros [= <-].
  - destruct (column_entry_inv _ _ _ _ _ Hcol Ha) as (row & Hrow & Hra).
    exists row, a. repeat split; try assumption. apply Qle_bool_iff. exact Hhalf.
  - intros j' row' a' Hr Ha'.
    apply Qle_lt_trans with (np_abs a); [eapply Hall; eassumption |].
    apply Qnot_le_lt. intros H. apply Qle_bool_iff in H. congruence.
Qed.

Lemma single_assignment_total (overlap_matrix : list (list A)) (b : nat) :
  overlap_matrix <> [] ->
  Forall (fun row => (b < length row)%nat) overlap_matrix ->
  exists r, single_assignment np_abs overlap_matrix b = Ok r.
Proof.
  intros Hne Hrows. unfold single_assignment.
  destruct (mapM_total (fun row => item row b) overlap_matrix) as [col Hcol].
  { intros row Hrow. unfold item.
    destruct (nth_error row b) as [a |] eqn:Ha; [exists a; reflexivity |].
    apply nth_error_None in Ha.
    pose proof (proj1 (Forall_forall _ _) Hrows row (proj2 (list_elem_of_In _ _) Hrow)).
    cbn in H. lia. }
  unfold column. rewrite Hcol. cbn [bind].
  pose proof (mapM_Forall2 _ _ _ Hcol) as HF.
  destruct col as [| a0 col'].
  { inversion HF. subst. contradiction. }
  cbn [map argmax bind].
  destruct (argmax_from_spec (map np_abs col') 0 (np_abs a0) 1) as (v & Hpos & _);
    [lia |].
  set (k := argmax_from 0 (np_abs a0) 1 (map np_abs col')) in *.
  assert (Hk : exists a, nth_error (a0 :: col') k = Some a).
  { destruct Hpos as [[-> _] | [Hle Hn]]; [exists a0; reflexivity |].
    rewrite nth_error_map in Hn.
    destruct (nth_error col' (k - 1)) as [a |] eqn:Ha; [| discriminate].
    exists a. replace k with (S (k - 1)) by lia. exact Ha. }
  destruct Hk as [a Ha]. unfold item. rewrite Ha. cbn [bind].
  destruct (negb (Qle_bool (1 # 2) (np_abs a))); eexists; reflexivity.
Qed.

End Assignment.

(** X6. For a non-empty overlap matrix with a row entry for every bare
    basis index, [_generate_single_mapping] returns one entry per bare
    basis index. An entry [j] names a dressed state whose overlap with
    that bare state is at least 1/2 and is the largest of all dressed
    states; an entry [None] means that no dressed state reaches the
    overlap 1/2. *)
Theorem single_mapping_assignments {A En : Type} (np_abs : A -> Q)
  (hs : hilbertspace) (dressed_specdata : @spectrum_data A En)
  (param_index : nat) (overlap_matrix : list (list A)) :
  nth_error (state_table dressed_specdata) param_index = Some overlap_matrix ->
  overlap_matrix <> [] ->
  Forall (fun row => (dimension hs <= length row)%nat) overlap_matrix ->
  exists mapping,
    _generate_single_mapping np_abs hs dressed_specdata param_index = Ok mapping
    /\ length mapping = dimension hs
    /\ forall b r, nth_error mapping b = Some r ->
                   assignment_ok np_abs overlap_matrix b r.
Proof.
  intros Hp Hne Hrows. unfold _generate_single_mapping, item. rewrite Hp. cbn [bind].
  destruct (mapM_total (single_assignment np_abs overlap_matrix) (seq 0 (dimension hs)))
    as [mapping Hm].
  { intros b Hb. apply in_seq in Hb. apply single_assignment_total; [exact Hne |].
    eapply Forall_impl; [exact Hrows |]. intros row Hrow. cbn in *. lia. }
  exists mapping. split; [exact Hm |].
  apply mapM_Forall2 in Hm.
  split.
  - rewrite <- (Forall2_length _ _ _ Hm). apply length_seq.
  - intros b r Hr.
    assert (Hb : nth_error (seq 0 (dimension hs)) b = Some b).
    { assert (b < length mapping)%nat by (apply nth_error_Some; congruence).
      rewrite <- (Forall2_length _ _ _ Hm), length_seq in H.
      rewrite nth_error_nth' with (d := 0%nat) by (rewrite length_seq; exact H).
      rewrite seq_nth by exact H. reflexivity. }
    apply single_assignment_sound.
    exact (Forall2_at _ _ _ b b r Hm Hb Hr).
Qed.

Lemma single_mapping_assignments_witness :
  exists mapping,
    _generate_single_mapping Qabs hs_2_2 data_2_2 0 = Ok mapping
    /\ length mapping = dimension hs_2_2
    /\ forall b r, nth_error mapping b = Some r ->
                   assignment_ok Qabs
                     [[1; 0; 0; 0];
                      [0; 1 # 10; 9 # 10; 2 # 5];
                      [0; - (9 # 10); 1 # 10; 2 # 5];
                      [0; 0; 0; 2 # 5]]%Q b r.
Proof.
  apply (single_mapping_assignments Qabs hs_2_2 data_2_2 0).
  - reflexivity.
  - discriminate.
  - repeat constructor.
Defined.

(** *** The position of a label *)

Lemma list_index_app {X} `{EqDecision X} (x : X) (l1 l2 : list X) :
  list_index x (l1 ++ l2) =
    match list_index x l1 with
    | Some i => Some i
    | None => option_map (Nat.add (length l1)) (list_index x l2)
    end.
Proof.
  induction l1 as [| y r IH]; cbn [app list_index length].
  - destruct (list_index x l2); reflexivity.
  - destruct (decide (y = x)); [reflexivity |]. rewrite IH.
    destruct (list_index x r); [reflexivity |].
    destruct (list_index x l2); reflexivity.
Qed.

Lemma list_index_map_cons (x : nat) (xs : list nat) (ps : list (list nat)) :
  list_index (x :: xs) (map (cons x) ps) = list_index xs ps.
Proof.
  induction ps as [| p ps IH]; [reflexivity |]. cbn [map list_index].
  destruct (decide (p = xs)) as [-> | Hne].
  - destruct (decide (x :: xs = x :: xs)); [reflexivity | contradiction].
  - destruct (decide (x :: p = x :: xs)) as [Heq | _]; [inversion Heq; contradiction |].
    rewrite IH. reflexivity.
Qed.

Lemma list_index_map_cons_other (x y : nat) (xs : list nat) (ps : list (list nat)) :
  y <> x -> list_index (x :: xs) (map (cons y) ps) = None.
Proof.
  intros Hne. apply list_index_None. intros Hin.
  apply in_map_iff in Hin as (p & Heq & _). inversion Heq. contradiction.
Qed.

Lemma list_index_blocks (x : nat) (xs : list nat) (ps : list (list nat))
  (start n : nat) :
  (start <= x < start + n)%nat ->
  list_index (x :: xs) (flat_map (fun y => map (cons y) ps) (seq start n)) =
    option_map (Nat.add ((x - start) * length ps)) (list_index xs ps).
Proof.
  revert start. induction n as [| n IH]; intros start Hx; [lia |].
  cbn [seq flat_map]. rewrite list_index_app.
  destruct (Nat.eq_dec start x) as [-> | Hne].
  - rewrite list_index_map_cons, Nat.sub_diag.
    destruct (list_index xs ps) as [i |] eqn:Hi; [reflexivity |].
    cbn [option_map].
    replace (list_index (x :: xs) (flat_map (fun y => map (cons y) ps) (seq (S x) n)))
      with (@None nat); [reflexivity |].
    symmetry. apply list_index_None. intros Hin.
    apply in_flat_map in Hin as (y & _ & Hin).
    apply in_map_iff in Hin as (p & Heq & Hp). inversion Heq; subst.
    apply list_index_None in Hi. contradiction.
  - rewrite list_index_map_cons_other by exact Hne.
    rewrite IH by lia. rewrite length_map.
    destruct (list_index xs ps) as [i |]; [| reflexivity].
    cbn [option_map]. f_equal.
    replace (x - start)%nat with (S (x - S start)) by lia. lia.
Qed.

Lemma product_seq_length (dims : list nat) :
  length (itertools_product (map (seq 0) dims)) = fold_right Nat.mul 1%nat dims.
Proof.
  rewrite product_length, map_map. f_equal.
  rewrite <- (map_id dims) at 2. apply map_ext. intros d. apply length_seq.
Qed.

Lemma product_position (dims label : list nat) :
  Forall2 (fun x d => (x < d)%nat) label dims ->
  list_index label (itertools_product (map (seq 0) dims)) = Some (label_rank dims label).
Proof.
  induction 1 as [| x d xs ds Hx _ IH].
  - reflexivity.
  - cbn [map itertools_product label_rank].
    rewrite list_index_blocks by lia. rewrite IH. cbn [option_map].
    rewrite Nat.sub_0_r, product_seq_length. reflexivity.
Qed.

(** X7. The canonical list is in row-major order: the position of a
    bare label is its mixed-radix number, with the last subsystem
    counting units. *)
Theorem bare_label_position (hs : hilbertspace) (label : list nat) :
  subsystem_count hs = length (subsystem_dims hs) ->
  Forall2 (fun x d => (x < d)%nat) label (subsystem_dims hs) ->
  exists labels,
    _generate_bare_labels hs = Ok labels
    /\ list_index label labels = Some (label_rank (subsystem_dims hs) label).
Proof.
  intros Hc Hv. eexists. split; [apply generate_bare_labels_value; exact Hc |].
  apply product_position. exact Hv.
Qed.

Lemma bare_label_position_witness :
  exists labels,
    _generate_bare_labels hs_2_3 = Ok labels
    /\ list_index [1; 2]%nat labels = Some 5%nat.
Proof.
  apply (bare_label_position hs_2_3 [1; 2]%nat eq_refl). repeat constructor.
Defined.

End SpecLookupFacts.

(** ** Symbol names, trailing numbers and matrix powers *)

Module VarsFacts.
Import Names Vars NameFacts.
Local Open Scope string_scope.

Lemma int_of_uint_acc (d : Decimal.uint) (acc : nat) :
  Z.of_nat (Nat.of_uint_acc d acc) =
    int_of_digits (Z.of_nat acc) (NilEmpty.string_of_uint d).
Proof.
  revert acc.
  induction d; intros acc; cbn [Nat.of_uint_acc NilEmpty.string_of_uint int_of_digits];
    [reflexivity | rewrite IHd; f_equal; rewrite Nat.tail_mul_spec;
                   cbv [nat_of_ascii]; cbn; lia ..].
Qed.

Lemma int_of_digits_str (n : nat) : int_of_digits 0 (str n) = Z.of_nat n.
Proof.
  pose proof (int_of_uint_acc (Nat.to_uint n) 0) as H.
  change (Z.of_nat 0) with 0%Z in H. unfold str. rewrite <- H.
  change (Nat.of_uint_acc (Nat.to_uint n) 0) with (Nat.of_uint (Nat.to_uint n)).
  rewrite Unsigned.of_to. reflexivity.
Qed.

Lemma str_nonempty (n : nat) : str n <> "".
Proof.
  unfold str. intros H.
  assert (Hn : Nat.to_uint n = Decimal.Nil).
  { destruct (Nat.to_uint n); try discriminate. reflexivity. }
  pose proof (Unsigned.of_to n) as Hof. rewrite Hn in Hof. cbn in Hof. subst n.
  discriminate.
Qed.

Lemma all_digits_append_false (p d : string) :
  p <> "" -> no_trailing_digit p = true -> all_digits (p ++ d) = false.
Proof.
  induction p as [| c r IH]; intros Hne Hp; [contradiction |].
  cbn [String.append all_digits]. destruct r as [| c' r'].
  - cbn [no_trailing_digit] in Hp. apply negb_true_iff in Hp.
    change (is_digit c && all_digits d = false). rewrite Hp. reflexivity.
  - change (is_digit c && all_digits (String c' r' ++ d) = false).
    rewrite IH; [apply andb_false_r | discriminate | exact Hp].
Qed.

Lemma trailing_digits_all (d : string) : all_digits d = true -> trailing_digits d = d.
Proof. destruct d as [| c r]; intros H; [reflexivity |]. cbn [trailing_digits]. rewrite H. reflexivity. Qed.

Lemma trailing_digits_append (p d : string) :
  no_trailing_digit p = true -> all_digits d = true -> trailing_digits (p ++ d) = d.
Proof.
  intros Hp Hd. induction p as [| c r IH]; [apply trailing_digits_all; exact Hd |].
  change (String c r ++ d) with (String c (r ++ d)). cbn [trailing_digits].
  change (String c (r ++ d)) with (String c r ++ d).
  rewrite all_digits_append_false by (discriminate || exact Hp).
  apply IH. destruct r; [reflexivity | exact Hp].
Qed.

Lemma trailing_number_of_str (prefix : string) (n : nat) :
  no_trailing_digit prefix = true ->
  get_trailing_number (prefix ++ str n) = Some (Z.of_nat n).
Proof.
  intros Hp. unfold get_trailing_number.
  rewrite trailing_digits_append by (exact Hp || apply str_digits).
  destruct (str n) eqn:E; [exfalso; exact (str_nonempty n E) |].
  rewrite <- E, int_of_digits_str. reflexivity.
Qed.

Lemma ends_in_ascii_nondigit_no_digit (s : string) :
  ends_in_ascii_nondigit s = true -> no_trailing_digit s = true.
Proof.
  induction s as [| c r IH]; [reflexivity |].
  cbn [ends_in_ascii_nondigit no_trailing_digit]. destruct r as [| c' r'].
  - intros H. apply andb_true_iff in H as [_ H]. exact H.
  - exact IH.
Qed.

(** X8. [get_trailing_number] reads back the index that [str] wrote at
    the end of a name, provided the part before it is empty or ends in
    an ASCII character that is not a digit:
    [get_trailing_number(prefix + str(n)) == n]. *)
Theorem get_trailing_number_str (prefix : string) (n : nat) :
  ends_in_ascii_nondigit prefix = true ->
  get_trailing_number (prefix ++ str n) = Some (Z.of_nat n).
Proof.
  intros H. apply trailing_number_of_str, ends_in_ascii_nondigit_no_digit. exact H.
Qed.

Lemma get_trailing_number_str_witness :
  get_trailing_number ("cutoff_ext_" ++ str 12) = Some 12%Z.
Proof. exact (get_trailing_number_str "cutoff_ext_" 12 eq_refl). Defined.

Lemma symbols_trailing (prefix : string) (indices : list nat) :
  no_trailing_digit prefix = true ->
  map get_trailing_number (symbols prefix indices) = map (fun i => Some (Z.of_nat i)) indices.
Proof.
  intros Hp. unfold symbols. rewrite map_map. apply map_ext.
  intros i. apply trailing_number_of_str. exact Hp.
Qed.

(** X9. Every operator symbol that [_set_vars] creates carries the
    index of its variable as trailing number, in both bases and for every
    kind of operator, so that [circuit_operators] recovers the variable
    from the symbol name; the identity symbol [I] carries none. *)
Theorem set_vars_indices (ext_basis : basis) (periodic_indices extended_indices : list nat) :
  let v := _set_vars ext_basis periodic_indices extended_indices in
  Forall (fun kv => map get_trailing_number (snd kv)
                    = map (fun i => Some (Z.of_nat i)) periodic_indices) (periodic v)
  /\ Forall (fun kv => map get_trailing_number (snd kv)
                       = map (fun i => Some (Z.of_nat i)) extended_indices) (extended v)
  /\ map get_trailing_number (identity v) = [None].
Proof.
  cbv zeta. split; [| split; [| reflexivity]].
  - cbn [_set_vars periodic]. repeat constructor; cbn [snd]; apply symbols_trailing; reflexivity.
  - destruct ext_basis; cbn [_set_vars extended];
      repeat constructor; cbn [snd]; apply symbols_trailing; reflexivity.
Qed.

(** *** [matrix_power_sparse] *)

Section Power.
Context {M : Type}.
Variable matmul : M -> M -> M.

Lemma power_steps (x res : M) (start k : nat) :
  fold_left (fun r _ => matmul r x) (seq start (S k)) res =
    matmul (fold_left (fun r _ => matmul r x) (seq start k) res) x.
Proof.
  rewrite seq_S, fold_left_app. reflexivity.
Qed.

Lemma power_shift (x res : M) (start start' k : nat) :
  fold_left (fun r _ => matmul r x) (seq start k) res =
    fold_left (fun r _ => matmul r x) (seq start' k) res.
Proof.
  revert res start start'. induction k as [| k IH]; intros res s s'; [reflexivity |].
  cbn [seq fold_left]. apply IH.
Qed.

Hypothesis matmul_assoc : forall a b c, matmul (matmul a b) c = matmul a (matmul b c).

Lemma power_from (x res : M) (k : nat) :
  fold_left (fun r _ => matmul r x) (seq 0 (S k)) res =
    matmul res (fold_left (fun r _ => matmul r x) (seq 0 k) x).
Proof.
  induction k as [| k IH]; [reflexivity |].
  rewrite power_steps, IH, power_steps, matmul_assoc. reflexivity.
Qed.

End Power.

(** X10. [matrix_power_sparse(x, n)] returns [x] itself for every
    [n <= 1]; in particular the power 0 is [x], not the identity. *)
Theorem matrix_power_sparse_small {M : Type} (matmul : M -> M -> M) (x : M) (n : Z) :
  (n <= 1)%Z -> matrix_power_sparse matmul x n = x.
Proof.
  intros Hn. unfold matrix_power_sparse.
  replace (Z.to_nat (n - 1)) with 0%nat by lia. reflexivity.
Qed.

Lemma matrix_power_sparse_small_witness : matrix_power_sparse Z.mul 7%Z 0 = 7%Z.
Proof. apply (matrix_power_sparse_small Z.mul 7%Z 0). lia. Defined.

(** X11. For an associative product, powers add up:
    [matrix_power_sparse(x, a + b)] is the product of
    [matrix_power_sparse(x, a)] and [matrix_power_sparse(x, b)] for
    [a, b >= 1]. *)
Theorem matrix_power_sparse_add {M : Type} (matmul : M -> M -> M) (x : M) (a b : Z) :
  (forall p q r, matmul (matmul p q) r = matmul p (matmul q r)) ->
  (1 <= a)%Z -> (1 <= b)%Z ->
  matrix_power_sparse matmul x (a + b) =
    matmul (matrix_power_sparse matmul x a) (matrix_power_sparse matmul x b).
Proof.
  intros Hassoc Ha Hb. unfold matrix_power_sparse.
  replace (Z.to_nat (a + b - 1)) with (Z.to_nat (a - 1) + S (Z.to_nat (b - 1)))%nat by lia.
  rewrite seq_app, fold_left_app.
  rewrite (power_shift matmul x _ (0 + Z.to_nat (a - 1)) 0).
  apply power_from. exact Hassoc.
Qed.

Lemma matrix_power_sparse_add_witness :
  matrix_power_sparse Z.mul 2%Z (2 + 3) =
    (matrix_power_sparse Z.mul 2%Z 2 * matrix_power_sparse Z.mul 2%Z 3)%Z.
Proof.
  apply (matrix_power_sparse_add Z.mul 2%Z 2 3); [intros; lia | lia | lia].
Defined.

End VarsFacts.

(** ** Templates as truncation specifications *)

Module HierarchyFacts.
Import Template SubsystemIndex Dimension Init Hierarchy PyFacts TemplateFacts.
Import DimensionFacts InitFacts.

Lemma is_hierarchical_flat (l : list pyval) :
  is_hierarchical l = negb (flat_group l).
Proof.
  unfold is_hierarchical. rewrite pylist_eqb_flatten.
  destruct l as [| x r]; reflexivity.
Qed.

(** The entry the template holds for a group. *)
Lemma template_entry_cases (g e : pyval) (i c : Z) :
  template_entry g i c = Ok e ->
  exists l, g = PList l
    /\ (if flat_group l then e = PInt i
        else exists inner, truncation_template l 6 50 = Ok inner
                           /\ e = PList [PInt c; PList inner]).
Proof.
  destruct g as [n | l]; [discriminate |].
  rewrite template_entry_nested, pylist_eqb_flatten. intros H. exists l.
  split; [reflexivity |].
  destruct (flat_group l).
  - inversion H. reflexivity.
  - destruct (truncation_template l 6 50) as [inner | err]; [| discriminate].
    exists inner. inversion H. split; reflexivity.
Qed.

Lemma template_groups_are_lists (gs es : list pyval) (i c : Z) :
  Forall2 (fun g e => template_entry g i c = Ok e) gs es ->
  exists fs, mapM flatten_arg gs = Ok fs.
Proof.
  induction 1 as [| g e gs es Hge _ [fs IH]]; [exists []; reflexivity |].
  destruct g as [n | l]; [discriminate |].
  eexists. cbn [mapM flatten_arg bind]. rewrite IH. reflexivity.
Qed.

Lemma Forall2_length_eq {X Y} (R : X -> Y -> Prop) (l : list X) (m : list Y) :
  Forall2 R l m -> length l = length m.
Proof. induction 1; simpl; congruence. Qed.

Lemma nth_error_middle {X} (pre : list X) (x : X) (post : list X) :
  nth_error (pre ++ x :: post) (length pre) = Some x.
Proof. induction pre as [| y pre IH]; [reflexivity | exact IH]. Qed.

Lemma build_children_template (i c : Z) (gs : list pyval) :
  Forall (fun g => forall i c e td std b,
            template_entry g i c = Ok e ->
            (match e with
             | PList [d; s] => td = d /\ std = Some s
             | _ => td = e /\ std = None
             end) ->
            exists n b', build_subsystem g td std b = (Ok n, b')
                         /\ built_from i c g n) gs ->
  forall (es pre : list pyval) (b : nat),
    Forall2 (fun g e => template_entry g i c = Ok e) gs es ->
    exists ns b',
      build_children (Some (PList (pre ++ es))) gs (length pre) b = (Ok ns, b')
      /\ Forall2 (built_from i c) gs ns.
Proof.
  induction 1 as [| g gs Hg _ IH]; intros es pre b Hes.
  - exists [], b. split; [reflexivity | constructor].
  - inversion Hes as [| ? e ? es' Hge Hrest]; subst.
    cbn [build_children]. unfold node_args, subscript_opt, subscript.
    rewrite nth_error_middle. cbn [bind].
    destruct (template_entry_cases _ _ _ _ Hge) as [l [-> Hcase]].
    assert (Hnext : forall b0, exists ns b',
               build_children (Some (PList (pre ++ e :: es'))) gs (S (length pre)) b0
               = (Ok ns, b') /\ Forall2 (built_from i c) gs ns).
    { intros b0. specialize (IH es' (pre ++ [e]) b0 Hrest).
      rewrite <- app_assoc, length_app, Nat.add_1_r in IH. exact IH. }
    destruct (flat_group l) eqn:Hflat.
    + subst e.
      destruct (Hg i c (PInt i) (PInt i) None b Hge (conj eq_refl eq_refl))
        as [n [b1 [Hn Hbuilt]]].
      rewrite Hn. destruct (Hnext b1) as [ns [b2 [Hns Hall]]]. rewrite Hns.
      exists (n :: ns), b2. split; [reflexivity | constructor; assumption].
    + destruct Hcase as [inner [Hinner ->]].
      cbn [nth_error bind].
      destruct (Hg i c _ (PInt c) (Some (PList inner)) b Hge (conj eq_refl eq_refl))
        as [n [b1 [Hn Hbuilt]]].
      rewrite Hn. destruct (Hnext b1) as [ns [b2 [Hns Hall]]]. rewrite Hns.
      exists (n :: ns), b2. split; [reflexivity | constructor; assumption].
Qed.

Lemma build_subsystem_template (g : pyval) :
  forall i c e td std b,
    template_entry g i c = Ok e ->
    (match e with
     | PList [d; s] => td = d /\ std = Some s
     | _ => td = e /\ std = None
     end) ->
    exists n b', build_subsystem g td std b = (Ok n, b') /\ built_from i c g n.
Proof.
  induction g as [n | l IH] using pyval_nested_ind; intros i c e td std b He Hargs.
  - discriminate.
  - destruct (template_entry_cases _ _ _ _ He) as [l' [[= <-] Hcase]].
    destruct (flat_group l) eqn:Hflat.
    + subst e. destruct Hargs as [-> ->].
      cbn [build_subsystem]. rewrite is_hierarchical_flat, Hflat. cbn [negb].
      eexists _, _. split; [reflexivity |].
      unfold built_from. cbn [node_hierarchy truncated_dim node_subsystems flat].
      rewrite Hflat. repeat split.
    + destruct Hcase as [inner [Hinner ->]]. destruct Hargs as [-> ->].
      rewrite build_subsystem_hierarchical
        by (rewrite is_hierarchical_flat, Hflat; reflexivity).
      unfold generate_subsystems.
      apply SpecLookupFacts.mapM_Forall2 in Hinner.
      destruct (template_groups_are_lists _ _ _ _ Hinner) as [fs ->].
      destruct (build_children_template 6 50 l IH inner [] b Hinner)
        as [ns [b' [Hns Hall]]].
      cbn [app length] in Hns. rewrite Hns.
      eexists _, _. split; [reflexivity |].
      unfold built_from. cbn [node_hierarchy truncated_dim node_subsystems flat].
      rewrite Hflat. repeat split.
      symmetry. exact (Forall2_length_eq _ _ _ Hall).
Qed.

Lemma generate_subsystems_template (h t : list pyval) (i c : Z) (b : nat) :
  truncation_template h i c = Ok t ->
  exists ns b',
    generate_subsystems h (Some (PList t)) b = (Ok ns, b')
    /\ Forall2 (built_from i c) h ns.
Proof.
  intros Ht. apply SpecLookupFacts.mapM_Forall2 in Ht. unfold generate_subsystems.
  destruct (template_groups_are_lists _ _ _ _ Ht) as [fs ->].
  apply (build_children_template i c h) with (pre := []); [| exact Ht].
  apply Forall_forall. intros g _. apply build_subsystem_template.
Qed.

(** X12. A template is always accepted as [subsystem_trunc_dims]: when
    [truncation_template(system_hierarchy, i, c)] returns [t], the call
    [initiate_circuit(system_hierarchy=..., subsystem_trunc_dims=t)]
    raises nothing, and for a nested hierarchy it builds one subsystem
    per top-level group, holding that group as its hierarchy, the
    truncated dimension [i] (flat group) or [c] (nested group) and one
    child per sub-group of a nested group. *)
Theorem initiate_circuit_with_template (self : circuit) (h t : list pyval)
  (i c : Z) (built : nat) :
  h <> [] ->
  truncation_template h i c = Ok t ->
  let out := initiate_circuit self (Some h) (Some t) built in
  raised out = None
  /\ (is_hierarchical h = true ->
      exists ns, subsystems (self_after out) = Some ns
                 /\ Forall2 (built_from i c) h ns).
Proof.
  intros Hne Ht. cbv zeta.
  destruct (generate_subsystems_template h t i c built Ht) as [ns [b' [Hns Hall]]].
  assert (Hlen : length h = length t).
  { apply SpecLookupFacts.mapM_Forall2 in Ht. exact (Forall2_length_eq _ _ _ Ht). }
  destruct h as [| g h']; [contradiction |].
  destruct t as [| e t']; [discriminate |].
  unfold initiate_circuit. cbv zeta. cbn [py_or default].
  destruct (is_hierarchical (g :: h')); cbn [negb raised self_after].
  - change (Datatypes.id (g :: h')) with (g :: h'). rewrite Hns. cbn [raised self_after subsystems]. split; [reflexivity |].
    intros _. exists ns. split; [reflexivity | exact Hall].
  - split; [reflexivity | discriminate].
Qed.

Lemma initiate_circuit_with_template_witness :
  let h := [PList [PList [PInt 1]; PList [PInt 2]]; PList [PInt 3]] in
  let out :=
    initiate_circuit fresh (Some h) (Some [PList [PInt 50; PList [PInt 6; PInt 6]]; PInt 6]) 0 in
  raised out = None
  /\ (is_hierarchical h = true ->
      exists ns, subsystems (self_after out) = Some ns
                 /\ Forall2 (built_from 6 50) h ns).
Proof.
  apply (initiate_circuit_with_template fresh
           [PList [PList [PInt 1]; PList [PInt 2]]; PList [PInt 3]]
           [PList [PInt 50; PList [PInt 6; PInt 6]]; PInt 6] 6 50 0);
    [discriminate | reflexivity].
Defined.

Lemma template_top_level_dims (gs es : list pyval) (i c : Z) :
  Forall2 (fun g e => template_entry g i c = Ok e) gs es ->
  Forall2 (fun e d => top_level_dim e = Some d) es
    (map (fun g => if flat g then i else c) gs).
Proof.
  induction 1 as [| g e gs es Hge _ IH]; [constructor |].
  cbn [map]. constructor; [| exact IH].
  destruct (template_entry_cases _ _ _ _ Hge) as [l [-> Hcase]]. cbn [flat].
  destruct (flat_group l).
  - subst e. reflexivity.
  - destruct Hcase as [inner [_ ->]]. reflexivity.
Qed.

(** X13. With the template of its hierarchy as [subsystem_trunc_dims]
    (the two dimensions [i] and [c] fitting 64 bits), a hierarchically
    diagonalized instance has the Hilbert-space dimension
    [i ** (number of flat groups) * c ** (number of nested groups)],
    the product over the top-level groups of [i] for a flat group and
    [c] for a nested one, as long as this product fits 64 bits; in
    general [hilbertdim()] is this product wrapped to 64 bits. *)
Theorem hilbertdim_of_template (self : instance) (i c : Z) :
  Dimension.hierarchical_diagonalization self = true ->
  truncation_template (Dimension.system_hierarchy self) i c
  = Ok (Dimension.subsystem_trunc_dims self) ->
  fits_int64 i -> fits_int64 c ->
  let dims := map (fun g => if flat g then i else c)
                (Dimension.system_hierarchy self) in
  hilbertdim self = Ok (int64 (product dims))
  /\ (fits_int64 (product dims) -> hilbertdim self = Ok (product dims)).
Proof.
  intros Hh Ht _ _ dims. apply SpecLookupFacts.mapM_Forall2 in Ht.
  pose proof (Forall2_length_eq _ _ _ Ht) as Hlen.
  assert (H : hilbertdim self = Ok (int64 (product dims))).
  { apply hilbertdim_hierarchical_value; [exact Hh | lia |].
    rewrite Hlen, firstn_all. exact (template_top_level_dims _ _ _ _ Ht). }
  split; [exact H |].
  intros Hfit. rewrite H, (int64_fits _ Hfit). reflexivity.
Qed.

Lemma hilbertdim_of_template_witness :
  hilbertdim hier_example = Ok (50 * (6 * 1))%Z.
Proof.
  apply (hilbertdim_of_template hier_example 6 50 eq_refl eq_refl);
    fits_by_evaluation.
Defined.

Lemma trunc_dim_of_raises (e : pyval) (err : exn) :
  trunc_dim_of e = Raise err -> err = IndexError.
Proof.
  destruct e as [n | [| x r]]; cbn; intros H; inversion H; reflexivity.
Qed.

Lemma hierarchical_dims_short (l : list pyval) (n start : nat) :
  (start <= length l < start + n)%nat ->
  mapM (fun i => let! e := subscript l i in trunc_dim_of e) (seq start n)
  = Raise IndexError.
Proof.
  revert start. induction n as [| n IH]; intros start Hlen; [lia |].
  cbn [seq mapM]. unfold subscript at 1.
  destruct (nth_error l start) as [e |] eqn:He.
  - cbn [bind]. destruct (trunc_dim_of e) as [d | err] eqn:Hd; cbn [bind].
    + rewrite IH; [reflexivity |].
      assert (start < length l)%nat by (apply nth_error_Some; congruence). lia.
    + rewrite (trunc_dim_of_raises _ _ Hd). reflexivity.
  - reflexivity.
Qed.

(** X14. A hierarchically diagonalized instance whose
    [subsystem_trunc_dims] has fewer entries than [system_hierarchy] has
    groups has no Hilbert-space dimension: [hilbertdim()] raises
    [IndexError]. *)
Theorem hilbertdim_short_trunc_dims (self : instance) :
  Dimension.hierarchical_diagonalization self = true ->
  (length (Dimension.subsystem_trunc_dims self)
   < length (Dimension.system_hierarchy self))%nat ->
  hilbertdim self = Raise IndexError.
Proof.
  intros Hh Hlen. unfold hilbertdim, hilbertdim_hierarchical.
  rewrite Hh. cbn [negb].
  rewrite hierarchical_dims_short by lia. reflexivity.
Qed.

Lemma hilbertdim_short_trunc_dims_witness :
  hilbertdim
    {| cutoff_names := []; attrs := ∅;
       Dimension.hierarchical_diagonalization := true;
       Dimension.system_hierarchy := [PList [PList [PInt 1]; PList [PInt 2]]; PList [PInt 3]];
       Dimension.subsystem_trunc_dims := [PInt 6] |}
  = Raise IndexError.
Proof.
  apply hilbertdim_short_trunc_dims; [reflexivity | cbn; lia].
Defined.

Lemma get_subsystem_index_from_first (pre post : list pyval) (g : pyval)
  (var_index : Z) (index : nat) :
  Forall (fun g' => is_list g' = true /\ has_leaf var_index g' = false) pre ->
  is_list g = true -> has_leaf var_index g = true ->
  get_subsystem_index_from index (pre ++ g :: post) var_index
  = Ok (Some (index + length pre)%nat).
Proof.
  intros Hpre Hl Hg. revert index.
  induction Hpre as [| g' rest [Hl' Hg'] _ IH]; intros index.
  - destruct g as [n | l]; [discriminate |].
    cbn [app get_subsystem_index_from flatten_arg bind length].
    rewrite py_in_flatten, Hg, Nat.add_0_r. reflexivity.
  - destruct g' as [n | l]; [discriminate |].
    cbn [app get_subsystem_index_from flatten_arg bind length].
    rewrite py_in_flatten, Hg', IH. do 2 f_equal. lia.
Qed.

(** X15. [get_subsystem_index] returns the position of the first group
    that holds [var_index] (at any depth of nesting); what follows that
    group is not looked at. *)
Theorem get_subsystem_index_first (pre post : list pyval) (g : pyval)
  (var_index : Z) :
  Forall (fun g' => is_list g' = true /\ has_leaf var_index g' = false) pre ->
  is_list g = true -> has_leaf var_index g = true ->
  get_subsystem_index (pre ++ g :: post) var_index = Ok (Some (length pre)).
Proof.
  intros Hpre Hl Hg. unfold get_subsystem_index.
  rewrite (get_subsystem_index_from_first pre post g var_index 0 Hpre Hl Hg).
  reflexivity.
Qed.

Lemma get_subsystem_index_first_witness :
  get_subsystem_index
    ([PList [PInt 1]] ++ PList [PList [PInt 2]; PList [PInt 3]] :: [PInt 3]) 3
  = Ok (Some 1%nat).
Proof.
  apply (get_subsystem_index_first [PList [PInt 1]] [PInt 3]
           (PList [PList [PInt 2]; PList [PInt 3]]) 3);
    [repeat constructor | reflexivity | reflexivity].
Defined.

End HierarchyFacts.

(** ** [generate_subsystems]: what each bucket receives *)

Module BucketFacts.
Import Names Partition Buckets PyFacts.
Local Open Scope string_scope.
Local Open Scope Z_scope.

Lemma coeff_add_term (e : gmap term Z) (c : Z) (t t' : term) :
  coeff (add_term e c t) t' = if decide (t = t') then coeff e t + c else coeff e t'.
Proof.
  unfold add_term, coeff.
  destruct (Z.eqb_spec (default 0 (e !! t) + c) 0) as [Hz | Hnz];
    destruct (decide (t = t')) as [<- | Hne].
  - rewrite lookup_delete_eq. cbn. lia.
  - rewrite lookup_delete_ne by exact Hne. reflexivity.
  - rewrite lookup_insert_eq. reflexivity.
  - rewrite lookup_insert_ne by exact Hne. reflexivity.
Qed.

Lemma coeff_empty (t : term) : coeff ∅ t = 0.
Proof. unfold coeff. rewrite lookup_empty. reflexivity. Qed.

(** Adding the terms of a list with distinct keys. *)
Lemma coeff_fold_add_notin (l : list (term * Z)) (a : gmap term Z) (t : term) :
  ~ In t (map fst l) ->
  coeff (fold_left (fun acc tc => add_term acc (snd tc) (fst tc)) l a) t = coeff a t.
Proof.
  revert a. induction l as [| [t' c] r IH]; intros a Hnot; [reflexivity |].
  cbn [fold_left fst snd]. rewrite IH by (intros H; apply Hnot; right; exact H).
  rewrite coeff_add_term. destruct (decide (t' = t)) as [-> | _]; [| reflexivity].
  exfalso. apply Hnot. left. reflexivity.
Qed.

Lemma coeff_fold_add_in (l : list (term * Z)) (a : gmap term Z) (t : term) (c : Z) :
  List.NoDup (map fst l) -> In (t, c) l ->
  coeff (fold_left (fun acc tc => add_term acc (snd tc) (fst tc)) l a) t
  = coeff a t + c.
Proof.
  revert a. induction l as [| [t' c'] r IH]; intros a Hnd Hin; [destruct Hin |].
  cbn [map fst] in Hnd. inversion Hnd as [| ? ? Hnotin Hnd']; subst.
  cbn [fold_left fst snd]. destruct Hin as [[= -> ->] | Hin].
  - rewrite coeff_fold_add_notin by exact Hnotin.
    rewrite coeff_add_term. destruct (decide (t = t)); [reflexivity | contradiction].
  - rewrite (IH _ Hnd' Hin), coeff_add_term.
    destruct (decide (t' = t)) as [-> | _]; [| reflexivity].
    exfalso. apply Hnotin. apply (in_map fst) in Hin. exact Hin.
Qed.

Lemma map_to_list_keys_NoDup (b : gmap term Z) : List.NoDup (map fst (map_to_list b)).
Proof. apply NoDup_ListNoDup, NoDup_fst_map_to_list. Qed.

Lemma coeff_expr_add (a b : gmap term Z) (t : term) :
  coeff (expr_add a b) t = coeff a t + coeff b t.
Proof.
  unfold expr_add. destruct (b !! t) as [c |] eqn:Hb.
  - rewrite (coeff_fold_add_in _ _ t c).
    + unfold coeff at 3. rewrite Hb. reflexivity.
    + apply map_to_list_keys_NoDup.
    + apply list_elem_of_In, elem_of_map_to_list. exact Hb.
  - rewrite coeff_fold_add_notin.
    + unfold coeff at 3. rewrite Hb. cbn. lia.
    + intros Hin. apply in_map_iff in Hin as [[t' c] [Heq Hin]]. cbn in Heq. subst t'.
      apply list_elem_of_In, elem_of_map_to_list in Hin. congruence.
Qed.

Lemma coeff_expr_neg (a : gmap term Z) (t : term) : coeff (expr_neg a) t = - coeff a t.
Proof.
  unfold coeff, expr_neg. rewrite lookup_fmap.
  destruct (a !! t); reflexivity.
Qed.

Lemma coeff_expr_sub (a b : gmap term Z) (t : term) :
  coeff (expr_sub a b) t = coeff a t - coeff b t.
Proof. unfold expr_sub. rewrite coeff_expr_add, coeff_expr_neg. lia. Qed.

Section Scan.
Variable param_vars : list symbol.
Variable hamiltonian : gmap term Z.
Variable subsys_index_list : list pyval.

(** The body of the loop over the terms (lines 480-500). *)
Let step (acc : gmap term Z * gmap term Z) (t : term) :=
  let term_vars := term_var_categories param_vars t in
  let H_sys :=
    if (length (set_minus term_vars subsys_index_list) =? 0)%nat
    then add_term (fst acc) (coeff hamiltonian t) t else fst acc in
  let H_int :=
    if (0 <? length (set_minus term_vars subsys_index_list))%nat
       && (0 <? length (set_inter term_vars subsys_index_list))%nat
    then add_term (snd acc) (coeff hamiltonian t) t else snd acc in
  (H_sys, H_int).

Lemma scan_notin (ts : list term) (acc : gmap term Z * gmap term Z) (t : term) :
  ~ In t ts ->
  coeff (fst (fold_left step ts acc)) t = coeff (fst acc) t
  /\ coeff (snd (fold_left step ts acc)) t = coeff (snd acc) t.
Proof.
  revert acc. induction ts as [| t' r IH]; intros acc Hnot; [split; reflexivity |].
  cbn [fold_left].
  destruct (IH (step acc t')) as [H1 H2]; [intros H; apply Hnot; right; exact H |].
  rewrite H1, H2. unfold step. cbn [fst snd].
  assert (Hne : t' <> t) by (intros ->; apply Hnot; left; reflexivity).
  split.
  - destruct (_ =? _)%nat; [| reflexivity].
    rewrite coeff_add_term. destruct (decide (t' = t)); [contradiction | reflexivity].
  - destruct (_ && _); [| reflexivity].
    rewrite coeff_add_term. destruct (decide (t' = t)); [contradiction | reflexivity].
Qed.

Lemma scan_in (ts : list term) (acc : gmap term Z * gmap term Z) (t : term) :
  List.NoDup ts -> In t ts ->
  coeff (fst (fold_left step ts acc)) t
  = coeff (fst acc) t
    + (if within_group param_vars subsys_index_list t then coeff hamiltonian t else 0)
  /\ coeff (snd (fold_left step ts acc)) t
     = coeff (snd acc) t
       + (if couples_group param_vars subsys_index_list t then coeff hamiltonian t else 0).
Proof.
  revert acc. induction ts as [| t' r IH]; intros acc Hnd Hin; [destruct Hin |].
  inversion Hnd as [| ? ? Hnotin Hnd']; subst. cbn [fold_left].
  destruct Hin as [-> | Hin].
  - destruct (scan_notin r (step acc t) t Hnotin) as [-> ->].
    unfold step, within_group, couples_group. cbn [fst snd]. split.
    + destruct (_ =? _)%nat; [| lia].
      rewrite coeff_add_term. destruct (decide (t = t)); [reflexivity | contradiction].
    + destruct (_ && _); [| lia].
      rewrite coeff_add_term. destruct (decide (t = t)); [reflexivity | contradiction].
  - destruct (IH (step acc t') Hnd' Hin) as [-> ->].
    assert (Hne : t' <> t) by (intros ->; contradiction).
    unfold step. cbn [fst snd]. split; f_equal.
    + destruct (_ =? _)%nat; [| reflexivity].
      rewrite coeff_add_term. destruct (decide (t' = t)); [contradiction | reflexivity].
    + destruct (_ && _); [| reflexivity].
      rewrite coeff_add_term. destruct (decide (t' = t)); [contradiction | reflexivity].
Qed.

Lemma scan_terms_coeff (t : term) :
  coeff (fst (scan_terms param_vars hamiltonian subsys_index_list)) t
  = (if within_group param_vars subsys_index_list t then coeff hamiltonian t else 0)
  /\ coeff (snd (scan_terms param_vars hamiltonian subsys_index_list)) t
     = (if couples_group param_vars subsys_index_list t then coeff hamiltonian t else 0).
Proof.
  unfold scan_terms. cbv zeta.
  change (fold_left _ ?l ?a) with (fold_left step l a).
  destruct (hamiltonian !! t) as [c |] eqn:Ht.
  - destruct (scan_in (map fst (map_to_list hamiltonian)) (∅, ∅) t) as [H1 H2].
    + apply map_to_list_keys_NoDup.
    + apply in_map_iff. exists (t, c). split; [reflexivity |].
      apply list_elem_of_In, elem_of_map_to_list. exact Ht.
    + rewrite H1, H2. cbn [fst snd]. rewrite coeff_empty. split; reflexivity.
  - destruct (scan_notin (map fst (map_to_list hamiltonian)) (∅, ∅) t) as [H1 H2].
    + intros Hin. apply in_map_iff in Hin as [[t' c] [Heq Hin]]. cbn in Heq. subst t'.
      apply list_elem_of_In, elem_of_map_to_list in Hin. congruence.
    + rewrite H1, H2. cbn [fst snd]. rewrite coeff_empty.
      assert (Hz : coeff hamiltonian t = 0) by (unfold coeff; rewrite Ht; reflexivity).
      rewrite Hz. split; [destruct (within_group _ _ _) | destruct (couples_group _ _ _)];
        reflexivity.
Qed.

End Scan.

Lemma within_not_couples (param_vars : list symbol) (idx : list pyval) (t : term) :
  within_group param_vars idx t = true -> couples_group param_vars idx t = false.
Proof.
  unfold within_group, couples_group. intros H. apply Nat.eqb_eq in H. rewrite H.
  reflexivity.
Qed.

(** X16. In the pass over the terms for one group, a monomial enters
    the group's self-Hamiltonian with its coefficient exactly when all
    of its variable indices belong to the group, and the group's
    interaction Hamiltonian exactly when some of its indices belong to
    the group and some do not; it never enters both. *)
Theorem scan_terms_buckets (param_vars : list symbol) (hamiltonian : gmap term Z)
  (subsys_index_list : list pyval) (t : term) :
  let H_sys := fst (scan_terms param_vars hamiltonian subsys_index_list) in
  let H_int := snd (scan_terms param_vars hamiltonian subsys_index_list) in
  coeff H_sys t
  = (if within_group param_vars subsys_index_list t then coeff hamiltonian t else 0)
  /\ coeff H_int t
     = (if couples_group param_vars subsys_index_list t then coeff hamiltonian t else 0)
  /\ (coeff H_sys t = 0 \/ coeff H_int t = 0).
Proof.
  cbv zeta.
  destruct (scan_terms_coeff param_vars hamiltonian subsys_index_list t) as [H1 H2].
  split; [exact H1 | split; [exact H2 |]].
  rewrite H1, H2.
  destruct (within_group param_vars subsys_index_list t) eqn:Hw; [| left; reflexivity].
  rewrite (within_not_couples _ _ _ Hw). right. reflexivity.
Qed.

Lemma generate_buckets_step (param_vars : list symbol) (l rest : list pyval)
  (hamiltonian : gmap term Z) :
  let idx := flatten_list_recursive l in
  let H_sys := fst (scan_terms param_vars hamiltonian idx) in
  let H_int := snd (scan_terms param_vars hamiltonian idx) in
  exists hamiltonian',
    (forall t,
        coeff hamiltonian' t
        = if within_group param_vars idx t then 0
          else if couples_group param_vars idx t then 2 * coeff hamiltonian t
               else coeff hamiltonian t)
    /\ generate_buckets param_vars (PList l :: rest) hamiltonian
       = let! r := generate_buckets param_vars rest hamiltonian' in
         Ok (H_sys :: fst r, H_int :: snd r).
Proof.
  cbv zeta.
  exists (expr_sub hamiltonian
            (expr_sub (fst (scan_terms param_vars hamiltonian (flatten_list_recursive l)))
                      (snd (scan_terms param_vars hamiltonian (flatten_list_recursive l))))).
  split.
  - intros t. rewrite !coeff_expr_sub.
    destruct (scan_terms_coeff param_vars hamiltonian (flatten_list_recursive l) t)
      as [-> ->].
    destruct (within_group param_vars (flatten_list_recursive l) t) eqn:Hw.
    + rewrite (within_not_couples _ _ _ Hw). lia.
    + destruct (couples_group param_vars (flatten_list_recursive l) t); lia.
  - cbn [generate_buckets flatten_arg bind].
    destruct (scan_terms param_vars hamiltonian (flatten_list_recursive l)) as [S I].
    reflexivity.
Qed.

(** X17. After a group has been handled, the Hamiltonian passed on to
    the remaining groups (line 503) no longer holds the monomials that
    went to the group's self-Hamiltonian, but holds the monomials that
    went to its interaction Hamiltonian with twice their coefficient;
    every other monomial is unchanged. *)
Theorem hamiltonian_after_group (param_vars : list symbol) (l rest : list pyval)
  (hamiltonian : gmap term Z) :
  let idx := flatten_list_recursive l in
  let H_sys := fst (scan_terms param_vars hamiltonian idx) in
  let H_int := snd (scan_terms param_vars hamiltonian idx) in
  exists hamiltonian',
    (forall t,
        coeff hamiltonian' t
        = if within_group param_vars idx t then 0
          else if couples_group param_vars idx t then 2 * coeff hamiltonian t
               else coeff hamiltonian t)
    /\ generate_buckets param_vars (PList l :: rest) hamiltonian
       = let! r := generate_buckets param_vars rest hamiltonian' in
         Ok (H_sys :: fst r, H_int :: snd r).
Proof. apply generate_buckets_step. Qed.

(** *** Monomials that do not couple groups *)

Lemma coeff_fold_expr_add (l : list (gmap term Z)) (a : gmap term Z) (t : term) :
  coeff (fold_left expr_add l a) t
  = coeff a t + fold_right Z.add 0 (map (fun e => coeff e t) l).
Proof.
  revert a. induction l as [| e r IH]; intros a; cbn [fold_left map fold_right]; [lia |].
  rewrite IH, coeff_expr_add. lia.
Qed.

Lemma coeff_resum_cons (S I : gmap term Z) (Ss Is : list (gmap term Z)) (t : term) :
  coeff (resum (S :: Ss, I :: Is)) t
  = coeff S t + coeff I t + coeff (resum (Ss, Is)) t.
Proof.
  unfold resum, expr_sum. cbn [fst snd fold_left].
  rewrite !coeff_expr_add, !coeff_fold_expr_add, !coeff_expr_add, !coeff_empty. lia.
Qed.

Lemma coeff_resum_nil (t : term) : coeff (resum ([], [])) t = 0.
Proof. unfold resum, expr_sum. cbn. rewrite coeff_expr_add, coeff_empty. reflexivity. Qed.

(** A monomial that is not in the Hamiltonian is in no bucket. *)
Lemma absent_term_stays_absent (param_vars : list symbol) (gs : list pyval) (t : term) :
  Forall (fun g => is_list g = true) gs ->
  forall hamiltonian, coeff hamiltonian t = 0 ->
  exists buckets,
    generate_buckets param_vars gs hamiltonian = Ok buckets
    /\ coeff (resum buckets) t = 0.
Proof.
  induction 1 as [| g gs Hg _ IH]; intros hamiltonian Hz.
  - exists ([], []). split; [reflexivity | apply coeff_resum_nil].
  - destruct g as [n | l]; [discriminate |].
    destruct (generate_buckets_step param_vars l gs hamiltonian) as [H' [Hcoeff ->]].
    destruct (IH H') as [[Ss Is] [-> Hrest]].
    { rewrite Hcoeff, Hz.
      destruct (within_group _ _ _); [| destruct (couples_group _ _ _)]; reflexivity. }
    eexists. split; [reflexivity |]. cbn [fst snd].
    rewrite coeff_resum_cons, Hrest.
    destruct (scan_terms_coeff param_vars hamiltonian (flatten_list_recursive l) t)
      as [-> ->].
    rewrite Hz.
    destruct (within_group _ _ _); destruct (couples_group _ _ _); reflexivity.
Qed.

Lemma set_minus_all_in (tv : list Z) (idx : list pyval) :
  (forall v, In v tv -> py_in v idx = true) -> set_minus tv idx = [].
Proof.
  unfold set_minus. induction tv as [| v r IH]; intros H; [reflexivity |].
  cbn [List.filter]. rewrite (H v (or_introl eq_refl)). cbn [negb].
  apply IH. intros w Hw. apply H. right. exact Hw.
Qed.

Lemma set_inter_none_in (tv : list Z) (idx : list pyval) :
  (forall v, In v tv -> py_in v idx = false) -> set_inter tv idx = [].
Proof.
  unfold set_inter. induction tv as [| v r IH]; intros H; [reflexivity |].
  cbn [List.filter]. rewrite (H v (or_introl eq_refl)).
  apply IH. intros w Hw. apply H. right. exact Hw.
Qed.

Lemma uncoupled_term_resum (param_vars : list symbol) (t : term)
  (pre : list pyval) (l post : list pyval) :
  Forall (fun g => is_list g = true
                   /\ forall v, In v (term_var_categories param_vars t) ->
                                has_leaf v g = false) pre ->
  (forall v, In v (term_var_categories param_vars t) -> has_leaf v (PList l) = true) ->
  Forall (fun g => is_list g = true) post ->
  forall hamiltonian,
  exists buckets,
    generate_buckets param_vars (pre ++ PList l :: post) hamiltonian = Ok buckets
    /\ coeff (resum buckets) t = coeff hamiltonian t.
Proof.
  intros Hpre Hl Hpost.
  assert (Hlists : Forall (fun g => is_list g = true) (pre ++ PList l :: post)).
  { apply Forall_app. split.
    - eapply Forall_impl; [exact Hpre |]. intros g [Hg _]. exact Hg.
    - constructor; [reflexivity | exact Hpost]. }
  (* once the monomial has gone to a self-Hamiltonian, it is gone *)
  assert (Htaken : forall l0 rest hamiltonian,
             Forall (fun g => is_list g = true) rest ->
             within_group param_vars (flatten_list_recursive l0) t = true ->
             exists buckets,
               generate_buckets param_vars (PList l0 :: rest) hamiltonian = Ok buckets
               /\ coeff (resum buckets) t = coeff hamiltonian t).
  { intros l0 rest hamiltonian Hrest Hw.
    destruct (generate_buckets_step param_vars l0 rest hamiltonian) as [H' [Hcoeff ->]].
    destruct (absent_term_stays_absent param_vars rest t Hrest H')
      as [[Ss Is] [-> Hzero]]; [rewrite Hcoeff, Hw; reflexivity |].
    eexists. split; [reflexivity |]. cbn [fst snd].
    rewrite coeff_resum_cons, Hzero.
    destruct (scan_terms_coeff param_vars hamiltonian (flatten_list_recursive l0) t)
      as [-> ->].
    rewrite Hw, (within_not_couples _ _ _ Hw). lia. }
  induction Hpre as [| g pre [Hg Hout] Hpre IH]; intros hamiltonian.
  - apply Htaken; [exact Hpost |].
    unfold within_group. rewrite set_minus_all_in; [reflexivity |].
    intros v Hv. rewrite py_in_flatten. apply Hl. exact Hv.
  - destruct g as [n | l0]; [discriminate |].
    inversion Hlists as [| ? ? _ Hlists']; subst.
    cbn [app].
    destruct (within_group param_vars (flatten_list_recursive l0) t) eqn:Hw.
    + apply Htaken; assumption.
    + assert (Hc : couples_group param_vars (flatten_list_recursive l0) t = false).
      { unfold couples_group. rewrite (set_inter_none_in _ (flatten_list_recursive l0)).
        - apply andb_false_r.
        - intros v Hv. rewrite py_in_flatten. apply Hout. exact Hv. }
      destruct (generate_buckets_step param_vars l0 (pre ++ PList l :: post) hamiltonian)
        as [H' [Hcoeff ->]].
      destruct (IH Hlists' H') as [[Ss Is] [-> Hrest]].
      eexists. split; [reflexivity |]. cbn [fst snd].
      rewrite coeff_resum_cons, Hrest, Hcoeff.
      destruct (scan_terms_coeff param_vars hamiltonian (flatten_list_recursive l0) t)
        as [-> ->].
      rewrite Hw, Hc. lia.
Qed.

(** X18. A monomial all of whose variable indices lie in one group and
    in none of the groups before it is not lost and not duplicated: the
    self- and interaction Hamiltonians of all groups together hold it
    with the coefficient it has in the Hamiltonian. This covers the
    monomials without any operator symbol. *)
Theorem uncoupled_term_conserved (param_vars : list symbol) (t : term)
  (pre : list pyval) (l post : list pyval) (hamiltonian : gmap term Z) :
  Forall (fun g => is_list g = true
                   /\ forall v, In v (term_var_categories param_vars t) ->
                                has_leaf v g = false) pre ->
  (forall v, In v (term_var_categories param_vars t) -> has_leaf v (PList l) = true) ->
  Forall (fun g => is_list g = true) post ->
  exists buckets,
    generate_buckets param_vars (pre ++ PList l :: post) hamiltonian = Ok buckets
    /\ coeff (resum buckets) t = coeff hamiltonian t.
Proof.
  intros Hpre Hl Hpost. apply uncoupled_term_resum; assumption.
Qed.

Lemma uncoupled_term_conserved_witness :
  exists buckets,
    generate_buckets [] ([PList [PInt 1]] ++ PList [PInt 2] :: []) H_two_modes
    = Ok buckets
    /\ coeff (resum buckets) ["n2"; "n2"] = coeff H_two_modes ["n2"; "n2"].
Proof.
  apply (uncoupled_term_conserved [] ["n2"; "n2"] [PList [PInt 1]] [PInt 2] []
           H_two_modes).
  - constructor; [| constructor]. split; [reflexivity |].
    intros v Hv. vm_compute in Hv. destruct Hv as [<- | []]. reflexivity.
  - intros v Hv. vm_compute in Hv. destruct Hv as [<- | []]. reflexivity.
  - constructor.
Defined.

End BucketFacts.

(** ** Elementary operators: agreement and symmetry *)

Module TrigFacts.
Import Operators OperatorFacts.
Local Open Scope R_scope.

Lemma phi_operator_entry (grid : Grid1d) (i j : nat) :
  (i < pt_count grid)%nat ->
  entry (_phi_operator grid) i j =
    if (i =? j)%nat then nth i (make_linspace grid) 0 else 0.
Proof.
  intros Hi. unfold _phi_operator.
  apply setdiag_zeros_entry; [unfold make_linspace; apply length_linspace | exact Hi].
Qed.

Lemma length_diagonal (m : matrix R) : length (diagonal m) = dim m.
Proof. unfold diagonal. rewrite length_map, length_seq. reflexivity. Qed.

Lemma diagonal_phi_operator (grid : Grid1d) (i : nat) :
  (i < pt_count grid)%nat ->
  nth i (diagonal (_phi_operator grid)) 0 = nth i (make_linspace grid) 0.
Proof.
  intros Hi. unfold diagonal.
  change (dim (_phi_operator grid)) with (pt_count grid).
  rewrite (nth_map_seq (fun k => entry (_phi_operator grid) k k)) by exact Hi.
  rewrite phi_operator_entry by exact Hi. rewrite Nat.eqb_refl. reflexivity.
Qed.

(** X19. Applying the helper [_cos_dia] to the position operator of a
    grid gives the matrix that [_cos_phi] builds for that grid: same
    size, same entries. *)
Theorem cos_dia_of_phi_operator (grid : Grid1d) (i j : nat) :
  (i < pt_count grid)%nat ->
  dim (_cos_dia (_phi_operator grid)) = dim (_cos_phi grid)
  /\ entry (_cos_dia (_phi_operator grid)) i j = entry (_cos_phi grid) i j.
Proof.
  intros Hi. split; [reflexivity |].
  rewrite cos_phi_diagonal by exact Hi.
  unfold _cos_dia, tocsc.
  change (dim (_phi_operator grid)) with (pt_count grid).
  rewrite setdiag_zeros_entry;
    [| rewrite length_map; apply length_diagonal | exact Hi].
  destruct (i =? j)%nat; [| reflexivity].
  rewrite (nth_indep _ 0 (cos 0))
    by (rewrite length_map, length_diagonal; exact Hi).
  rewrite map_nth, diagonal_phi_operator by exact Hi. reflexivity.
Qed.

Lemma cos_dia_of_phi_operator_witness :
  dim (_cos_dia (_phi_operator unit_grid)) = dim (_cos_phi unit_grid)
  /\ entry (_cos_dia (_phi_operator unit_grid)) 1 1 = entry (_cos_phi unit_grid) 1 1.
Proof. apply (cos_dia_of_phi_operator unit_grid 1 1). simpl. lia. Defined.

(** X20. In the charge basis [_exp_i_theta_operator_conjugate] is the
    transpose of [_exp_i_theta_operator], the cosine operator is
    symmetric and the sine operator is Hermitian: its entry [(i, j)] is
    the complex conjugate of its entry [(j, i)]. *)
Theorem charge_basis_trig_hermitian (ncut i j : nat) :
  (i < 2 * ncut + 1)%nat -> (j < 2 * ncut + 1)%nat ->
  entry (_exp_i_theta_operator_conjugate ncut) i j
  = entry (_exp_i_theta_operator ncut) j i
  /\ entry (_cos_theta ncut) i j = entry (_cos_theta ncut) j i
  /\ fst (entry (_sin_theta ncut) i j) = fst (entry (_sin_theta ncut) j i)
  /\ snd (entry (_sin_theta ncut) i j) = - snd (entry (_sin_theta ncut) j i).
Proof.
  intros Hi Hj.
  assert (Ht : forall a b, (a < 2 * ncut + 1)%nat -> (b < 2 * ncut + 1)%nat ->
                 entry (_exp_i_theta_operator_conjugate ncut) a b
                 = entry (_exp_i_theta_operator ncut) b a).
  { intros a b Ha Hb.
    rewrite exp_i_theta_conjugate_entry, exp_i_theta_entry by assumption.
    reflexivity. }
  split; [apply Ht; assumption |].
  unfold _cos_theta, _sin_theta.
  change (entry (rscale ?c ?m) ?a ?b) with (c * entry m a b).
  change (entry (cscale ?c ?m) ?a ?b) with (Cmul c (Creal (entry m a b))).
  change (entry (madd ?x ?y) ?a ?b) with (entry x a b + entry y a b).
  change (entry (msub ?x ?y) ?a ?b) with (entry x a b - entry y a b).
  rewrite (Ht i j Hi Hj), (Ht j i Hj Hi).
  generalize (entry (_exp_i_theta_operator ncut) i j) as x.
  generalize (entry (_exp_i_theta_operator ncut) j i) as y.
  intros y x. unfold Cmul, Creal, Cneg, Ci. cbn [fst snd].
  repeat split; lra.
Qed.

Lemma charge_basis_trig_hermitian_witness :
  entry (_exp_i_theta_operator_conjugate 1) 0 1 = entry (_exp_i_theta_operator 1) 1 0
  /\ entry (_cos_theta 1) 0 1 = entry (_cos_theta 1) 1 0
  /\ fst (entry (_sin_theta 1) 0 1) = fst (entry (_sin_theta 1) 1 0)
  /\ snd (entry (_sin_theta 1) 0 1) = - snd (entry (_sin_theta 1) 1 0).
Proof. apply (charge_basis_trig_hermitian 1 0 1); simpl; lia. Defined.

End TrigFacts.

(** ** The flux shifts returned by the canonicalizer *)

Module ShiftFacts.
Import Names Canon CanonFacts.
Local Open Scope string_scope.

Lemma fill_zero_find (d0 : list (nat * sexpr)) (extended : list nat)
  (acc : list (nat * sexpr)) (i : nat) :
  dict_find
    (fold_left
       (fun acc var_index =>
          match dict_find d0 var_index with
          | Some _ => acc
          | None => dict_set acc var_index (Num 0)
          end) extended acc) i
  = match dict_find d0 i with
    | Some _ => dict_find acc i
    | None => if existsb (Nat.eqb i) extended then Some (Num 0) else dict_find acc i
    end.
Proof.
  revert acc. induction extended as [| j r IH]; intros acc; cbn [fold_left existsb].
  - destruct (dict_find d0 i); reflexivity.
  - rewrite IH. destruct (dict_find d0 i) as [v |] eqn:Hi.
    + destruct (dict_find d0 j) eqn:Hj; [reflexivity |].
      apply dict_find_set_ne. intros ->. congruence.
    + destruct (Nat.eqb_spec i j) as [-> | Hne]; cbn [orb].
      * rewrite Hi. rewrite dict_find_set_eq. destruct (existsb _ r); reflexivity.
      * destruct (existsb _ r); [reflexivity |].
        destruct (dict_find d0 j); [reflexivity |].
        apply dict_find_set_ne. congruence.
Qed.

(** X21. The canonicalizer always returns, and its [flux_shifts_dict]
    holds, for every variable, the shift that [linsolve] found for it
    if there is one, and otherwise 0 if the variable is an extended one;
    a solved shift is never overwritten and no extended variable is
    left without an entry. *)
Theorem flux_shifts_dict_complete (expand : sexpr -> sexpr)
  (coeff : sexpr -> string -> sexpr)
  (linsolve : list sexpr -> list string -> list (list sexpr))
  (constant_term : sexpr -> sexpr)
  (extended : list nat) (hamiltonian_symbolic : sexpr) :
  let sys := shift_system expand coeff extended hamiltonian_symbolic in
  let solved :=
    dict_zip
      (map fst (fst (introduce_shifts coeff extended (expand hamiltonian_symbolic))))
      (first_solution (linsolve (fst sys) (snd sys))) in
  exists H flux_shifts_dict,
    shift_fluxes expand coeff linsolve constant_term extended hamiltonian_symbolic
    = Ok (H, flux_shifts_dict)
    /\ forall i,
         dict_find flux_shifts_dict i
         = match dict_find solved i with
           | Some shift => Some shift
           | None => if existsb (Nat.eqb i) extended then Some (Num 0) else None
           end.
Proof.
  cbv zeta. unfold shift_fluxes. cbv zeta.
  eexists _, _. split; [reflexivity |].
  intros i. unfold fill_zero_shifts. rewrite fill_zero_find.
  unfold shift_system, shifted_hamiltonian. cbn [fst snd].
  destruct (dict_find _ i) eqn:Hi; [reflexivity |].
  destruct (existsb _ extended); reflexivity.
Qed.

Lemma introduce_shifts_none (coeff : sexpr -> string -> sexpr)
  (extended : list nat) (H : sexpr) :
  (forall i, In i extended -> nonzero (coeff H (theta i)) = false) ->
  introduce_shifts coeff extended H = ([], H).
Proof.
  unfold introduce_shifts. induction extended as [| v r IH]; intros Hz; [reflexivity |].
  cbn [fold_left fst snd]. rewrite (Hz v (or_introl eq_refl)).
  apply IH. intros i Hi. apply Hz. right. exact Hi.
Qed.

(** X22. A Hamiltonian without a linear term in any extended variable
    is not shifted: whatever [linsolve] returns, the canonicalizer goes
    on with the expanded Hamiltonian minus its constant term and
    reports the shift 0 for every extended variable. *)
Theorem no_linear_term_no_shift (expand : sexpr -> sexpr)
  (coeff : sexpr -> string -> sexpr)
  (linsolve : list sexpr -> list string -> list (list sexpr))
  (constant_term : sexpr -> sexpr)
  (extended : list nat) (hamiltonian_symbolic : sexpr) :
  (forall i, In i extended ->
             nonzero (coeff (expand hamiltonian_symbolic) (theta i)) = false) ->
  let H := expand (expand hamiltonian_symbolic) in
  exists flux_shifts_dict,
    shift_fluxes expand coeff linsolve constant_term extended hamiltonian_symbolic
    = Ok (expand (Sub H (constant_term H)), flux_shifts_dict)
    /\ forall i, In i extended -> dict_find flux_shifts_dict i = Some (Num 0).
Proof.
  intros Hz. cbv zeta. unfold shift_fluxes. cbv zeta.
  rewrite (introduce_shifts_none coeff extended _ Hz). cbn [fst snd map].
  unfold flux_shift_equations, dict_zip, apply_shifts.
  cbn [map combine fold_left subs_list].
  eexists. split; [reflexivity |].
  intros i Hi. apply fill_zero_shifts_empty. exact Hi.
Qed.

Lemma no_linear_term_no_shift_witness :
  let H := expand_id (expand_id (Mul (Sym "θ1") (Sym "θ1"))) in
  exists flux_shifts_dict,
    shift_fluxes expand_id (fun _ _ => Num 0) linsolve_none constant_zero [1%nat]
      (Mul (Sym "θ1") (Sym "θ1"))
    = Ok (expand_id (Sub H (constant_zero H)), flux_shifts_dict)
    /\ forall i, In i [1%nat] -> dict_find flux_shifts_dict i = Some (Num 0).
Proof.
  apply (no_linear_term_no_shift expand_id (fun _ _ => Num 0) linsolve_none
           constant_zero [1%nat] (Mul (Sym "θ1") (Sym "θ1"))).
  intros i _. reflexivity.
Defined.

End ShiftFacts.

(** ** [SpectrumLookup]: what a lookup answers *)

Module LookupFacts.
Import SpecLookup SpecLookupExamples SpecLookupFacts.

Lemma mapM_seq_at {Y} (f : nat -> result Y) (n : nat) (m : list Y) (i : nat) :
  mapM f (seq 0 n) = Ok m -> (i < n)%nat ->
  exists y, nth_error m i = Some y /\ f i = Ok y.
Proof.
  intros Hm Hi. apply mapM_Forall2 in Hm.
  assert (Hlen : length m = n).
  { rewrite <- (Forall2_length _ _ _ Hm). apply length_seq. }
  destruct (nth_error m i) as [y |] eqn:Hy.
  - exists y. split; [reflexivity |].
    apply (Forall2_at _ _ _ i i y Hm); [| exact Hy].
    rewrite nth_error_nth' with (d := 0%nat) by (rewrite length_seq; exact Hi).
    rewrite seq_nth by exact Hi. reflexivity.
  - apply nth_error_None in Hy. lia.
Qed.

Lemma dressed_index_of_label {A En : Type} (np_abs : A -> Q)
  (hs : hilbertspace) (dressed_specdata : @spectrum_data A En)
  (self : @spectrum_lookup A En) (label : list nat) (param_index : nat) :
  subsystem_count hs = length (subsystem_dims hs) ->
  dimension hs = fold_right Nat.mul 1%nat (subsystem_dims hs) ->
  init np_abs hs dressed_specdata = Ok self ->
  (param_index < param_count dressed_specdata)%nat ->
  Forall2 (fun x d => (x < d)%nat) label (subsystem_dims hs) ->
  exists overlap_matrix r,
    nth_error (state_table dressed_specdata) param_index = Some overlap_matrix
    /\ dressed_index self label param_index = Ok r
    /\ assignment_ok np_abs overlap_matrix (label_rank (subsystem_dims hs) label) r.
Proof.
  intros Hc Hdim Hinit Hp Hlabel.
  pose proof (init_labels np_abs hs dressed_specdata self Hc Hinit) as Hlabels.
  pose proof (product_position _ _ Hlabel) as Hpos.
  assert (Hrank : (label_rank (subsystem_dims hs) label < dimension hs)%nat).
  { apply list_index_Some in Hpos as [Hnth _].
    rewrite Hdim, <- product_seq_length. apply nth_error_Some. congruence. }
  unfold init in Hinit.
  destruct (_generate_bare_labels hs) as [labels |]; [| discriminate].
  cbn [bind] in Hinit.
  destruct (_generate_mappings np_abs hs dressed_specdata) as [mappings |] eqn:Hm;
    [| discriminate].
  cbn [bind] in Hinit. injection Hinit as <-.
  cbn [_canonical_bare_labels] in Hlabels. subst labels.
  destruct (mapM_seq_at _ _ _ param_index Hm Hp) as [mapping [Hmapping Hsingle]].
  unfold _generate_single_mapping, item in Hsingle.
  destruct (nth_error (state_table dressed_specdata) param_index)
    as [overlap_matrix |] eqn:Hom; [| discriminate].
  cbn [bind] in Hsingle.
  destruct (mapM_seq_at _ _ _ _ Hsingle Hrank) as [r [Hr Hassign]].
  exists overlap_matrix, r. split; [reflexivity |]. split.
  - unfold dressed_index, item. cbn [_canonical_bare_labels _dressed_indices].
    rewrite Hpos, Hmapping. cbn [bind]. rewrite Hr. reflexivity.
  - apply single_assignment_sound. exact Hassign.
Qed.

(** X23. On a lookup built by the constructor for a Hilbert space whose
    dimension is the product of its subsystem dimensions, [dressed_index]
    answers for every bare label and every parameter index below
    [param_count] without raising, and its answer is the assignment made
    for the bare state with the row-major number of the label: the
    dressed state of largest overlap if that overlap reaches 1/2, and
    [None] otherwise. *)
Theorem dressed_index_best_overlap {A En : Type} (np_abs : A -> Q)
  (hs : hilbertspace) (dressed_specdata : @spectrum_data A En)
  (self : @spectrum_lookup A En) (label : list nat) (param_index : nat) :
  subsystem_count hs = length (subsystem_dims hs) ->
  dimension hs = fold_right Nat.mul 1%nat (subsystem_dims hs) ->
  init np_abs hs dressed_specdata = Ok self ->
  (param_index < param_count dressed_specdata)%nat ->
  Forall2 (fun x d => (x < d)%nat) label (subsystem_dims hs) ->
  exists overlap_matrix r,
    nth_error (state_table dressed_specdata) param_index = Some overlap_matrix
    /\ dressed_index self label param_index = Ok r
    /\ assignment_ok np_abs overlap_matrix (label_rank (subsystem_dims hs) label) r.
Proof. apply dressed_index_of_label. Qed.

Lemma dressed_index_best_overlap_witness :
  exists overlap_matrix r,
    nth_error (state_table data_2_2) 0 = Some overlap_matrix
    /\ dressed_index lookup_2_2 [1; 0]%nat 0 = Ok r
    /\ assignment_ok Qabs overlap_matrix (label_rank (subsystem_dims hs_2_2) [1; 0]%nat) r.
Proof.
  apply (dressed_index_best_overlap Qabs hs_2_2 data_2_2 lookup_2_2 [1; 0]%nat 0).
  - reflexivity.
  - reflexivity.
  - vm_compute. reflexivity.
  - cbn. lia.
  - repeat constructor.
Defined.

End LookupFacts.
(** ** [_kron_operator]: wrapping an operator with identities *)

Module KronFacts.
Import Names Dimension Operators Kron Canon.
Import PyFacts NameFacts DimensionFacts CanonFacts SpecLookup SpecLookupFacts.
Local Open Scope nat_scope.

(** *** Sorting the variable indices *)

Lemma insert_int_perm (x : nat) (l : list nat) : Permutation (insert_int x l) (x :: l).
Proof.
  induction l as [| y r IH]; simpl; [apply Permutation_refl |].
  destruct (x <=? y); [apply Permutation_refl |].
  eapply perm_trans; [apply perm_skip, IH | apply perm_swap].
Qed.

Lemma sort_ints_perm (l : list nat) : Permutation (sort_ints l) l.
Proof.
  induction l as [| x r IH]; simpl; [constructor |].
  eapply perm_trans; [apply insert_int_perm | apply perm_skip, IH].
Qed.

Lemma insert_int_sorted (x : nat) (l : list nat) :
  StronglySorted le l -> StronglySorted le (insert_int x l).
Proof.
  induction 1 as [| y r Hr IH Hy]; simpl; [repeat constructor |].
  destruct (Nat.leb_spec x y) as [Hxy | Hxy].
  - constructor; [constructor; assumption |].
    constructor; [exact Hxy |].
    eapply Forall_impl; [exact Hy |]. intros z Hz. cbn in Hz. lia.
  - constructor; [exact IH |].
    apply Forall_forall. intros z Hz. apply list_elem_of_In in Hz.
    apply (Permutation_in _ (insert_int_perm x r)) in Hz.
    destruct Hz as [<- | Hz]; [lia |].
    rewrite Forall_forall in Hy. apply Hy, list_elem_of_In. exact Hz.
Qed.

Lemma sort_ints_sorted (l : list nat) : StronglySorted le (sort_ints l).
Proof.
  induction l as [| x r IH]; simpl; [constructor | apply insert_int_sorted, IH].
Qed.

(** In an ascending list without duplicates, the position of a member
    tells how it compares with the first and the last member. *)
Lemma sorted_position_first (s : list nat) (x p : nat) :
  StronglySorted le s -> List.NoDup s -> nth_error s p = Some x ->
  (p = 0 <-> x = hd 0 s) /\ (p <> 0 -> hd 0 s < x).
Proof.
  intros Hs Hnd Hp. destruct s as [| y r]; [destruct p; discriminate |].
  cbn [hd]. destruct p as [| p].
  - cbn in Hp. inversion Hp. subst. split; [tauto | congruence].
  - cbn in Hp. apply nth_error_In in Hp.
    inversion Hs as [| ? ? _ Hy]; subst. inversion Hnd as [| ? ? Hnot _]; subst.
    rewrite Forall_forall in Hy. specialize (Hy x (proj2 (list_elem_of_In _ _) Hp)).
    assert (x <> y) by (intros ->; contradiction).
    split; [split; [discriminate | intros; congruence] | intros _; cbn in Hy; lia].
Qed.

Lemma last_cons_cons {X} (a b : X) (r : list X) (d : X) :
  List.last (a :: b :: r) d = List.last (b :: r) d.
Proof. reflexivity. Qed.

Lemma sorted_position_last (s : list nat) (x p : nat) :
  StronglySorted le s -> List.NoDup s -> nth_error s p = Some x ->
  (S p = length s <-> x = List.last s 0) /\ (S p <> length s -> x < List.last s 0).
Proof.
  intros Hs Hnd. revert p.
  induction s as [| y r IH]; intros p Hp; [destruct p; discriminate |].
  inversion Hs as [| ? ? Hr Hy]; subst. inversion Hnd as [| ? ? Hnot Hnd']; subst.
  destruct r as [| z r'].
  - destruct p as [| p]; [| destruct p; discriminate].
    cbn in Hp. inversion Hp. subst. cbn.
    split; [tauto | intros H; exfalso; apply H; reflexivity].
  - rewrite last_cons_cons. destruct p as [| p].
    + cbn in Hp. inversion Hp. subst y.
      assert (Hlast : In (List.last (z :: r') 0) (z :: r')).
      { clear. revert z. induction r' as [| w r IH]; intros z; [left; reflexivity |].
        rewrite last_cons_cons. right. apply IH. }
      rewrite Forall_forall in Hy.
      pose proof (Hy _ (proj2 (list_elem_of_In _ _) Hlast)) as Hle. cbn beta in Hle.
      assert (x <> List.last (z :: r') 0) by (intros Heq; apply Hnot; rewrite Heq; exact Hlast).
      cbn [length]. split; [split; [discriminate | intros; congruence] | intros _; lia].
    + cbn in Hp. destruct (IH Hr Hnd' p Hp) as [H1 H2]. cbn [length] in *.
      split; [split; intros H; [apply H1; lia | apply H1 in H; lia] |].
      intros H. apply H2. lia.
Qed.

(** *** [dict(zip(keys, values))] *)

Lemma dict_zip_fold_notin (keys : list nat) (values : list Z)
  (acc : list (nat * Z)) (k : nat) :
  ~ In k keys ->
  dict_find (fold_left (fun d kv => dict_set d (fst kv) (snd kv)) (combine keys values) acc) k
  = dict_find acc k.
Proof.
  revert values acc. induction keys as [| k0 ks IH]; intros values acc Hnot; [reflexivity |].
  destruct values as [| c cs]; [reflexivity |].
  cbn [combine fold_left fst snd]. rewrite IH by (intros H; apply Hnot; right; exact H).
  apply dict_find_set_ne. intros ->. apply Hnot. left. reflexivity.
Qed.

Lemma dict_zip_fold_at (keys : list nat) (values : list Z)
  (acc : list (nat * Z)) (p k : nat) (c : Z) :
  List.NoDup keys -> nth_error keys p = Some k -> nth_error values p = Some c ->
  dict_find (fold_left (fun d kv => dict_set d (fst kv) (snd kv)) (combine keys values) acc) k
  = Some c.
Proof.
  revert values acc p. induction keys as [| k0 ks IH]; intros values acc p Hnd Hk Hc;
    [destruct p; discriminate |].
  destruct values as [| c0 cs]; [destruct p; discriminate |].
  inversion Hnd as [| ? ? Hnot Hnd']; subst.
  cbn [combine fold_left fst snd]. destruct p as [| p].
  - cbn in Hk, Hc. inversion Hk; inversion Hc; subst.
    rewrite dict_zip_fold_notin by exact Hnot. apply dict_find_set_eq.
  - cbn in Hk, Hc. eapply IH; eassumption.
Qed.

Lemma dict_zip_at (keys : list nat) (values : list Z) (p k : nat) (c : Z) :
  List.NoDup keys -> nth_error keys p = Some k -> nth_error values p = Some c ->
  dict_find (dict_zip keys values) k = Some c.
Proof. apply dict_zip_fold_at. Qed.

(** *** The dimensions read by [_kron_operator] *)

Lemma cutoffs_index_dict_of_cutoffs (self : instance) (periodic extended : list nat)
  (ns es : list Z) :
  get_cutoffs self = Ok [("cutoff_n"%string, ns); ("cutoff_ext"%string, es)] ->
  cutoffs_index_dict self periodic extended
  = Ok (dict_zip (periodic ++ extended) (map (fun k => 2 * k + 1)%Z ns ++ es)).
Proof.
  intros H. unfold cutoffs_index_dict. rewrite H.
  cbn [bind mapM map fst].
  change (str_contains "cutoff_n" "cutoff_n") with true.
  change (str_contains "cutoff_n" "cutoff_ext") with false.
  change (str_contains "cutoff_ext" "cutoff_ext") with true.
  cbv iota. cbn [dict_get String.eqb Ascii.eqb Bool.eqb bind].
  cbn [concat]. rewrite app_nil_r. reflexivity.
Qed.

Lemma product_pos (l : list Z) : List.Forall (fun c => 1 <= c)%Z l -> (1 <= product l)%Z.
Proof.
  induction 1 as [| c r Hc _ IH]; [cbn; lia |].
  change (product (c :: r)) with (c * product r)%Z. nia.
Qed.

Lemma product_slices (l : list Z) (p : nat) :
  product l = (product (firstn p l) * product (skipn p l))%Z.
Proof. rewrite <- product_app, firstn_skipn. reflexivity. Qed.

Lemma product_split (l : list Z) (p : nat) (c : Z) :
  nth_error l p = Some c ->
  product l = (product (firstn p l) * c * product (skipn (S p) l))%Z.
Proof.
  revert p. induction l as [| x r IH]; intros p Hp; [destruct p; discriminate |].
  destruct p as [| p].
  - cbn in Hp. inversion Hp. subst. cbn [firstn skipn product fold_right].
    change (skipn 0 r) with r. ring.
  - cbn in Hp. cbn [firstn skipn]. change (product (x :: ?l)) with (x * product l)%Z.
    rewrite (IH p Hp). ring.
Qed.

(** A slice of a list of dimensions (all at least 1) whose product fits
    64 bits is multiplied without wrap-around. *)
Lemma np_prod_slice (l s s' : list Z) :
  List.Forall (fun c => 1 <= c)%Z s -> List.Forall (fun c => 1 <= c)%Z s' ->
  product l = (product s * product s')%Z -> (product l < 2 ^ 63)%Z ->
  np_prod s = product s /\ (1 <= product s)%Z.
Proof.
  intros Hs Hs' Hl Hb.
  pose proof (product_pos s Hs) as H1. pose proof (product_pos s' Hs') as H2.
  split; [| exact H1].
  rewrite np_prod_int64. apply int64_fits. unfold fits_int64. nia.
Qed.

(** *** Ascending lists without duplicates *)

Lemma sorted_strict (s : list nat) :
  StronglySorted le s -> List.NoDup s -> StronglySorted lt s.
Proof.
  induction 1 as [| x r Hr IH Hx]; intros Hnd; [constructor |].
  inversion Hnd as [| ? ? Hnot Hnd']; subst.
  constructor; [apply IH; exact Hnd' |].
  rewrite List.Forall_forall in *. intros y Hy.
  pose proof (Hx y Hy). assert (x <> y) by (intros ->; contradiction). lia.
Qed.

Lemma filter_none {X} (f : X -> bool) (l : list X) :
  (forall x, In x l -> f x = false) -> List.filter f l = [].
Proof. apply filter_drop. Qed.

Lemma sorted_slices (s : list nat) (x p : nat) :
  StronglySorted lt s -> nth_error s p = Some x ->
  firstn p s = List.filter (fun v => v <? x) s
  /\ skipn (S p) s = List.filter (fun v => x <? v) s.
Proof.
  intros Hs. revert p. induction Hs as [| y r Hr IH Hy]; intros p Hp;
    [destruct p; discriminate |].
  rewrite List.Forall_forall in Hy.
  destruct p as [| p].
  - cbn in Hp. inversion Hp. subst y. cbn [firstn skipn List.filter].
    rewrite Nat.ltb_irrefl. split.
    + symmetry. apply filter_none. intros v Hv. apply Nat.ltb_ge.
      pose proof (Hy v Hv). lia.
    + symmetry. apply filter_keep. intros v Hv. apply Nat.ltb_lt. exact (Hy v Hv).
  - cbn in Hp. destruct (IH p Hp) as [H1 H2].
    assert (Hyx : y < x) by (apply Hy; eapply nth_error_In; exact Hp).
    cbn [firstn skipn List.filter].
    replace (y <? x) with true by (symmetry; apply Nat.ltb_lt; exact Hyx).
    replace (x <? y) with false by (symmetry; apply Nat.ltb_ge; lia).
    split; [f_equal; exact H1 | exact H2].
Qed.

Section Wrapping.
Context {A : Type}.
Variables (zero one : A) (mul : A -> A -> A).
Variable self : instance.
Variables periodic extended : list nat.
Variables cutoff_n cutoff_ext : nat -> Z.

Hypothesis names :
  Permutation (cutoff_names self)
    (map cutoff_n_name periodic ++ map cutoff_ext_name extended).
Hypothesis periodic_cutoffs :
  forall i, In i periodic -> attrs self !! cutoff_n_name i = Some (cutoff_n i).
Hypothesis extended_cutoffs :
  forall i, In i extended -> attrs self !! cutoff_ext_name i = Some (cutoff_ext i).
Hypothesis distinct : List.NoDup (periodic ++ extended).
Hypothesis periodic_nonneg : forall i, In i periodic -> (0 <= cutoff_n i)%Z.
Hypothesis extended_pos : forall i, In i extended -> (1 <= cutoff_ext i)%Z.
Hypothesis bound :
  (product (map (fun i => 2 * cutoff_n i + 1) periodic)
   * product (map cutoff_ext extended) < 2 ^ 63)%Z.

Let keys : list nat := periodic ++ extended.
Let value (name : string) : Z := default 0%Z (attrs self !! name).

(** The dimensions in the order in which [get_cutoffs] lists them. *)
Let cs : list Z :=
  map (fun k => 2 * k + 1)%Z
    (map value (py_sort (List.filter (str_contains "cutoff_n") (cutoff_names self))))
  ++ map value (py_sort (List.filter (str_contains "cutoff_ext") (cutoff_names self))).

Lemma dict_value : cutoffs_index_dict self periodic extended = Ok (dict_zip keys cs).
Proof.
  apply cutoffs_index_dict_of_cutoffs.
  exact (get_cutoffs_value self periodic extended cutoff_n cutoff_ext names
           periodic_cutoffs extended_cutoffs).
Qed.

Lemma cs_perm :
  Permutation cs
    (map (fun i => 2 * cutoff_n i + 1)%Z periodic ++ map cutoff_ext extended).
Proof.
  unfold cs. apply Permutation_app.
  - rewrite <- (map_map cutoff_n (fun k => 2 * k + 1)%Z).
    apply Permutation_map.
    exact (values_n self periodic extended cutoff_n names periodic_cutoffs).
  - exact (values_ext self periodic extended cutoff_ext names extended_cutoffs).
Qed.

Lemma cs_length : length cs = length keys.
Proof.
  rewrite (Permutation_length cs_perm). unfold keys.
  rewrite !length_app, !length_map. reflexivity.
Qed.

Lemma cs_pos : List.Forall (fun c => 1 <= c)%Z cs.
Proof.
  apply List.Forall_forall. intros c Hc.
  apply (Permutation_in _ cs_perm) in Hc.
  apply in_app_or in Hc as [Hc | Hc]; apply in_map_iff in Hc as (i & <- & Hi).
  - pose proof (periodic_nonneg i Hi). lia.
  - apply extended_pos. exact Hi.
Qed.

Lemma cs_product : (product cs < 2 ^ 63)%Z.
Proof. rewrite (product_perm _ _ cs_perm), product_app. exact bound. Qed.

(** The dimension the dictionary holds for a variable. *)
Let dim_of (k : nat) : Z := default 0%Z (dict_find (dict_zip keys cs) k).

Lemma dict_at (p k : nat) :
  nth_error keys p = Some k ->
  exists c, nth_error cs p = Some c /\ dict_find (dict_zip keys cs) k = Some c.
Proof.
  intros Hk.
  assert (Hp : p < length cs).
  { rewrite cs_length. apply nth_error_Some. congruence. }
  destruct (nth_error cs p) as [c |] eqn:Hc; [| apply nth_error_None in Hc; lia].
  exists c. split; [reflexivity |].
  exact (dict_zip_at keys cs p k c distinct Hk Hc).
Qed.

Lemma dict_in (k : nat) :
  In k keys -> dict_find (dict_zip keys cs) k = Some (dim_of k).
Proof.
  intros Hk. apply In_nth_error in Hk as [p Hp].
  destruct (dict_at p k Hp) as [c [_ Hc]]. unfold dim_of. rewrite Hc. reflexivity.
Qed.

Lemma dims_of_keys : map dim_of keys = cs.
Proof.
  apply nth_error_ext. intros p. rewrite nth_error_map.
  destruct (nth_error keys p) as [k |] eqn:Hk.
  - destruct (dict_at p k Hk) as [c [Hc Hd]]. cbn. unfold dim_of. rewrite Hd, Hc.
    reflexivity.
  - cbn. symmetry. apply nth_error_None. rewrite cs_length.
    apply nth_error_None. exact Hk.
Qed.

Let sorted : list nat := sort_ints keys.
Let cn : list Z := map dim_of sorted.

Lemma sorted_In (k : nat) : In k sorted <-> In k keys.
Proof.
  split; apply Permutation_in; [| symmetry]; apply sort_ints_perm.
Qed.

Lemma sorted_NoDup : List.NoDup sorted.
Proof.
  eapply Permutation_NoDup; [symmetry; apply sort_ints_perm | exact distinct].
Qed.

Lemma sorted_length : length sorted = length keys.
Proof. apply Permutation_length, sort_ints_perm. Qed.

Lemma cutoff_names_value :
  mapM (fun i => match dict_find (dict_zip keys cs) i with
                 | Some c => Ok c
                 | None => Raise KeyError
                 end) sorted
  = Ok cn.
Proof.
  apply mapM_pure. intros k Hk. rewrite dict_in by (apply sorted_In; exact Hk).
  reflexivity.
Qed.

Lemma cn_product : product cn = product cs.
Proof.
  rewrite <- dims_of_keys. apply product_perm, Permutation_map, sort_ints_perm.
Qed.

Lemma cn_pos : List.Forall (fun c => 1 <= c)%Z cn.
Proof.
  apply List.Forall_forall. intros c Hc. apply in_map_iff in Hc as (k & <- & Hk).
  apply sorted_In in Hk.
  pose proof cs_pos as Hcs. rewrite List.Forall_forall in Hcs. apply Hcs.
  rewrite <- dims_of_keys. apply in_map. exact Hk.
Qed.

Lemma firstn_exact (p : nat) :
  np_prod (firstn p cn) = product (firstn p cn) /\ (1 <= product (firstn p cn))%Z.
Proof.
  apply (np_prod_slice cn _ (skipn p cn)).
  - apply Forall_take, cn_pos.
  - apply Forall_drop, cn_pos.
  - apply product_slices.
  - rewrite cn_product. exact cs_product.
Qed.

Lemma skipn_exact (p : nat) :
  np_prod (skipn p cn) = product (skipn p cn) /\ (1 <= product (skipn p cn))%Z.
Proof.
  apply (np_prod_slice cn _ (firstn p cn)).
  - apply Forall_drop, cn_pos.
  - apply Forall_take, cn_pos.
  - rewrite (product_slices cn p). ring.
  - rewrite cn_product. exact cs_product.
Qed.

Lemma firstn_nonneg (p : nat) : (0 <= np_prod (firstn p cn))%Z.
Proof. destruct (firstn_exact p) as [-> H]. lia. Qed.

Lemma skipn_nonneg (p : nat) : (0 <= np_prod (skipn p cn))%Z.
Proof. destruct (skipn_exact p) as [-> H]. lia. Qed.

Lemma identity_value (n : Z) :
  (0 <= n)%Z ->
  identity zero one n
  = Ok (Mat (Z.to_nat n) (fun i j => if (i =? j) then one else zero)).
Proof.
  intros Hn. unfold identity.
  destruct (Z.ltb_spec n 0); [lia | reflexivity].
Qed.

(** The result for a variable at position [p] of the sorted index list. *)
Let Il (p : nat) : matrix A :=
  Mat (Z.to_nat (np_prod (firstn p cn))) (fun i j => if (i =? j) then one else zero).
Let Ir (p : nat) : matrix A :=
  Mat (Z.to_nat (np_prod (skipn (p + 1) cn))) (fun i j => if (i =? j) then one else zero).
Let wrap_at (operator : matrix A) (p : nat) : matrix A :=
  if (length sorted <=? 1) then operator
  else if (p =? 0) then kron mul operator (Ir p)
  else if (S p =? length sorted) then kron mul (Il p) operator
  else kron mul (kron mul (Il p) operator) (Ir p).

Lemma kron_operator_value (operator : matrix A) (index : nat) :
  In index keys ->
  exists p,
    nth_error sorted p = Some index
    /\ _kron_operator zero one mul self periodic extended operator index
       = Wrapped (wrap_at operator p).
Proof.
  intros Hin. apply sorted_In in Hin. apply In_nth_error in Hin as [p Hp].
  exists p. split; [exact Hp |].
  pose proof (list_index_NoDup index sorted p sorted_NoDup Hp) as Hpos.
  destruct (sorted_position_first sorted index p (sort_ints_sorted keys) sorted_NoDup Hp)
    as [Hfirst Hfirst'].
  destruct (sorted_position_last sorted index p (sort_ints_sorted keys) sorted_NoDup Hp)
    as [Hlast Hlast'].
  unfold _kron_operator. rewrite dict_value.
  fold keys. fold sorted. rewrite cutoff_names_value.
  unfold wrap_at.
  destruct (Nat.leb_spec (length sorted) 1) as [Hle | Hgt].
  - replace (1 <? length sorted) with false by (symmetry; apply Nat.ltb_ge; exact Hle).
    reflexivity.
  - replace (1 <? length sorted) with true by (symmetry; apply Nat.ltb_lt; exact Hgt).
    cbv zeta. unfold side_identity. rewrite Hpos.
    destruct (Nat.eqb_spec p 0) as [Hp0 | Hp0].
    + (* the first variable *)
      apply Hfirst in Hp0 as Heq.
      replace (hd 0 sorted <? index) with false
        by (symmetry; apply Nat.ltb_ge; lia).
      replace (index <? List.last sorted 0) with true
        by (symmetry; apply Nat.ltb_lt; apply Hlast'; lia).
      rewrite identity_value by apply skipn_nonneg. cbn [bind].
      replace (index =? hd 0 sorted) with true
        by (symmetry; apply Nat.eqb_eq; exact Heq).
      reflexivity.
    + replace (hd 0 sorted <? index) with true
        by (symmetry; apply Nat.ltb_lt; apply Hfirst'; exact Hp0).
      rewrite identity_value by apply firstn_nonneg. cbn [bind].
      replace (index =? hd 0 sorted) with false
        by (symmetry; apply Nat.eqb_neq; intros Heq; apply Hfirst in Heq; contradiction).
      destruct (Nat.eqb_spec (S p) (length sorted)) as [Hpl | Hpl].
      * (* the last variable *)
        apply Hlast in Hpl as Heq.
        replace (index <? List.last sorted 0) with false
          by (symmetry; apply Nat.ltb_ge; lia).
        replace (index =? List.last sorted 0) with true
          by (symmetry; apply Nat.eqb_eq; exact Heq).
        reflexivity.
      * replace (index <? List.last sorted 0) with true
          by (symmetry; apply Nat.ltb_lt; apply Hlast'; exact Hpl).
        rewrite identity_value by apply skipn_nonneg. cbn [bind].
        replace (index =? List.last sorted 0) with false
          by (symmetry; apply Nat.eqb_neq; intros Heq; apply Hlast in Heq; contradiction).
        reflexivity.
Qed.

Lemma cn_at (p index : nat) :
  nth_error sorted p = Some index -> nth_error cn p = Some (dim_of index).
Proof. intros Hp. unfold cn. rewrite nth_error_map, Hp. reflexivity. Qed.

Lemma cn_length : length cn = length sorted.
Proof. apply length_map. Qed.

Lemma right_of_last (p : nat) :
  length sorted <= S p -> np_prod (skipn (S p) cn) = 1%Z.
Proof.
  intros Hp. rewrite skipn_all2 by (rewrite cn_length; exact Hp). reflexivity.
Qed.

Lemma left_size (p : nat) :
  Z.of_nat (Z.to_nat (np_prod (firstn p cn))) = product (firstn p cn).
Proof. destruct (firstn_exact p) as [-> H]. apply Z2Nat.id. lia. Qed.

Lemma right_size (p : nat) :
  Z.of_nat (Z.to_nat (np_prod (skipn p cn))) = product (skipn p cn).
Proof. destruct (skipn_exact p) as [-> H]. apply Z2Nat.id. lia. Qed.

Lemma wrap_at_shape (operator : matrix A) (p : nat) :
  p < length sorted ->
  dim (wrap_at operator p)
  = Z.to_nat (np_prod (firstn p cn)) * dim operator
    * Z.to_nat (np_prod (skipn (S p) cn)).
Proof.
  intros Hlt. unfold wrap_at.
  destruct (Nat.leb_spec (length sorted) 1) as [Hle | Hgt].
  - assert (p = 0) as -> by lia.
    rewrite right_of_last by lia. change (firstn 0 cn) with (@nil Z).
    change (np_prod []) with 1%Z. change (Z.to_nat 1) with 1. lia.
  - destruct (Nat.eqb_spec p 0) as [-> | Hp0].
    + change (firstn 0 cn) with (@nil Z). change (np_prod []) with 1%Z.
      cbn [kron dim Ir]. change (0 + 1) with 1.
      change (Z.to_nat 1) with 1. lia.
    + destruct (Nat.eqb_spec (S p) (length sorted)) as [Hpl | Hpl].
      * cbn [kron dim Il]. rewrite right_of_last by lia.
        change (Z.to_nat 1) with 1. lia.
      * cbn [kron dim Il Ir]. rewrite Nat.add_1_r. reflexivity.
Qed.

Lemma wrap_at_dim (operator : matrix A) (p index : nat) :
  nth_error sorted p = Some index ->
  Z.of_nat (dim operator) = dim_of index ->
  Z.of_nat (dim (wrap_at operator p)) = product cs.
Proof.
  intros Hp Hdim.
  assert (Hlt : p < length sorted) by (apply nth_error_Some; congruence).
  rewrite (wrap_at_shape operator p Hlt), !Nat2Z.inj_mul, left_size, right_size.
  rewrite <- cn_product, (product_split cn p _ (cn_at p index Hp)), <- Hdim.
  reflexivity.
Qed.

Lemma hilbertdim_flat_cs : hilbertdim_flat self = Ok (product cs).
Proof.
  rewrite (hilbertdim_flat_of_cutoffs self _ _
             (get_cutoffs_value self periodic extended cutoff_n cutoff_ext names
                periodic_cutoffs extended_cutoffs)).
  fold value. fold cs. f_equal.
  rewrite np_prod_int64. apply int64_fits. unfold fits_int64.
  pose proof (product_pos cs cs_pos). pose proof cs_product. lia.
Qed.

Lemma kron_operator_dimension (operator : matrix A) (index : nat) :
  In index keys ->
  dict_find (dict_zip keys cs) index = Some (Z.of_nat (dim operator)) ->
  exists m,
    _kron_operator zero one mul self periodic extended operator index = Wrapped m
    /\ hilbertdim_flat self = Ok (Z.of_nat (dim m)).
Proof.
  intros Hin Hdim.
  destruct (kron_operator_value operator index Hin) as [p [Hp Hm]].
  exists (wrap_at operator p). split; [exact Hm |].
  rewrite hilbertdim_flat_cs. f_equal. symmetry.
  apply (wrap_at_dim operator p index Hp).
  unfold dim_of. rewrite Hdim. reflexivity.
Qed.

(** The identities on the two sides of an operator are those of the
    variables with a smaller and with a larger index. *)
Lemma sizes_of_sides (p index : nat) :
  nth_error sorted p = Some index ->
  np_prod (firstn p cn)
  = product (map dim_of (List.filter (fun v => v <? index) keys))
  /\ np_prod (skipn (S p) cn)
     = product (map dim_of (List.filter (fun v => index <? v) keys)).
Proof.
  intros Hp.
  destruct (sorted_slices sorted index p
              (sorted_strict sorted (sort_ints_sorted keys) sorted_NoDup) Hp)
    as [Hl Hr].
  destruct (firstn_exact p) as [-> _]. destruct (skipn_exact (S p)) as [-> _].
  unfold cn. rewrite firstn_map, skipn_map, Hl, Hr.
  split; apply product_perm, Permutation_map, filter_perm, sort_ints_perm.
Qed.

Lemma hd_In (s : list nat) : s <> [] -> In (hd 0 s) s.
Proof. destruct s; [contradiction | left; reflexivity]. Qed.

Lemma last_In (s : list nat) : s <> [] -> In (List.last s 0) s.
Proof.
  induction s as [| x r IH]; [contradiction |]. intros _.
  destruct r as [| y r']; [left; reflexivity |].
  rewrite last_cons_cons. right. apply IH. discriminate.
Qed.

Lemma sorted_hd_le (s : list nat) (x : nat) :
  StronglySorted le s -> In x s -> hd 0 s <= x.
Proof.
  intros Hs Hx. destruct s as [| y r]; [destruct Hx |].
  cbn [hd]. destruct Hx as [<- | Hx]; [lia |].
  inversion Hs as [| ? ? _ Hy]; subst. rewrite List.Forall_forall in Hy.
  exact (Hy x Hx).
Qed.

Lemma kron_operator_unknown_index (operator : matrix A) (index : nat) :
  1 < length keys -> ~ In index keys ->
  _kron_operator zero one mul self periodic extended operator index
  = Raised ValueError.
Proof.
  intros Hlen Hnot.
  assert (Hnone : list_index index sorted = None).
  { apply list_index_None. intros H. apply Hnot, sorted_In. exact H. }
  assert (Hne : sorted <> []).
  { intros E. pose proof sorted_length as Hl. rewrite E in Hl. cbn in Hl. lia. }
  unfold _kron_operator. rewrite dict_value.
  fold keys. fold sorted. rewrite cutoff_names_value.
  replace (1 <? length sorted) with true
    by (symmetry; apply Nat.ltb_lt; rewrite sorted_length; exact Hlen).
  cbv zeta. unfold side_identity. rewrite Hnone.
  destruct (Nat.ltb_spec (hd 0 sorted) index) as [Hlt | Hge]; [reflexivity |].
  assert (Hhd : hd 0 sorted <> index).
  { intros E. apply Hnot, sorted_In. rewrite <- E. apply hd_In. exact Hne. }
  pose proof (sorted_hd_le sorted _ (sort_ints_sorted keys) (last_In sorted Hne)) as Hle.
  replace (index <? List.last sorted 0) with true
    by (symmetry; apply Nat.ltb_lt; lia).
  reflexivity.
Qed.

Hypothesis mul_one_l : forall x, mul one x = x.
Hypothesis mul_one_r : forall x, mul x one = x.
Hypothesis mul_zero_l : forall x, mul zero x = zero.
Hypothesis mul_zero_r : forall x, mul x zero = zero.

Lemma wrap_at_entry (operator : matrix A) (p i j : nat) :
  p < length sorted ->
  let d := dim operator in
  let r := Z.to_nat (np_prod (skipn (S p) cn)) in
  i < dim (wrap_at operator p) -> j < dim (wrap_at operator p) ->
  entry (wrap_at operator p) i j
  = if (i / (d * r) =? j / (d * r)) && (i mod r =? j mod r)
    then entry operator ((i / r) mod d) ((j / r) mod d)
    else zero.
Proof.
  intros Hp d r. unfold wrap_at.
  destruct (Nat.leb_spec (length sorted) 1) as [Hle | Hgt].
  - intros Hi Hj. fold d in Hi, Hj.
    assert (Hr : r = 1) by (unfold r; rewrite right_of_last by lia; reflexivity).
    rewrite Hr, Nat.mul_1_r, !Nat.mod_1_r, !Nat.div_1_r.
    rewrite !Nat.div_small, !Nat.mod_small by assumption. reflexivity.
  - destruct (Nat.eqb_spec p 0) as [-> | Hp0].
    + cbn [kron dim entry Ir]. change (0 + 1) with 1. fold d. fold r. intros Hi Hj.
      rewrite !(Nat.div_small _ (d * r)) by assumption. cbn [Nat.eqb andb].
      rewrite !(Nat.mod_small (_ / r) d)
        by (apply Nat.Div0.div_lt_upper_bound; lia).
      destruct (i mod r =? j mod r); [apply mul_one_r | apply mul_zero_r].
    + destruct (Nat.eqb_spec (S p) (length sorted)) as [Hpl | Hpl].
      * cbn [kron dim entry Il]. fold d. intros _ _.
        assert (Hr : r = 1) by (unfold r; rewrite right_of_last by lia; reflexivity).
        rewrite Hr, Nat.mul_1_r, !Nat.mod_1_r, !Nat.div_1_r. cbn [Nat.eqb].
        rewrite andb_true_r.
        destruct (i / d =? j / d); [apply mul_one_l | apply mul_zero_l].
      * cbn [kron dim entry Il Ir]. rewrite Nat.add_1_r. fold d. fold r. intros _ _.
        rewrite !Nat.Div0.div_div, (Nat.mul_comm r d).
        destruct (i / (d * r) =? j / (d * r)); cbn [andb].
        -- rewrite mul_one_l.
           destruct (i mod r =? j mod r); [apply mul_one_r | apply mul_zero_r].
        -- rewrite mul_zero_l.
           destruct (i mod r =? j mod r); [apply mul_one_r | apply mul_zero_r].
Qed.

Lemma kron_operator_entry (operator : matrix A) (index : nat) :
  In index keys ->
  let l := Z.to_nat (product (map dim_of (List.filter (fun v => v <? index) keys))) in
  let r := Z.to_nat (product (map dim_of (List.filter (fun v => index <? v) keys))) in
  exists m,
    _kron_operator zero one mul self periodic extended operator index = Wrapped m
    /\ dim m = l * dim operator * r
    /\ forall i j, i < dim m -> j < dim m ->
         entry m i j
         = if (i / (dim operator * r) =? j / (dim operator * r))
              && (i mod r =? j mod r)
           then entry operator ((i / r) mod dim operator) ((j / r) mod dim operator)
           else zero.
Proof.
  intros Hin l r.
  destruct (kron_operator_value operator index Hin) as [p [Hp Hm]].
  assert (Hlt : p < length sorted) by (apply nth_error_Some; congruence).
  destruct (sizes_of_sides p index Hp) as [Hl Hr].
  exists (wrap_at operator p).
  split; [exact Hm |].
  unfold l, r. rewrite <- Hl, <- Hr.
  split; [apply wrap_at_shape; exact Hlt |].
  intros i j Hi Hj. apply (wrap_at_entry operator p i j Hlt Hi Hj).
Qed.

End Wrapping.

(** X24. For a non-hierarchical instance whose cutoff properties are
    those of its periodic and extended variables (distinct indices,
    periodic cutoffs at least 0, extended cutoffs at least 1, and a
    Hilbert-space dimension below [2**63], so that no product wraps
    around), [_kron_operator(operator, index)] returns, for every
    variable [index] of the instance and every operator whose size is
    the dimension the method looks up for that variable, a matrix on the
    full Hilbert space: its size is [hilbertdim()]. *)
Theorem kron_operator_full_dimension {A : Type} (zero one : A) (mul : A -> A -> A)
  (self : instance) (periodic extended : list nat) (cutoff_n cutoff_ext : nat -> Z)
  (operator : matrix A) (index : nat) (d : list (nat * Z)) :
  hierarchical_diagonalization self = false ->
  Permutation (cutoff_names self)
    (map cutoff_n_name periodic ++ map cutoff_ext_name extended) ->
  (forall i, In i periodic -> attrs self !! cutoff_n_name i = Some (cutoff_n i)) ->
  (forall i, In i extended -> attrs self !! cutoff_ext_name i = Some (cutoff_ext i)) ->
  List.NoDup (periodic ++ extended) ->
  (forall i, In i periodic -> (0 <= cutoff_n i)%Z) ->
  (forall i, In i extended -> (1 <= cutoff_ext i)%Z) ->
  (product (map (fun i => 2 * cutoff_n i + 1) periodic)
   * product (map cutoff_ext extended) < 2 ^ 63)%Z ->
  In index (periodic ++ extended) ->
  cutoffs_index_dict self periodic extended = Ok d ->
  dict_find d index = Some (Z.of_nat (dim operator)) ->
  exists m,
    _kron_operator zero one mul self periodic extended operator index = Wrapped m
    /\ hilbertdim self = Ok (Z.of_nat (dim m)).
Proof.
  intros Hflat Hnames Hp He Hnd Hpn Hen Hb Hin Hd Hdim.
  rewrite (dict_value self periodic extended cutoff_n cutoff_ext Hnames Hp He) in Hd.
  injection Hd as <-.
  unfold hilbertdim. rewrite Hflat. cbn [negb].
  exact (kron_operator_dimension zero one mul self periodic extended cutoff_n cutoff_ext
           Hnames Hp He Hnd Hpn Hen Hb operator index Hin Hdim).
Qed.

(** X25. Under the same conditions on the instance, the matrix that
    [_kron_operator] returns for a variable [index] is the operator in
    the slot of that variable, between identities: with [l] the product
    of the dimensions the method looks up for the variables of smaller
    index and [r] that for the variables of larger index, its size is
    [l * dim(operator) * r] and its entry [(i, j)] is the entry of the
    operator at the middle digits of [i] and [j] when their outer digits
    (the quotients by [dim(operator) * r] and the remainders modulo [r])
    agree, and 0 otherwise. *)
Theorem kron_operator_identity_wrapped {A : Type} (zero one : A) (mul : A -> A -> A)
  (self : instance) (periodic extended : list nat) (cutoff_n cutoff_ext : nat -> Z)
  (operator : matrix A) (index : nat) (d : list (nat * Z)) :
  Permutation (cutoff_names self)
    (map cutoff_n_name periodic ++ map cutoff_ext_name extended) ->
  (forall i, In i periodic -> attrs self !! cutoff_n_name i = Some (cutoff_n i)) ->
  (forall i, In i extended -> attrs self !! cutoff_ext_name i = Some (cutoff_ext i)) ->
  List.NoDup (periodic ++ extended) ->
  (forall i, In i periodic -> (0 <= cutoff_n i)%Z) ->
  (forall i, In i extended -> (1 <= cutoff_ext i)%Z) ->
  (product (map (fun i => 2 * cutoff_n i + 1) periodic)
   * product (map cutoff_ext extended) < 2 ^ 63)%Z ->
  (forall x, mul one x = x) -> (forall x, mul x one = x) ->
  (forall x, mul zero x = zero) -> (forall x, mul x zero = zero) ->
  In index (periodic ++ extended) ->
  cutoffs_index_dict self periodic extended = Ok d ->
  let dim_of := fun v => default 0%Z (dict_find d v) in
  let l := Z.to_nat (product (map dim_of
             (List.filter (fun v => v <? index) (periodic ++ extended)))) in
  let r := Z.to_nat (product (map dim_of
             (List.filter (fun v => index <? v) (periodic ++ extended)))) in
  exists m,
    _kron_operator zero one mul self periodic extended operator index = Wrapped m
    /\ dim m = l * dim operator * r
    /\ forall i j, i < dim m -> j < dim m ->
         entry m i j
         = if (i / (dim operator * r) =? j / (dim operator * r))
              && (i mod r =? j mod r)
           then entry operator ((i / r) mod dim operator) ((j / r) mod dim operator)
           else zero.
Proof.
  intros Hnames Hp He Hnd Hpn Hen Hb H1 H2 H3 H4 Hin Hd.
  rewrite (dict_value self periodic extended cutoff_n cutoff_ext Hnames Hp He) in Hd.
  injection Hd as <-.
  exact (kron_operator_entry zero one mul self periodic extended cutoff_n cutoff_ext
           Hnames Hp He Hnd Hpn Hen Hb H1 H2 H3 H4 operator index Hin).
Qed.

(** X26. With two or more variables, asking [_kron_operator] for an
    index that is not a variable of the instance raises [ValueError]
    (from [list.index]). *)
Theorem kron_operator_foreign_index {A : Type} (zero one : A) (mul : A -> A -> A)
  (self : instance) (periodic extended : list nat) (cutoff_n cutoff_ext : nat -> Z)
  (operator : matrix A) (index : nat) :
  Permutation (cutoff_names self)
    (map cutoff_n_name periodic ++ map cutoff_ext_name extended) ->
  (forall i, In i periodic -> attrs self !! cutoff_n_name i = Some (cutoff_n i)) ->
  (forall i, In i extended -> attrs self !! cutoff_ext_name i = Some (cutoff_ext i)) ->
  List.NoDup (periodic ++ extended) ->
  1 < length (periodic ++ extended) ->
  ~ In index (periodic ++ extended) ->
  _kron_operator zero one mul self periodic extended operator index
  = Raised ValueError.
Proof.
  intros Hnames Hp He Hnd Hlen Hnot.
  exact (kron_operator_unknown_index zero one mul self periodic extended
           cutoff_n cutoff_ext Hnames Hp He Hnd operator index Hlen Hnot).
Qed.

Lemma three_variables_attrs_n (i : nat) :
  In i [1] -> attrs three_variables !! cutoff_n_name i = Some (three_cutoff_n i).
Proof. intros [<- | []]. vm_compute. reflexivity. Qed.

Lemma three_variables_attrs_ext (i : nat) :
  In i [2; 3] -> attrs three_variables !! cutoff_ext_name i = Some (three_cutoff_ext i).
Proof. intros [<- | [<- | []]]; vm_compute; reflexivity. Qed.

Lemma three_variables_distinct : List.NoDup ([1] ++ [2; 3]).
Proof.
  repeat constructor; cbn; intuition discriminate.
Qed.

Lemma three_cutoff_n_nonneg (i : nat) : In i [1] -> (0 <= three_cutoff_n i)%Z.
Proof. intros _. unfold three_cutoff_n. lia. Qed.

Lemma three_cutoff_ext_pos (i : nat) : In i [2; 3] -> (1 <= three_cutoff_ext i)%Z.
Proof. intros _. unfold three_cutoff_ext. destruct (i =? 2); lia. Qed.

Lemma three_variables_bound :
  (product (map (fun i => 2 * three_cutoff_n i + 1) [1%nat])
   * product (map three_cutoff_ext [2%nat; 3%nat]) < 2 ^ 63)%Z.
Proof. apply Z.ltb_lt. vm_compute. reflexivity. Qed.

Lemma kron_operator_full_dimension_witness :
  exists m,
    _kron_operator 0%Z 1%Z Z.mul three_variables [1] [2; 3] two_by_two 2 = Wrapped m
    /\ hilbertdim three_variables = Ok (Z.of_nat (dim m)).
Proof.
  apply (kron_operator_full_dimension 0%Z 1%Z Z.mul three_variables [1] [2; 3]
           three_cutoff_n three_cutoff_ext two_by_two 2
           [(1, 3%Z); (2, 2%Z); (3, 4%Z)]).
  - reflexivity.
  - apply Permutation_refl.
  - apply three_variables_attrs_n.
  - apply three_variables_attrs_ext.
  - apply three_variables_distinct.
  - apply three_cutoff_n_nonneg.
  - apply three_cutoff_ext_pos.
  - apply three_variables_bound.
  - cbn. lia.
  - vm_compute. reflexivity.
  - reflexivity.
Defined.

Lemma kron_operator_identity_wrapped_witness :
  exists m,
    _kron_operator 0%Z 1%Z Z.mul three_variables [1] [2; 3] two_by_two 2 = Wrapped m
    /\ dim m = 3 * dim two_by_two * 4
    /\ forall i j, i < dim m -> j < dim m ->
         entry m i j
         = if (i / (dim two_by_two * 4) =? j / (dim two_by_two * 4))
              && (i mod 4 =? j mod 4)
           then entry two_by_two ((i / 4) mod dim two_by_two)
                  ((j / 4) mod dim two_by_two)
           else 0%Z.
Proof.
  apply (kron_operator_identity_wrapped 0%Z 1%Z Z.mul three_variables [1] [2; 3]
           three_cutoff_n three_cutoff_ext two_by_two 2
           [(1, 3%Z); (2, 2%Z); (3, 4%Z)]).
  - apply Permutation_refl.
  - apply three_variables_attrs_n.
  - apply three_variables_attrs_ext.
  - apply three_variables_distinct.
  - apply three_cutoff_n_nonneg.
  - apply three_cutoff_ext_pos.
  - apply three_variables_bound.
  - intros x. lia.
  - intros x. lia.
  - intros x. lia.
  - intros x. lia.
  - cbn. lia.
  - vm_compute. reflexivity.
Defined.

Lemma kron_operator_foreign_index_witness :
  _kron_operator 0%Z 1%Z Z.mul three_variables [1] [2; 3] two_by_two 7
  = Raised ValueError.
Proof.
  apply (kron_operator_foreign_index 0%Z 1%Z Z.mul three_variables [1] [2; 3]
           three_cutoff_n three_cutoff_ext two_by_two 7).
  - apply Permutation_refl.
  - apply three_variables_attrs_n.
  - apply three_variables_attrs_ext.
  - apply three_variables_distinct.
  - cbn. lia.
  - cbn. lia.
Defined.

(** The wrapped operator of the example: the 24 x 24 matrix with the
    blocks of [two_by_two] between the identities of sizes 3 and 4. *)
Example kron_operator_three_variables :
  exists m,
    _kron_operator 0%Z 1%Z Z.mul three_variables [1] [2; 3] two_by_two 2 = Wrapped m
    /\ dim m = 24
    /\ entry m 0 4 = 2%Z /\ entry m 4 0 = 3%Z /\ entry m 13 9 = 3%Z /\ entry m 0 5 = 0%Z.
Proof. eexists. split; [vm_compute; reflexivity |]. repeat split. Qed.

(** *** Which dimension a variable is given *)

Lemma filter_names_n (periodic extended : list nat) :
  List.filter (str_contains "cutoff_n")
    (map cutoff_n_name periodic ++ map cutoff_ext_name extended)
  = map cutoff_n_name periodic.
Proof.
  rewrite List.filter_app, filter_keep, filter_drop.
  - apply app_nil_r.
  - intros x Hx. apply in_map_iff in Hx as (i & <- & _). apply cutoff_n_not_in_ext_name.
  - intros x Hx. apply in_map_iff in Hx as (i & <- & _). apply cutoff_n_in_n_name.
Qed.

Lemma filter_names_ext (periodic extended : list nat) :
  List.filter (str_contains "cutoff_ext")
    (map cutoff_n_name periodic ++ map cutoff_ext_name extended)
  = map cutoff_ext_name extended.
Proof.
  rewrite List.filter_app, filter_drop, filter_keep.
  - reflexivity.
  - intros x Hx. apply in_map_iff in Hx as (i & <- & _). apply cutoff_ext_in_ext_name.
  - intros x Hx. apply in_map_iff in Hx as (i & <- & _). apply cutoff_ext_not_in_n_name.
Qed.

Lemma cutoffs_index_dict_sorted_names (self : instance) (periodic extended : list nat)
  (cutoff_n cutoff_ext : nat -> Z) :
  cutoff_names self = map cutoff_n_name periodic ++ map cutoff_ext_name extended ->
  py_sort (map cutoff_n_name periodic) = map cutoff_n_name periodic ->
  py_sort (map cutoff_ext_name extended) = map cutoff_ext_name extended ->
  (forall i, In i periodic -> attrs self !! cutoff_n_name i = Some (cutoff_n i)) ->
  (forall i, In i extended -> attrs self !! cutoff_ext_name i = Some (cutoff_ext i)) ->
  cutoffs_index_dict self periodic extended
  = Ok (dict_zip (periodic ++ extended)
          (map (fun i => 2 * cutoff_n i + 1)%Z periodic ++ map cutoff_ext extended)).
Proof.
  intros Hnames Hsn Hse Hp He.
  assert (Hperm : Permutation (cutoff_names self)
                    (map cutoff_n_name periodic ++ map cutoff_ext_name extended))
    by (rewrite Hnames; apply Permutation_refl).
  rewrite (dict_value self periodic extended cutoff_n cutoff_ext Hperm Hp He).
  rewrite Hnames, filter_names_n, filter_names_ext, Hsn, Hse.
  rewrite !map_map. do 3 f_equal.
  - apply map_ext_in. intros i Hi. rewrite (Hp i Hi). reflexivity.
  - apply map_ext_in. intros i Hi. rewrite (He i Hi). reflexivity.
Qed.

(** X27. When the cutoff attribute names, taken in the order of the
    variables, are already in sorted (string) order, as they are for
    ascending variable indices below 10, the dictionary built by
    [_kron_operator] gives every periodic variable the dimension
    [2 * cutoff + 1] of its own cutoff and every extended variable its
    own cutoff. *)
Theorem cutoffs_index_dict_own_dimension (self : instance)
  (periodic extended : list nat) (cutoff_n cutoff_ext : nat -> Z) :
  cutoff_names self = map cutoff_n_name periodic ++ map cutoff_ext_name extended ->
  py_sort (map cutoff_n_name periodic) = map cutoff_n_name periodic ->
  py_sort (map cutoff_ext_name extended) = map cutoff_ext_name extended ->
  (forall i, In i periodic -> attrs self !! cutoff_n_name i = Some (cutoff_n i)) ->
  (forall i, In i extended -> attrs self !! cutoff_ext_name i = Some (cutoff_ext i)) ->
  List.NoDup (periodic ++ extended) ->
  exists d,
    cutoffs_index_dict self periodic extended = Ok d
    /\ (forall i, In i periodic -> dict_find d i = Some (2 * cutoff_n i + 1)%Z)
    /\ (forall i, In i extended -> dict_find d i = Some (cutoff_ext i)).
Proof.
  intros Hnames Hsn Hse Hp He Hnd. eexists. split.
  - apply cutoffs_index_dict_sorted_names; eassumption.
  - split; intros i Hi; apply In_nth_error in Hi as [p Hpos].
    + apply (dict_zip_at _ _ p); [exact Hnd | |].
      * rewrite nth_error_app1 by (apply nth_error_Some; congruence). exact Hpos.
      * rewrite nth_error_app1
          by (rewrite length_map; apply nth_error_Some; congruence).
        rewrite nth_error_map, Hpos. reflexivity.
    + apply (dict_zip_at _ _ (length periodic + p)); [exact Hnd | |].
      * rewrite nth_error_app2 by lia.
        replace (length periodic + p - length periodic) with p by lia. exact Hpos.
      * rewrite nth_error_app2 by (rewrite length_map; lia).
        rewrite length_map.
        replace (length periodic + p - length periodic) with p by lia.
        rewrite nth_error_map, Hpos. reflexivity.
Qed.

Lemma cutoffs_index_dict_own_dimension_witness :
  exists d,
    cutoffs_index_dict three_variables [1] [2; 3] = Ok d
    /\ (forall i, In i [1] -> dict_find d i = Some (2 * three_cutoff_n i + 1)%Z)
    /\ (forall i, In i [2; 3] -> dict_find d i = Some (three_cutoff_ext i)).
Proof.
  apply (cutoffs_index_dict_own_dimension three_variables [1] [2; 3]
           three_cutoff_n three_cutoff_ext).
  - reflexivity.
  - vm_compute. reflexivity.
  - vm_compute. reflexivity.
  - apply three_variables_attrs_n.
  - apply three_variables_attrs_ext.
  - apply three_variables_distinct.
Defined.

(** The condition on the names is needed: the names [cutoff_n_2] and
    [cutoff_n_10] sort as [cutoff_n_10], [cutoff_n_2], so variable 2 is
    given the dimension of variable 10 and variable 10 that of
    variable 2. *)
Example cutoffs_index_dict_two_and_ten (a b : Z) :
  cutoffs_index_dict (two_and_ten a b) [2; 10] []
  = Ok [(2, (2 * b + 1)%Z); (10, (2 * a + 1)%Z)].
Proof.
  unfold cutoffs_index_dict.
  replace (get_cutoffs (two_and_ten a b))
    with (Ok [("cutoff_n"%string, [b; a]); ("cutoff_ext"%string, @nil Z)]
          : result (list (string * list Z)))
    by (vm_compute; reflexivity).
  reflexivity.
Qed.

End KronFacts.
